(** * BromiumJS: reactivity engine and virtual-DOM reconciler

    Shallow embedding of
    - [packages/core/dist/dep.js]     (track / trigger / cleanup, effect stack),
    - [packages/core/src/effect.ts]   (effect, computed, queueJob / flushJobs),
    - [packages/core/src/ref.js]      (RefImpl, and the proxy layer of reactive.ts),
    - [packages/runtime/src/renderer.ts] (mount / patch / unmount, createApp).

    User closures (effect bodies, getters, schedulers) are programs over the
    library's API; the library's own functions are state transformers. *)

From stdpp Require Import gmap strings list fin_maps pretty.
From Stdlib Require Import ZArith Lia.


(** ** JavaScript [Set]: insertion-ordered, no duplicates *)

Module JSet.
Section JSet.
Context {A : Type} `{EqDecision A}.

(** [s.add(x)]: appended at the end unless already present. *)
Definition add (x : A) (s : list A) : list A :=
if decide (x ∈ s) then s else s ++ [x].

(** [s.delete(x)] *)
Definition delete (x : A) (s : list A) : list A :=
filter (λ y, y ≠ x) s.

End JSet.
End JSet.

(** ** Values, keys, events *)

Definition Target := nat.
Definition EffId := nat.

(** Property keys: strings, or symbols (identified by allocation number). *)
Inductive Key :=
| KStr (s : string)
| KSym (n : nat).

Global Instance Key_eq_dec : EqDecision Key.
Proof. solve_decision. Defined.

Global Instance Key_countable : Countable Key.
Proof.
  refine (inj_countable'
    (λ k, match k with KStr s => inl s | KSym n => inr n end)
    (λ x, match x with inl s => KStr s | inr n => KSym n end) _).
  by intros [].
Defined.

(** Primitive payloads.  On these [toRaw] and [toReactive] are the identity
    and [Object.is] is equality. *)
Inductive Val :=
| VUndef
| VNull
| VBool (b : bool)
| VNum (z : Z)
| VStr (s : string).

Global Instance Val_eq_dec : EqDecision Val.
Proof. solve_decision. Defined.

(** JavaScript truthiness of a primitive. *)
Definition truthy (v : Val) : bool :=
  match v with
  | VUndef | VNull => false
  | VBool b => b
  | VNum z => negb (z =? 0)%Z
  | VStr s => negb (String.eqb s "")
  end.

(** Observations recorded while the engine runs (newest first in the log). *)
Inductive Event :=
| EvRead (e : EffId) (t : Target) (k : Key)   (* [track] called while [e] is active *)
| EvCleanup (e : EffId)                       (* [cleanup(e)] *)
| EvRun (e : EffId) (stack : list EffId)      (* [e()] entered, with the effect stack at entry *)
| EvSched (e : EffId)                         (* [e.options.scheduler(e)] *)
| EvQueue (e : EffId)                         (* [queueJob(e)] *)
| EvOut (v : Val).                            (* output of a user closure *)

Global Instance Event_eq_dec : EqDecision Event.
Proof. solve_decision. Defined.

(** ** User closures

    A closure is a tree of API calls; each continuation receives what the
    call returns.  Closures are assumed to return normally. *)
#[warnings="-register-all"]
Inductive Prog :=
| Ret (v : Val)
| Track (t : Target) (k : Key) (c : Prog)
| Trigger (t : Target) (k : Key) (c : Prog)
| GetActiveEffect (c : option EffId → Prog)
| Call (e : EffId) (c : Val → Prog)
| Cleanup (e : EffId) (c : Prog)
| Effect (fn : Prog) (lazy : bool) (scheduler : option (EffId → Prog)) (c : EffId → Prog)
| QueueJob (job : EffId) (c : Prog)
| Get (t : Target) (k : Key) (c : Val → Prog)
| Put (t : Target) (k : Key) (v : Val) (c : Prog)
| Has (t : Target) (k : Key) (c : bool → Prog)
| Delete (t : Target) (k : Key) (c : bool → Prog)
| OwnKeys (t : Target) (c : list Key → Prog)
| NewSymbol (c : Key → Prog)
| New (c : Target → Prog)
| Out (v : Val) (c : Prog).

(** What [effect(fn, options)] stores on the function object besides [deps]. *)
Record EffectRec := mkEffect {
  fn : Prog;
  lazy : bool;
  scheduler : option (EffId → Prog)
}.

(** ** Global state of dep.js and effect.ts, plus the heap the closures act on *)

Record State := mkState {
  targetMap : gmap Target (gmap Key (list EffId));
  activeEffect : option EffId;
  effectStack : list EffId;
  effectFns : gmap EffId EffectRec;
  effectDeps : gmap EffId (list (Target * Key));
  heap : gmap Target (gmap Key Val);
  isFlushing : bool;
  pendingJobs : list EffId;
  microtasks : nat;
  nextId : nat;
  log : list Event
}.

Definition empty_state : State :=
  mkState ∅ None [] ∅ ∅ ∅ false [] 0 0 [].

Definition with_targetMap (m : gmap Target (gmap Key (list EffId))) (st : State) : State :=
  mkState m (activeEffect st) (effectStack st) (effectFns st) (effectDeps st)
          (heap st) (isFlushing st) (pendingJobs st) (microtasks st) (nextId st) (log st).
Definition with_active (a : option EffId) (stk : list EffId) (st : State) : State :=
  mkState (targetMap st) a stk (effectFns st) (effectDeps st)
          (heap st) (isFlushing st) (pendingJobs st) (microtasks st) (nextId st) (log st).
Definition with_effectFns (m : gmap EffId EffectRec) (st : State) : State :=
  mkState (targetMap st) (activeEffect st) (effectStack st) m (effectDeps st)
          (heap st) (isFlushing st) (pendingJobs st) (microtasks st) (nextId st) (log st).
Definition with_effectDeps (m : gmap EffId (list (Target * Key))) (st : State) : State :=
  mkState (targetMap st) (activeEffect st) (effectStack st) (effectFns st) m
          (heap st) (isFlushing st) (pendingJobs st) (microtasks st) (nextId st) (log st).
Definition with_heap (h : gmap Target (gmap Key Val)) (st : State) : State :=
  mkState (targetMap st) (activeEffect st) (effectStack st) (effectFns st) (effectDeps st)
          h (isFlushing st) (pendingJobs st) (microtasks st) (nextId st) (log st).
Definition with_isFlushing (b : bool) (st : State) : State :=
  mkState (targetMap st) (activeEffect st) (effectStack st) (effectFns st) (effectDeps st)
          (heap st) b (pendingJobs st) (microtasks st) (nextId st) (log st).
Definition with_pendingJobs (l : list EffId) (st : State) : State :=
  mkState (targetMap st) (activeEffect st) (effectStack st) (effectFns st) (effectDeps st)
          (heap st) (isFlushing st) l (microtasks st) (nextId st) (log st).
Definition with_microtasks (n : nat) (st : State) : State :=
  mkState (targetMap st) (activeEffect st) (effectStack st) (effectFns st) (effectDeps st)
          (heap st) (isFlushing st) (pendingJobs st) n (nextId st) (log st).
Definition with_nextId (n : nat) (st : State) : State :=
  mkState (targetMap st) (activeEffect st) (effectStack st) (effectFns st) (effectDeps st)
          (heap st) (isFlushing st) (pendingJobs st) (microtasks st) n (log st).
Definition emit (ev : Event) (st : State) : State :=
  mkState (targetMap st) (activeEffect st) (effectStack st) (effectFns st) (effectDeps st)
          (heap st) (isFlushing st) (pendingJobs st) (microtasks st) (nextId st) (ev :: log st).

(** The subscriber set stored at [m.get(t).get(k)] (empty if absent). *)
Definition dep_set (m : gmap Target (gmap Key (list EffId))) (t : Target) (k : Key) :
    list EffId :=
  default [] (m !! t ≫= (.!! k)).

Definition subs (st : State) (t : Target) (k : Key) : list EffId :=
  dep_set (targetMap st) t k.

(** [e.deps]; each dependency set is named by the (target, key) it is stored under. *)
Definition edeps (st : State) (e : EffId) : list (Target * Key) :=
  default [] (effectDeps st !! e).

(** ** dep.js *)

Definition pushEffect (e : EffId) (st : State) : State :=
  with_active (Some e) (e :: effectStack st) st.

Definition popEffect (st : State) : State :=
  let stk := tail (effectStack st) in
  with_active (head stk) stk st.

Definition track (t : Target) (k : Key) (st : State) : State :=
  match activeEffect st with
  | None => st
  | Some a =>
      let depsMap := default ∅ (targetMap st !! t) in
      let deps := default [] (depsMap !! k) in
      let st1 := emit (EvRead a t k) st in
      if decide (a ∈ deps)
      then with_targetMap (<[t := <[k := deps]> depsMap]> (targetMap st)) st1
      else with_effectDeps (<[a := JSet.add (t, k) (edeps st a)]> (effectDeps st))
             (with_targetMap (<[t := <[k := deps ++ [a]]> depsMap]> (targetMap st)) st1)
  end.

(** [deps.delete(effect)] on the set stored under [d]. *)
Definition unsubscribe (e : EffId) (m : gmap Target (gmap Key (list EffId)))
    (d : Target * Key) : gmap Target (gmap Key (list EffId)) :=
  alter (alter (JSet.delete e) d.2) d.1 m.

Definition cleanup (e : EffId) (st : State) : State :=
  with_effectDeps (<[e := []]> (effectDeps st))
    (with_targetMap (foldl (unsubscribe e) (targetMap st) (edeps st e))
       (emit (EvCleanup e) st)).

(** Entering [effectFn]: [cleanup(effectFn); pushEffect(effectFn)]. *)
Definition enter_effect (e : EffId) (st : State) : State :=
  pushEffect e (cleanup e (emit (EvRun e (effectStack st)) st)).

(** The local [effectsToRun] set built by the first loop of [trigger]. *)
Definition effectsToRun (st : State) (t : Target) (k : Key) : list EffId :=
  match targetMap st !! t with
  | None => []
  | Some depsMap =>
      match depsMap !! k with
      | None => []
      | Some deps =>
          foldl (λ acc e, if decide (Some e = activeEffect st) then acc else JSet.add e acc)
                [] deps
      end
  end.

(** [queueJob(job)] of effect.ts. *)
Definition queueJob (job : EffId) (st : State) : State :=
  let st1 := with_pendingJobs (JSet.add job (pendingJobs st)) (emit (EvQueue job) st) in
  if isFlushing st1 then st1
  else with_microtasks (S (microtasks st1)) (with_isFlushing true st1).

(** Heap access used by closures: own data properties of plain objects. *)
Definition props (st : State) (t : Target) : gmap Key Val :=
  default ∅ (heap st !! t).
Definition heap_get (st : State) (t : Target) (k : Key) : Val :=
  default VUndef (props st t !! k).
Definition heap_has (st : State) (t : Target) (k : Key) : bool :=
  bool_decide (is_Some (props st t !! k)).
Definition heap_put (t : Target) (k : Key) (v : Val) (st : State) : State :=
  with_heap (<[t := <[k := v]> (props st t)]> (heap st)) st.
Definition heap_delete (t : Target) (k : Key) (st : State) : State :=
  with_heap (<[t := delete k (props st t)]> (heap st)) st.
Definition heap_keys (st : State) (t : Target) : list Key :=
  (map_to_list (props st t)).*1.

(** ** effect.ts: running effects

    [rec] runs a closure that is not a sub-term of the current one (an
    effect's [fn], a scheduler); [run] below ties the knot with a call
    budget. *)
Section Exec.
Variable rec : Prog → State → option (Val * State).

(** The body of [effectFn]: cleanup, push, [fn()], pop. *)
Definition call_effect (e : EffId) (st : State) : option (Val * State) :=
  match effectFns st !! e with
  | None => None
  | Some r =>
      match rec (fn r) (enter_effect e st) with
      | None => None
      | Some (v, st') => Some (v, popEffect st')
      end
  end.

(** One iteration of the second loop of [trigger]. *)
Definition run_one (e : EffId) (st : State) : option State :=
  match effectFns st !! e with
  | None => None
  | Some r =>
      match scheduler r with
      | Some s => snd <$> rec (s e) (emit (EvSched e) st)
      | None => snd <$> call_effect e st
      end
  end.

Fixpoint run_effects (es : list EffId) (st : State) : option State :=
  match es with
  | [] => Some st
  | e :: es' =>
      match run_one e st with
      | None => None
      | Some st' => run_effects es' st'
      end
  end.

Definition trigger (t : Target) (k : Key) (st : State) : option State :=
  run_effects (effectsToRun st t k) st.

(** [effect(fn, options)] up to the first run. *)
Definition alloc_effect (f : Prog) (lz : bool) (s : option (EffId → Prog))
    (st : State) : EffId * State :=
  let e := nextId st in
  (e, with_nextId (S e)
        (with_effectDeps (<[e := []]> (effectDeps st))
           (with_effectFns (<[e := mkEffect f lz s]> (effectFns st)) st))).

Fixpoint exec (p : Prog) (st : State) : option (Val * State) :=
  match p with
  | Ret v => Some (v, st)
  | Track t k c => exec c (track t k st)
  | Trigger t k c =>
      match trigger t k st with
      | None => None
      | Some st' => exec c st'
      end
  | GetActiveEffect c => exec (c (activeEffect st)) st
  | Call e c =>
      match call_effect e st with
      | None => None
      | Some (v, st') => exec (c v) st'
      end
  | Cleanup e c => exec c (cleanup e st)
  | Effect f lz s c =>
      let '(e, st1) := alloc_effect f lz s st in
      if lz then exec (c e) st1
      else match call_effect e st1 with
           | None => None
           | Some (_, st2) => exec (c e) st2
           end
  | QueueJob j c => exec c (queueJob j st)
  | Get t k c => exec (c (heap_get st t k)) st
  | Put t k v c => exec c (heap_put t k v st)
  | Has t k c => exec (c (heap_has st t k)) st
  | Delete t k c => exec (c true) (heap_delete t k st)
  | OwnKeys t c => exec (c (heap_keys st t)) st
  | NewSymbol c => exec (c (KSym (nextId st))) (with_nextId (S (nextId st)) st)
  | New c => exec (c (nextId st)) (with_nextId (S (nextId st)) st)
  | Out v c => exec c (emit (EvOut v) st)
  end.

(** [pendingJobs.forEach(job => job())]: a [Set] is iterated in insertion
    order and entries added while iterating are visited too, so the loop
    walks the live list by position.  [n] bounds the number of visits. *)
Fixpoint flush_loop (n : nat) (i : nat) (st : State) : option State :=
  match pendingJobs st !! i with
  | None => Some st
  | Some job =>
      match n with
      | 0 => None
      | S n' =>
          match call_effect job st with
          | None => None
          | Some (_, st') => flush_loop n' (S i) st'
          end
      end
  end.

Definition flushJobs (n : nat) (st : State) : option State :=
  match flush_loop n 0 st with
  | None => None
  | Some st' => Some (with_isFlushing false (with_pendingJobs [] st'))
  end.
End Exec.

(** [run n p st]: run [p] allowing closure calls nested at most [n] deep. *)
Fixpoint run (fuel : nat) : Prog → State → option (Val * State) :=
  match fuel with
  | 0 => λ _ _, None
  | S f => exec (run f)
  end.

(** One turn of the microtask queue: a scheduled [flushJobs] runs. *)
Definition microtask (fuel : nat) (st : State) : option State :=
  match microtasks st with
  | 0 => Some st
  | S m => flushJobs (run fuel) fuel (with_microtasks m st)
  end.

(** ** ref.js: RefImpl on primitive payloads *)

Definition kValue : Key := KStr "value".
Definition RefFlag : Key := KStr "__b_isRef".

Definition toRaw (v : Val) : Val := v.
Definition toReactive (v : Val) : Val := v.

Definition trackRefValue (r : Target) (c : Prog) : Prog :=
  GetActiveEffect (λ a, match a with Some _ => Track r kValue c | None => c end).

Definition triggerRefValue (r : Target) (c : Prog) : Prog :=
  Trigger r kValue c.

(** [new RefImpl(value)] *)
Definition ref (value : Val) (c : Target → Prog) : Prog :=
  New (λ this,
    Put this RefFlag (VBool true)
      (Put this (KStr "_rawValue") (toRaw value)
         (Put this (KStr "_value") (toReactive value) (c this)))).

(** [r.value] *)
Definition ref_get (r : Target) (c : Val → Prog) : Prog :=
  trackRefValue r (Get r (KStr "_value") c).

(** [r.value = newValue] *)
Definition ref_set (r : Target) (newValue : Val) (c : Prog) : Prog :=
  let rawNewValue := toRaw newValue in
  Get r (KStr "_rawValue") (λ rawValue,
    if decide (rawNewValue = rawValue) then c
    else Put r (KStr "_rawValue") rawNewValue
           (Put r (KStr "_value") (toReactive newValue) (triggerRefValue r c))).

(** ** effect.ts: ComputedRefImpl *)

Definition trackComputed (this : Target) (c : Prog) : Prog :=
  GetActiveEffect (λ a, match a with Some _ => Track this kValue c | None => c end).

Definition triggerComputed (this : Target) (c : Prog) : Prog :=
  Trigger this kValue c.

(** A computed ref: the object carrying [_dirty] and [_value], and its [_effect]. *)
Record ComputedRef := mkComputed {
  c_this : Target;
  c_effect : EffId
}.

(** The scheduler installed by the constructor. *)
Definition computed_scheduler (this : Target) : EffId → Prog :=
  λ _, Get this (KStr "_dirty") (λ dirty,
         if truthy dirty then Ret VUndef
         else Put this (KStr "_dirty") (VBool true) (triggerComputed this (Ret VUndef))).

(** [computed(getter)] *)
Definition computed (getter : Prog) (c : ComputedRef → Prog) : Prog :=
  New (λ this,
    Put this (KStr "_dirty") (VBool true)
      (Put this RefFlag (VBool true)
         (Effect getter true (Some (computed_scheduler this))
            (λ e, c (mkComputed this e))))).

(** [x.value] *)
Definition computed_get (x : ComputedRef) (c : Val → Prog) : Prog :=
  let this := c_this x in
  trackComputed this
    (Get this (KStr "_dirty") (λ dirty,
       if truthy dirty
       then Call (c_effect x) (λ v,
              Put this (KStr "_value") v
                (Put this (KStr "_dirty") (VBool false)
                   (Get this (KStr "_value") c)))
       else Get this (KStr "_value") c)).

(** ** reactive.ts: the proxy handler, on objects whose properties hold
       primitives.  Each trap is given the proxy's target. *)

Definition IS_REACTIVE : Key := KStr "__b_isReactive".
Definition RAW : Key := KStr "__b_raw".

(** What a [get] trap returns: a primitive, or the target object itself. *)
Inductive TrapResult :=
| Prim (v : Val)
| Object (o : Target).

Definition proxy_get (target : Target) (key : Key) (c : TrapResult → Prog) : Prog :=
  if decide (key = IS_REACTIVE) then c (Prim (VBool true))
  else if decide (key = RAW) then c (Object target)
  else Get target key (λ result, Track target key (c (Prim result))).

Definition proxy_set (target : Target) (key : Key) (value : Val) (c : bool → Prog) : Prog :=
  Get target key (λ oldValue,
    let newValue := value in
    Put target key newValue
      (if decide (oldValue = newValue) then c true
       else Trigger target key (c true))).

Definition proxy_deleteProperty (target : Target) (key : Key) (c : bool → Prog) : Prog :=
  Has target key (λ hadKey,
    Delete target key (λ result,
      if hadKey && result then Trigger target key (c result) else c result)).

Definition proxy_has (target : Target) (key : Key) (c : bool → Prog) : Prog :=
  Track target key (Has target key c).

Definition proxy_ownKeys (target : Target) (c : list Key → Prog) : Prog :=
  NewSymbol (λ iterate, Track target iterate (OwnKeys target c)).

(** ** reactive.ts: identity of proxies ([reactive], [markRaw], [isReactive]) *)

Module Reactive.

Definition Obj := nat.

Record Store := mkStore {
  ownProps : gmap Obj (gmap Key Val);   (* own properties of plain objects *)
  proxyTarget : gmap Obj Obj;           (* the target of each Proxy object *)
  reactiveMap : gmap Obj Obj;
  rawMap : gmap Obj Obj;
  next : nat
}.

Definition empty : Store := mkStore ∅ ∅ ∅ ∅ 0.

(** An object literal: a fresh plain object. *)
Definition new_object (s : Store) : Obj * Store :=
  (next s,
   mkStore (<[next s := ∅]> (ownProps s)) (proxyTarget s) (reactiveMap s) (rawMap s)
           (S (next s))).

(** [o[IS_REACTIVE]]: answered by the [get] trap on a proxy, read from the
    own properties otherwise. *)
Definition get_IS_REACTIVE (s : Store) (o : Obj) : Val :=
  match proxyTarget s !! o with
  | Some _ => VBool true
  | None => default VUndef (ownProps s !! o ≫= (.!! IS_REACTIVE))
  end.

Definition reactive (target : Obj) (s : Store) : Obj * Store :=
  match reactiveMap s !! target with
  | Some proxy => (proxy, s)
  | None =>
      if truthy (get_IS_REACTIVE s target) then (target, s)
      else
        let proxy := next s in
        (proxy,
         mkStore (ownProps s) (<[proxy := target]> (proxyTarget s))
                 (<[target := proxy]> (reactiveMap s)) (<[proxy := target]> (rawMap s))
                 (S proxy))
  end.

Definition isReactive (s : Store) (value : Obj) : bool :=
  truthy (get_IS_REACTIVE s value).

(** [Object.defineProperty(value, IS_REACTIVE, { value: false, ... })]; on a
    proxy the definition lands on its target, the handler having no trap
    for it. *)
Definition markRaw (value : Obj) (s : Store) : Obj * Store :=
  let holder := default value (proxyTarget s !! value) in
  (value,
   mkStore (<[holder := <[IS_REACTIVE := VBool false]> (default ∅ (ownProps s !! holder))]>
              (ownProps s))
           (proxyTarget s) (reactiveMap s) (rawMap s) (next s)).

(** What [toRaw] hands back: an object, or the primitive stored under [RAW]. *)
Inductive RawResult :=
| RawObj (o : Obj)
| RawPrim (v : Val).

(** [o[RAW]] on a plain object: an own property. *)
Definition own_RAW (s : Store) (o : Obj) : Val :=
  default VUndef (ownProps s !! o ≫= (.!! RAW)).

(** [toRaw(observed)]: [const raw = observed?.[RAW]; return raw ? toRaw(raw) : observed].
    On a proxy the [get] trap answers [RAW] with the target.  [n] bounds the
    number of proxies unwrapped; [None] when it is used up. *)
Fixpoint toRaw_within (n : nat) (s : Store) (observed : Obj) : option RawResult :=
  match proxyTarget s !! observed with
  | Some target =>
      match n with
      | 0 => None
      | S n' => toRaw_within n' s target
      end
  | None =>
      let raw := own_RAW s observed in
      Some (if truthy raw then RawPrim raw else RawObj observed)
  end.

Definition toRaw (s : Store) (observed : Obj) : option RawResult :=
  toRaw_within (next s) s observed.

(** The calls a program can make on the identity layer. *)
Inductive Op :=
| ONew                       (* an object literal *)
| OReactive (o : Obj)        (* [reactive(o)] *)
| OMarkRaw (o : Obj).        (* [markRaw(o)] *)

Definition apply (op : Op) (s : Store) : Store :=
  match op with
  | ONew => (new_object s).2
  | OReactive o => (reactive o s).2
  | OMarkRaw o => (markRaw o s).2
  end.

(** A call can only name an object that exists. *)
Definition in_scope (op : Op) (s : Store) : Prop :=
  match op with
  | ONew => True
  | OReactive o | OMarkRaw o => o < next s
  end.

(** The stores a program can reach. *)
Inductive reachable : Store → Prop :=
| reach_empty : reachable empty
| reach_step s op : reachable s → in_scope op s → reachable (apply op s).

(** [o] is a plain object of [s]. *)
Definition plain (s : Store) (o : Obj) : Prop :=
  is_Some (ownProps s !! o) ∧ proxyTarget s !! o = None.

(** Proxies and targets are paired one to one, both maps agree with the
    pairing, a proxy is never itself wrapped, and the only own flags are the
    ones [markRaw] wrote. *)
Record wf (s : Store) : Prop := mkWf {
  wf_pair : ∀ t p, reactiveMap s !! t = Some p ↔ proxyTarget s !! p = Some t;
  wf_raw : rawMap s = proxyTarget s;
  wf_target : ∀ p t, proxyTarget s !! p = Some t → plain s t;
  wf_alloc : ∀ o : Obj, o < next s ↔ is_Some (ownProps s !! o) ∨ is_Some (proxyTarget s !! o);
  wf_disjoint : ∀ o, is_Some (ownProps s !! o) → proxyTarget s !! o = None;
  wf_flag : ∀ o ps v, ownProps s !! o = Some ps → ps !! IS_REACTIVE = Some v → v = VBool false;
  wf_no_raw : ∀ o ps, ownProps s !! o = Some ps → ps !! RAW = None
}.

End Reactive.

(** ** renderer.ts over vnode.ts

    The output surface is driven through a sequence of node operations; the
    reactive state is the one of dep.js. *)

Module Renderer.

Definition NodeId := nat.

Inductive VKey :=
| KeyStr (s : string)
| KeyNum (z : Z).

Global Instance VKey_eq_dec : EqDecision VKey.
Proof. solve_decision. Defined.

(** Prop values; functions and objects compare by reference. *)
Inductive PropVal :=
| PUndef
| PNull
| PBool (b : bool)
| PNum (z : Z)
| PStr (s : string)
| PRef (id : nat).

Global Instance PropVal_eq_dec : EqDecision PropVal.
Proof. solve_decision. Defined.

(** A lifecycle callback: its identity, and whether calling it throws. *)
Record Hook := mkHook {
  hook_id : nat;
  hook_throws : bool
}.

(** A virtual node.  A component function is known by its identity, by the
    reactive reads and hook registrations it performs when called, and by
    the subtree it returns for the props of the vnode that carries it. *)
Inductive VNode :=
| mkVNode (type : VType) (props : list (string * PropVal)) (children : list VChild)
          (key : option VKey) (el : option NodeId) (component : option Instance)
          (anchor : option NodeId)
with VChild :=
| CNode (v : VNode)
| CStr (s : string)
| CNum (z : Z)
| CBool (b : bool)
| CNull
| CUndef
with VType :=
| TTag (tag : string)
| TFragment
| TText
| TComponent (f : ComponentFunction)
with ComponentFunction :=
| mkComponent (cid : nat) (reads : list (Target * Key))
              (onMounted onUnmounted onUpdated : list Hook) (output : option VNode)
with Instance :=
| mkInstance (subTree : option VNode) (isMounted : bool) (update : option EffId)
             (mounted unmounted updated : list Hook)
             (container : NodeId) (anchor : option NodeId) (isSVG : bool).

Definition v_type (v : VNode) : VType := let 'mkVNode t _ _ _ _ _ _ := v in t.
Definition v_props (v : VNode) := let 'mkVNode _ p _ _ _ _ _ := v in p.
Definition v_children (v : VNode) := let 'mkVNode _ _ c _ _ _ _ := v in c.
Definition v_key (v : VNode) := let 'mkVNode _ _ _ k _ _ _ := v in k.
Definition v_el (v : VNode) := let 'mkVNode _ _ _ _ e _ _ := v in e.
Definition v_component (v : VNode) := let 'mkVNode _ _ _ _ _ c _ := v in c.
Definition v_anchor (v : VNode) := let 'mkVNode _ _ _ _ _ _ a := v in a.

Definition i_subTree (i : Instance) := let 'mkInstance s _ _ _ _ _ _ _ _ := i in s.
Definition i_update (i : Instance) := let 'mkInstance _ _ u _ _ _ _ _ _ := i in u.
Definition i_unmounted (i : Instance) := let 'mkInstance _ _ _ _ u _ _ _ _ := i in u.

(** [a.type === b.type]: tags by name, sentinels by identity, components by
    function identity. *)
Definition same_type (a b : VType) : bool :=
  match a, b with
  | TTag s, TTag s' => bool_decide (s = s')
  | TFragment, TFragment => true
  | TText, TText => true
  | TComponent (mkComponent c _ _ _ _ _), TComponent (mkComponent c' _ _ _ _ _) =>
      bool_decide (c = c')
  | _, _ => false
  end.

Inductive DomOp :=
| CreateElement (n : NodeId) (tag : string) (svg : bool)
| CreateTextNode (n : NodeId) (text : string)
| CreateComment (n : NodeId)
| InsertBefore (parent child : NodeId) (anchor : option NodeId)
| AppendChild (parent child : NodeId)
| RemoveFromParent (n : NodeId)
| SetTextContent (n : NodeId) (text : string)
| SetFirstTextChild (parent : NodeId) (text : string)
| RemoveChildrenBefore (parent : NodeId) (anchor : option NodeId)
| SetProp (el : NodeId) (key : string) (newValue oldValue : PropVal) (svg : bool).

Inductive REvent :=
| RDom (op : DomOp)
| RHook (context : string) (h : nat)          (* a lifecycle callback is called *)
| RHookError (context : string) (h : nat)     (* ... threw; caught and reported *)
| REffectRun (e : EffId)                      (* an update effect runs *)
| RCleanup (e : EffId).                       (* [cleanup(e)] *)

Record RState := mkRState {
  core : State;
  trace : list REvent;                        (* newest first *)
  nextNode : NodeId;
  committed : gmap NodeId VNode;              (* [container._vnode] *)
  deferred : list (string * list Hook);       (* queued lifecycle microtasks, newest first *)
  document : gmap string NodeId               (* what [querySelector] finds *)
}.

Definition with_core (c : State) (st : RState) : RState :=
  mkRState c (trace st) (nextNode st) (committed st) (deferred st) (document st).
Definition with_committed (m : gmap NodeId VNode) (st : RState) : RState :=
  mkRState (core st) (trace st) (nextNode st) m (deferred st) (document st).
Definition record (ev : REvent) (st : RState) : RState :=
  mkRState (core st) (ev :: trace st) (nextNode st) (committed st) (deferred st) (document st).
Definition dom (op : DomOp) (st : RState) : RState := record (RDom op) st.
Definition fresh_node (st : RState) : NodeId * RState :=
  (nextNode st,
   mkRState (core st) (trace st) (S (nextNode st)) (committed st) (deferred st) (document st)).
Definition queueMicrotask (context : string) (hooks : list Hook) (st : RState) : RState :=
  mkRState (core st) (trace st) (nextNode st) (committed st)
           ((context, hooks) :: deferred st) (document st).

(** lifecycle.ts: each callback runs in its own try/catch. *)
Definition invokeLifecycleHooks (hooks : list Hook) (context : string) (st : RState) : RState :=
  foldl (λ s h,
           let s1 := record (RHook context (hook_id h)) s in
           if hook_throws h then record (RHookError context (hook_id h)) s1 else s1)
        st hooks.

(** [cleanup(e)] of dep.js, applied to the reactive state. *)
Definition cleanup_effect (e : EffId) (st : RState) : RState :=
  record (RCleanup e) (with_core (cleanup e (core st)) st).

Definition SVG_TAGS : list string :=
  ["svg"; "path"; "circle"; "ellipse"; "line"; "polygon"; "polyline"; "rect";
   "g"; "defs"; "symbol"; "use"; "image"; "text"; "tspan"; "textPath";
   "clipPath"; "mask"; "pattern"; "marker"; "linearGradient"; "radialGradient";
   "stop"; "filter"; "feBlend"; "feColorMatrix"; "feComponentTransfer";
   "feComposite"; "feConvolveMatrix"; "feDiffuseLighting"; "feDisplacementMap";
   "feFlood"; "feGaussianBlur"; "feImage"; "feMerge"; "feMergeNode";
   "feMorphology"; "feOffset"; "feSpecularLighting"; "feTile"; "feTurbulence";
   "foreignObject"; "animate"; "animateMotion"; "animateTransform"; "set"].

(** [String(child)] for a text-like child. *)
Definition child_text (c : VChild) : string :=
  match c with
  | CStr s => s
  | CNum z => pretty z
  | CBool true => "true"
  | CBool false => "false"
  | CNull => "null"
  | CUndef => "undefined"
  | CNode _ => "[object Object]"
  end.

(** [typeof child === 'object'] (true of [null] too). *)
Definition is_object (c : VChild) : bool :=
  match c with CNode _ | CNull => true | _ => false end.

(** [child == null] *)
Definition is_nullish (c : VChild) : bool :=
  match c with CNull | CUndef => true | _ => false end.

(** A JavaScript [Map] keyed by vnode keys: insertion-ordered. *)
Fixpoint jmap_get {V} (k : VKey) (m : list (VKey * V)) : option V :=
  match m with
  | [] => None
  | (k', v) :: m' => if decide (k' = k) then Some v else jmap_get k m'
  end.
Fixpoint jmap_set {V} (k : VKey) (v : V) (m : list (VKey * V)) : list (VKey * V) :=
  match m with
  | [] => [(k, v)]
  | (k', v') :: m' => if decide (k' = k) then (k, v) :: m' else (k', v') :: jmap_set k v m'
  end.
Definition jmap_delete {V} (k : VKey) (m : list (VKey * V)) : list (VKey * V) :=
  filter (λ kv, kv.1 ≠ k) m.

(** [props[key]] and [key in props] *)
Fixpoint prop_get (ps : list (string * PropVal)) (k : string) : PropVal :=
  match ps with
  | [] => PUndef
  | (k', v) :: ps' => if decide (k' = k) then v else prop_get ps' k
  end.
Definition prop_in (ps : list (string * PropVal)) (k : string) : bool :=
  bool_decide (k ∈ ps.*1).

(** [children.forEach] over a child list, rebuilding it: [on_node] handles
    vnode children, [on_text] the text-like ones; nullish children are
    skipped. *)
Definition each_child (on_node : VNode → RState → VNode * RState)
    (on_text : VChild → RState → RState) : list VChild → RState → list VChild * RState :=
  fix go (cs : list VChild) (st : RState) : list VChild * RState :=
    match cs with
    | [] => ([], st)
    | child :: cs' =>
        match child with
        | CNull | CUndef => let '(r, st') := go cs' st in (child :: r, st')
        | CNode c =>
            let '(c', st1) := on_node c st in
            let '(r, st2) := go cs' st1 in (CNode c' :: r, st2)
        | _ => let '(r, st') := go cs' (on_text child st) in (child :: r, st')
        end
    end.

(** [el.appendChild(document.createTextNode(String(child)))] *)
Definition append_text (parent : NodeId) (child : VChild) (st : RState) : RState :=
  let '(n, st1) := fresh_node st in
  dom (AppendChild parent n) (dom (CreateTextNode n (child_text child)) st1).

(** [container.insertBefore(document.createTextNode(String(child)), anchor)] *)
Definition insert_text (parent : NodeId) (anchor : option NodeId) (child : VChild)
    (st : RState) : RState :=
  let '(n, st1) := fresh_node st in
  dom (InsertBefore parent n anchor) (dom (CreateTextNode n (child_text child)) st1).

Definition set_props (el : NodeId) (ps : list (string * PropVal)) (svg : bool)
    (st : RState) : RState :=
  foldl (λ s kv, if bool_decide (kv.1 = "key" ∨ kv.1 = "ref") then s
                 else dom (SetProp el kv.1 kv.2 PNull svg) s) st ps.

Fixpoint mount (vnode : VNode) (container : NodeId) (anchor : option NodeId)
    (isSVG : bool) (st : RState) {struct vnode} : VNode * RState :=
  match vnode with
  | mkVNode type props children key el component vanchor =>
      match type with
      | TFragment =>
          let '(fragmentAnchor, st1) := fresh_node st in
          let st2 := dom (InsertBefore container fragmentAnchor anchor)
                         (dom (CreateComment fragmentAnchor) st1) in
          let '(children', st3) :=
            each_child (λ c s, mount c container (Some fragmentAnchor) isSVG s)
                       (insert_text container (Some fragmentAnchor)) children st2 in
          (mkVNode type props children' key el component (Some fragmentAnchor), st3)
      | TText =>
          let '(n, st1) := fresh_node st in
          let text := match children with c :: _ => child_text c | [] => "undefined" end in
          let st2 := dom (InsertBefore container n anchor) (dom (CreateTextNode n text) st1) in
          (mkVNode type props children key (Some n) component vanchor, st2)
      | TComponent (mkComponent cid reads hm hu hup output) =>
          let e := nextId (core st) in
          let c1 := enter_effect e (with_nextId (S e) (core st)) in
          let c2 := foldl (λ c d, track d.1 d.2 c) c1 reads in
          let st1 := record (REffectRun e) (with_core c2 st) in
          let '(subTree, st2) :=
            match output with
            | Some sub =>
                let '(sub', s) := mount sub container anchor isSVG st1 in (Some sub', s)
            | None => (None, st1)
            end in
          let st3 := queueMicrotask "onMounted" hm st2 in
          let st4 := with_core (popEffect (core st3)) st3 in
          (mkVNode type props children key el
             (Some (mkInstance subTree true (Some e) hm hu hup container anchor isSVG))
             vanchor, st4)
      | TTag tagName =>
          let isCurrentSVG := isSVG || bool_decide (tagName ∈ SVG_TAGS) in
          let '(n, st1) := fresh_node st in
          let st2 := set_props n props isCurrentSVG (dom (CreateElement n tagName isCurrentSVG) st1) in
          let '(children', st3) :=
            each_child (λ c s, mount c n None isCurrentSVG s) (append_text n) children st2 in
          (mkVNode type props children' key (Some n) component vanchor,
           dom (InsertBefore container n anchor) st3)
      end
  end.

(** [children.forEach(child => { if (child && typeof child === 'object') f(child) })] *)
Definition each_vnode (f : VNode → RState → RState) : list VChild → RState → RState :=
  fix go (cs : list VChild) (st : RState) : RState :=
    match cs with
    | [] => st
    | CNode c :: cs' => go cs' (f c st)
    | _ :: cs' => go cs' st
    end.

Fixpoint unmount (vnode : VNode) (st : RState) {struct vnode} : RState :=
  match vnode with
  | mkVNode type props children key el component vanchor =>
      match type, component with
      | TComponent _, Some (mkInstance subTree _ update _ unmounted _ _ _ _) =>
          let st1 := invokeLifecycleHooks unmounted "onUnmounted" st in
          let st2 := match subTree with Some sub => unmount sub st1 | None => st1 end in
          match update with Some e => cleanup_effect e st2 | None => st2 end
      | TFragment, _ =>
          let st1 := each_vnode unmount children st in
          match vanchor with Some a => dom (RemoveFromParent a) st1 | None => st1 end
      | _, _ =>
          let st1 := each_vnode unmount children st in
          match el with Some n => dom (RemoveFromParent n) st1 | None => st1 end
      end
  end.

(** [children[0]] of a text vnode, as the string handed to the text node. *)
Definition first_text (children : list VChild) : string :=
  match children with c :: _ => child_text c | [] => "undefined" end.

(** [String(child ?? '')] *)
Definition text_or_empty (c : VChild) : string :=
  if is_nullish c then "" else child_text c.

(** The one child of a list that is a single non-object entry. *)
Definition single_text (cs : list VChild) : option VChild :=
  match cs with
  | [c] => if is_object c then None else Some c
  | _ => None
  end.

Definition hasOnlyVNodeChildren (oldChildren newChildren : list VChild) : bool :=
  forallb (λ c, is_nullish c || is_object c) oldChildren
  && forallb (λ c, is_nullish c || is_object c) newChildren.

(** The keyed pool and the positional list built from the old children. *)
Definition collect_keyed (oldChildren : list VChild) : list (VKey * VNode) :=
  foldl (λ m child,
           match child with
           | CNode v => match v_key v with Some k => jmap_set k v m | None => m end
           | _ => m
           end) [] oldChildren.

Definition collect_unkeyed (oldChildren : list VChild) : list VNode :=
  foldl (λ l child,
           match child with
           | CNode v => match v_key v with Some _ => l | None => l ++ [v] end
           | _ => l
           end) [] oldChildren.

Section PatchChildren.
Variable patch : VNode → VNode → NodeId → option NodeId → bool → RState → VNode * RState.

(** The [newChildren.forEach] pass of the keyed path. *)
Definition reconcile (oldUnkeyed : list VNode) (container : NodeId)
    (anchor : option NodeId) (isSVG : bool) :
    list VChild → list (VKey * VNode) → nat → RState →
    list VChild * (list (VKey * VNode) * nat * RState) :=
  fix go (news : list VChild) (oldKeyed : list (VKey * VNode)) (unkeyedIndex : nat)
         (st : RState) :=
    match news with
    | [] => ([], (oldKeyed, unkeyedIndex, st))
    | CNode newChild :: news' =>
        let '(oldChild, oldKeyed', unkeyedIndex') :=
          match v_key newChild with
          | Some k =>
              match jmap_get k oldKeyed with
              | Some o => (Some o, jmap_delete k oldKeyed, unkeyedIndex)
              | None => (None, oldKeyed, unkeyedIndex)
              end
          | None => (oldUnkeyed !! unkeyedIndex, oldKeyed, S unkeyedIndex)
          end in
        let '(newChild', st1) :=
          match oldChild with
          | Some o => patch o newChild container anchor isSVG st
          | None => mount newChild container anchor isSVG st
          end in
        let '(r, fin) := go news' oldKeyed' unkeyedIndex' st1 in
        (CNode newChild' :: r, fin)
    | child :: news' =>
        let '(r, fin) := go news' oldKeyed unkeyedIndex st in (child :: r, fin)
    end.

Definition patchChildren (oldChildren newChildren : list VChild)
    (anchor : option NodeId) (container : NodeId) (isSVG : bool) (st : RState) :
    list VChild * RState :=
  match single_text oldChildren, single_text newChildren with
  | Some o, Some n =>
      let oldText := text_or_empty o in
      let newText := text_or_empty n in
      (newChildren,
       if decide (oldText = newText) then st
       else dom (SetFirstTextChild container newText) st)
  | _, _ =>
      if negb (hasOnlyVNodeChildren oldChildren newChildren) then
        let st1 := each_vnode unmount oldChildren st in
        let st2 := dom (RemoveChildrenBefore container anchor) st1 in
        each_child (λ c s, mount c container anchor isSVG s)
                   (insert_text container anchor) newChildren st2
      else
        let oldUnkeyed := collect_unkeyed oldChildren in
        let '(children', (oldKeyed, unkeyedIndex, st1)) :=
          reconcile oldUnkeyed container anchor isSVG newChildren
                    (collect_keyed oldChildren) 0 st in
        let st2 := foldl (λ s kv, unmount kv.2 s) st1 oldKeyed in
        (children', foldl (λ s v, unmount v s) st2 (drop unkeyedIndex oldUnkeyed))
  end.
End PatchChildren.

(** The two prop loops of [patchElement]. *)
Definition patch_props (el : NodeId) (oldProps newProps : list (string * PropVal))
    (isSVG : bool) (st : RState) : RState :=
  let st1 :=
    foldl (λ s kv,
             if bool_decide (kv.1 = "key" ∨ kv.1 = "ref") then s
             else if decide (prop_get oldProps kv.1 = kv.2) then s
             else dom (SetProp el kv.1 kv.2 (prop_get oldProps kv.1) isSVG) s)
          st newProps in
  foldl (λ s kv, if prop_in newProps kv.1 then s
                 else dom (SetProp el kv.1 PNull kv.2 isSVG) s)
        st1 oldProps.

(** [hasChanged] of [patchComponent]: the synthesized [children] prop is a
    fresh array unless both child lists are empty. *)
Definition props_changed (oldProps newProps : list (string * PropVal))
    (oldChildren newChildren : list VChild) : bool :=
  let op := filter (λ kv, kv.1 ≠ "children") oldProps in
  let np := filter (λ kv, kv.1 ≠ "children") newProps in
  existsb (λ kv, negb (bool_decide (prop_get op kv.1 = kv.2))) np
  || negb (bool_decide (oldChildren = [] ∧ newChildren = []))
  || existsb (λ kv, negb (prop_in np kv.1)) op.

Fixpoint patch (oldVNode newVNode : VNode) (container : NodeId) (anchor : option NodeId)
    (isSVG : bool) (st : RState) {struct newVNode} : VNode * RState :=
  match newVNode with
  | mkVNode type props children key el component vanchor =>
      if negb (same_type (v_type oldVNode) type) then
        mount newVNode container anchor isSVG (unmount oldVNode st)
      else
        let el' := v_el oldVNode in
        match type with
        | TText =>
            let oldText := first_text (v_children oldVNode) in
            let newText := first_text children in
            (mkVNode type props children key el' component vanchor,
             if decide (oldText = newText) then st
             else match el' with
                  | Some n => dom (SetTextContent n newText) st
                  | None => st
                  end)
        | TFragment =>
            let anchor' := v_anchor oldVNode in
            let '(children', st1) :=
              patchChildren patch (v_children oldVNode) children anchor' container isSVG st in
            (mkVNode type props children' key el' component anchor', st1)
        | TComponent (mkComponent cid reads hm hu hup output) =>
            match v_component oldVNode with
            | None => (mkVNode type props children key el' None vanchor, st)
            | Some (mkInstance subTree isMounted update mounted unmounted updated
                               icontainer ianchor iSVG as instance) =>
                if negb (props_changed (v_props oldVNode) props
                                       (v_children oldVNode) children)
                then (mkVNode type props children key el' (Some instance) vanchor, st)
                else
                  match update with
                  | None => (mkVNode type props children key el' (Some instance) vanchor, st)
                  | Some e =>
                      (* [instance.update()]: the update effect runs again *)
                      let c1 := foldl (λ c d, track d.1 d.2 c)
                                      (enter_effect e (core st)) reads in
                      let st1 := record (REffectRun e) (with_core c1 st) in
                      let '(subTree', st2) :=
                        if isMounted then
                          match subTree, output with
                          | Some oldSub, Some newSub =>
                              let '(s', s) := patch oldSub newSub icontainer ianchor iSVG st1 in
                              (Some s', s)
                          | None, Some newSub =>
                              let '(s', s) := mount newSub icontainer ianchor iSVG st1 in
                              (Some s', s)
                          | Some oldSub, None => (None, unmount oldSub st1)
                          | None, None => (None, st1)
                          end
                        else
                          match output with
                          | Some newSub =>
                              let '(s', s) := mount newSub icontainer ianchor iSVG st1 in
                              (Some s', s)
                          | None => (subTree, st1)
                          end in
                      let st3 :=
                        if isMounted then queueMicrotask "onUpdated" (updated ++ hup) st2
                        else queueMicrotask "onMounted" (mounted ++ hm) st2 in
                      let st4 := with_core (popEffect (core st3)) st3 in
                      (mkVNode type props children key el'
                         (Some (mkInstance subTree' true update (mounted ++ hm)
                                           (unmounted ++ hu) (updated ++ hup)
                                           icontainer ianchor iSVG))
                         vanchor, st4)
                  end
            end
        | TTag tagName =>
            let isCurrentSVG := isSVG || bool_decide (tagName ∈ SVG_TAGS) in
            match el' with
            | None => (mkVNode type props children key el' component vanchor, st)
            | Some n =>
                let st1 := patch_props n (v_props oldVNode) props isCurrentSVG st in
                let '(children', st2) :=
                  patchChildren patch (v_children oldVNode) children vanchor n isCurrentSVG st1 in
                (mkVNode type props children' key el' component vanchor, st2)
            end
        end
  end.

(** [render(vnode, container)] *)
Definition render (vnode : option VNode) (container : NodeId) (st : RState) : RState :=
  let oldVNode := committed st !! container in
  match vnode, oldVNode with
  | None, Some old => with_committed (delete container (committed st)) (unmount old st)
  | None, None => with_committed (delete container (committed st)) st
  | Some v, Some old =>
      let '(v', st1) := patch old v container None false st in
      with_committed (<[container := v']> (committed st1)) st1
  | Some v, None =>
      let '(v', st1) := mount v container None false st in
      with_committed (<[container := v']> (committed st1)) st1
  end.

(** ** createApp *)

Inductive Selector :=
| BySelector (s : string)       (* a CSS selector string *)
| ByElement (n : NodeId).       (* a DOM element *)

(** The closure variables of [createApp]. *)
Record App := mkApp {
  rootComponent : ComponentFunction;
  app_isMounted : bool;
  rootVNode : option VNode;
  app_container : option NodeId
}.

Definition createApp (rootComponent : ComponentFunction) : App :=
  mkApp rootComponent false None None.

Inductive MountResult :=
| Mounted (app : App) (st : RState)               (* returns [app] *)
| Threw (message : string) (app : App) (st : RState).

Definition quote : string := String (Ascii.ascii_of_nat 34) EmptyString.

(** [typeof selector === 'string' ? document.querySelector(selector) : selector] *)
Definition resolve (selector : Selector) (st : RState) : option NodeId :=
  match selector with
  | BySelector s => document st !! s
  | ByElement n => Some n
  end.

(** [`Mount target "${selector}" not found`] *)
Definition not_found (selector : Selector) : string :=
  let shown := match selector with BySelector s => s | ByElement _ => "[object Element]" end in
  "Mount target " +:+ quote +:+ shown +:+ quote +:+ " not found".

(** The vnode [mount] hands to [render]. *)
Definition root_vnode (app : App) : VNode :=
  mkVNode (TComponent (rootComponent app)) [] [] None None None None.

Definition app_mount (selector : Selector) (app : App) (st : RState) : MountResult :=
  let container := resolve selector st in
  let app1 := mkApp (rootComponent app) (app_isMounted app) (rootVNode app) container in
  match container with
  | None => Threw (not_found selector) app1 st
  | Some c =>
      if negb (app_isMounted app1) then
        let st1 := render (Some (root_vnode app1)) c st in
        Mounted (mkApp (rootComponent app1) true (committed st1 !! c) container) st1
      else Mounted app1 st
  end.

Definition app_unmount (app : App) (st : RState) : App * RState :=
  match app_isMounted app, app_container app with
  | true, Some c =>
      (mkApp (rootComponent app) false None (app_container app), render None c st)
  | _, _ => (app, st)
  end.

(** ** Vocabulary of the renderer's properties *)

(** What [invokeLifecycleHooks] records, newest first. *)
Definition hook_events (context : string) (hooks : list Hook) : list REvent :=
  reverse (flat_map (λ h, RHook context (hook_id h)
                          :: (if hook_throws h then [RHookError context (hook_id h)] else []))
                    hooks).

(** The old child a new child is matched with by key. *)
Definition matched (pool : list (VKey * VNode)) (n : VNode) : option VNode :=
  v_key n ≫= (λ k, jmap_get k pool).

(** Each new child in turn is patched against the old child carrying its
    key (mounted afresh if there is none). *)
Fixpoint patch_by_key (pool : list (VKey * VNode)) (ns : list VNode) (container : NodeId)
    (anchor : option NodeId) (isSVG : bool) (st : RState) : list VNode * RState :=
  match ns with
  | [] => ([], st)
  | n :: ns' =>
      let '(n', st1) :=
        match matched pool n with
        | Some o => patch o n container anchor isSVG st
        | None => mount n container anchor isSVG st
        end in
      let '(r, st2) := patch_by_key pool ns' container anchor isSVG st1 in
      (n' :: r, st2)
  end.

(** Each new child in turn is patched against the old child at its position
    (mounted afresh past the end of the old list). *)
Fixpoint patch_by_position (os ns : list VNode) (container : NodeId)
    (anchor : option NodeId) (isSVG : bool) (st : RState) : list VNode * RState :=
  match ns with
  | [] => ([], st)
  | n :: ns' =>
      let '(n', st1) :=
        match os with
        | o :: _ => patch o n container anchor isSVG st
        | [] => mount n container anchor isSVG st
        end in
      let '(r, st2) := patch_by_position (tail os) ns' container anchor isSVG st1 in
      (n' :: r, st2)
  end.

(** The keys of a list of keyed vnodes. *)
Definition keys_of (vs : list VNode) : list (option VKey) := v_key <$> vs.

(** The effect [e] appears in no dependency set it does not know of. *)
Definition knows_its_edges (e : EffId) (c : State) : Prop :=
  ∀ t k, e ∈ subs c t k → (t, k) ∈ edeps c e.

(** A list [{key:'a'}, {key:'b'}, {key:'c'}] of [li] elements under a [ul],
    rendered into container 1, and its permutation. *)
Definition li (k text : string) : VNode :=
  mkVNode (TTag "li") [] [CStr text] (Some (KeyStr k)) None None None.
Definition item (tag k text : string) : VNode :=
  mkVNode (TTag tag) [] [CStr text] (Some (KeyStr k)) None None None.
Definition ul (items : list VNode) : VNode :=
  mkVNode (TTag "ul") [] (CNode <$> items) None None None None.

Definition page : RState := mkRState empty_state [] 100 ∅ [] {[ "#app" := 1 ]}.

Definition abc : RState :=
  render (Some (ul [li "a" "A"; li "b" "B"; li "c" "C"])) 1 page.

(** The children of the tree committed in container [c]. *)
Definition committed_children (c : NodeId) (st : RState) : list VChild :=
  match committed st !! c with Some v => v_children v | None => [] end.

(** The realized output of the committed child carrying key [k]. *)
Definition el_of_key (k : string) (c : NodeId) (st : RState) : option NodeId :=
  match jmap_get (KeyStr k) (collect_keyed (committed_children c st)) with
  | Some v => v_el v
  | None => None
  end.

(** A component with two unmount callbacks (the first one throws) that reads
    ref 5 and renders one [li]. *)
Definition widget : ComponentFunction :=
  mkComponent 7 [(5, KStr "value")] [mkHook 1 false] [mkHook 2 true; mkHook 3 false] []
              (Some (li "x" "X")).

(** [createApp(widget).mount('#app')] on [page], and the vnode it commits. *)
Definition mounted_widget : RState :=
  render (Some (root_vnode (createApp widget))) 1 page.

Definition widget_subtree : VNode :=
  mkVNode (TTag "li") [] [CStr "X"] (Some (KeyStr "x")) (Some 100) None None.

Definition widget_vnode : VNode :=
  mkVNode (TComponent widget) [] [] None None
    (Some (mkInstance (Some widget_subtree) true (Some 0)
             [mkHook 1 false] [mkHook 2 true; mkHook 3 false] [] 1 None false))
    None.

(** What unmounting does to the trace and to the reactive state: events are
    only added, and effects keep knowing their edges. *)
Definition unmount_step (st st' : RState) : Prop :=
  (∃ evs, trace st' = evs ++ trace st)
  ∧ (∀ e, knows_its_edges e (core st) → knows_its_edges e (core st')).

(** The vnodes among a list of children. *)
Definition vnodes (cs : list VChild) : list VNode :=
  omap (λ c, match c with CNode v => Some v | _ => None end) cs.

(** An unkeyed paragraph, and a list of two of them rendered into
    container 1. *)
Definition para (text : string) : VNode :=
  mkVNode (TTag "p") [] [CStr text] None None None None.
Definition xy : RState := render (Some (ul [para "x"; para "y"])) 1 page.

(** The list [abc] rendered again with the same keys, the child keyed
    ['c'] now being a [p] element. *)
Definition retagged : RState :=
  render (Some (ul [item "p" "c" "C"; li "a" "A"; li "b" "B"])) 1 abc.
(** ** vnode.ts *)

(** What is passed as children: one child, or an array whose items are
    children or arrays again. *)
#[warnings="-register-all"]
Inductive Children :=
| One (child : VChild)
| Many (items : list Children).

(** [[children].flat(Infinity)], resp. [children.flat(Infinity)]. *)
Fixpoint flat (children : Children) : list VChild :=
  match children with
  | One c => [c]
  | Many items =>
      (fix go (l : list Children) : list VChild :=
         match l with
         | [] => []
         | x :: l' => flat x ++ go l'
         end) items
  end.

(** [child != null && child !== false && child !== true && child !== ''] *)
Definition is_valid_child (c : VChild) : bool :=
  match c with
  | CNull | CUndef | CBool _ => false
  | CStr s => negb (String.eqb s EmptyString)
  | CNode _ | CNum _ => true
  end.

Definition normalizeChildren (children : Children) : list VChild :=
  match children with
  | One CNull | One CUndef => []
  | _ => List.filter is_valid_child (flat children)
  end.

(** [props?.key ?? null], for keys of the declared type [string | number | null]. *)
Definition key_of_prop (p : PropVal) : option VKey :=
  match p with
  | PStr s => Some (KeyStr s)
  | PNum z => Some (KeyNum z)
  | _ => None
  end.

(** [createVNode(type, props, children)]; [props] may be [null]. *)
Definition createVNode (type : VType) (props : option (list (string * PropVal)))
    (children : Children) : VNode :=
  mkVNode type (default [] props) (normalizeChildren children)
          (key_of_prop (prop_get (default [] props) "key")) None None None.

(** [createTextVNode(text)], [text] a string or a number. *)
Definition createTextVNode (text : VChild) : VNode :=
  mkVNode TText [] [CStr (child_text text)] None None None None.

(** [createElement(type, props, ...children)], also exported as [h]. *)
Definition createElement (type : VType) (props : option (list (string * PropVal)))
    (children : list Children) : VNode :=
  let flatChildren := match children with [c] => c | _ => Many children end in
  createVNode type (Some (default [] props)) flatChildren.

(** ** Vocabulary of the renderer's properties, continued *)

(** The callbacks called in a stretch of the trace, oldest first. *)
Definition hook_calls (evs : list REvent) : list nat :=
  omap (λ ev, match ev with RHook _ h => Some h | _ => None end) (reverse evs).

(** The operations on the output surface in a stretch of the trace. *)
Definition dom_ops (evs : list REvent) : list DomOp :=
  omap (λ ev, match ev with RDom op => Some op | _ => None end) evs.

(** The key of a child, if it is a keyed vnode. *)
Definition child_key (c : VChild) : option VKey :=
  match c with CNode v => v_key v | _ => None end.

(** [f] applied to the vnodes among a list of children. *)
Definition map_vnodes (f : VNode → VNode) : list VChild → list VChild :=
  fix go (cs : list VChild) : list VChild :=
    match cs with
    | [] => []
    | CNode c :: cs' => CNode (f c) :: go cs'
    | c :: cs' => c :: go cs'
    end.

(** The description of a tree as a component hands it out: no node, anchor
    or instance attached yet. *)
Fixpoint blueprint (v : VNode) : VNode :=
  match v with
  | mkVNode type props children key _ _ _ =>
      mkVNode type props (map_vnodes blueprint children) key None None None
  end.

(** Trees whose child lists are a single text, or vnodes (and holes) only
    with distinct keys, whose props have distinct names, and whose
    component vnodes carry no children. *)
Fixpoint tidy (v : VNode) : bool :=
  match v with
  | mkVNode type props children key el component anchor =>
      bool_decide (NoDup props.*1)
      && match type with
         | TText => true
         | TComponent _ => match children with [] => true | _ => false end
         | TTag _ | TFragment =>
             match single_text children with
             | Some _ => true
             | None =>
                 bool_decide (NoDup (omap child_key children))
                 && (fix all (cs : list VChild) : bool :=
                       match cs with
                       | [] => true
                       | CNode c :: cs' => tidy c && all cs'
                       | CNull :: cs' | CUndef :: cs' => all cs'
                       | _ => false
                       end) children
             end
         end
  end.

(** Every element and text vnode of the tree has its node, every fragment
    its anchor, every component vnode a mounted instance with its effect. *)
Fixpoint realized (v : VNode) : bool :=
  match v with
  | mkVNode type props children key el component anchor =>
      let all :=
        (fix all (cs : list VChild) : bool :=
           match cs with
           | [] => true
           | CNode c :: cs' => realized c && all cs'
           | _ :: cs' => all cs'
           end) in
      match type with
      | TTag _ => bool_decide (is_Some el) && all children
      | TText => bool_decide (is_Some el)
      | TFragment => bool_decide (is_Some anchor) && all children
      | TComponent _ =>
          match component with
          | Some (mkInstance subTree isMounted update _ _ _ _ _ _) =>
              isMounted && bool_decide (is_Some update)
              && match subTree with Some sub => realized sub | None => true end
          | None => false
          end
      end
  end.

(** What unmounting may add to the trace. *)
Definition teardown_event (ev : REvent) : Prop :=
  match ev with
  | RHook context _ | RHookError context _ => context = "onUnmounted"
  | RDom (RemoveFromParent _) => True
  | RCleanup _ => True
  | _ => False
  end.
(** The footprint of unmounting: the trace grows by teardown events; no node
    is created, nothing is committed or deferred. *)
Definition teardown_step (st st' : RState) : Prop :=
  (∃ evs, trace st' = evs ++ trace st ∧ Forall teardown_event evs)
  ∧ nextNode st' = nextNode st ∧ committed st' = committed st
  ∧ deferred st' = deferred st ∧ document st' = document st.

(** The keyed vnodes of a child list with their keys, and the unkeyed ones,
    in order. *)
Definition keyed_pairs (cs : list VChild) : list (VKey * VNode) :=
  omap (λ c, match c with
             | CNode v => (λ k, (k, v)) <$> v_key v
             | _ => None
             end) cs.

Definition unkeyed_list (cs : list VChild) : list VNode :=
  omap (λ c, match c with
             | CNode v => match v_key v with None => Some v | Some _ => None end
             | _ => None
             end) cs.
(** The tree that [abc] has committed in container 1. *)
Definition abc_tree : VNode :=
  mkVNode (TTag "ul") []
    [CNode (mkVNode (TTag "li") [] [CStr "A"] (Some (KeyStr "a")) (Some 101) None None);
     CNode (mkVNode (TTag "li") [] [CStr "B"] (Some (KeyStr "b")) (Some 103) None None);
     CNode (mkVNode (TTag "li") [] [CStr "C"] (Some (KeyStr "c")) (Some 105) None None)]
    None (Some 100) None None.
(** ** renderer.ts: attribute names *)

Definition is_lower (c : Ascii.ascii) : bool :=
  (97 <=? Ascii.nat_of_ascii c) && (Ascii.nat_of_ascii c <=? 122).
Definition is_upper (c : Ascii.ascii) : bool :=
  (65 <=? Ascii.nat_of_ascii c) && (Ascii.nat_of_ascii c <=? 90).

(** [String.prototype.toLowerCase] on one character of an ASCII string. *)
Definition to_lower (c : Ascii.ascii) : Ascii.ascii :=
  if is_upper c then Ascii.ascii_of_nat (Ascii.nat_of_ascii c + 32) else c.

Definition hyphen : Ascii.ascii := Ascii.ascii_of_nat 45.

(** [str.replace(/([a-z])([A-Z])/g, '$1-$2')]: the scan resumes after each
    match. *)
Fixpoint hyphenate (s : string) : string :=
  match s with
  | String c1 (String c2 rest as tail) =>
      if is_lower c1 && is_upper c2
      then String c1 (String hyphen (String c2 (hyphenate rest)))
      else String c1 (hyphenate tail)
  | _ => s
  end.

Fixpoint lower_all (s : string) : string :=
  match s with
  | EmptyString => EmptyString
  | String c rest => String (to_lower c) (lower_all rest)
  end.

(** [camelToKebab(str)], for strings of ASCII characters. *)
Definition camelToKebab (str : string) : string :=
  lower_all (hyphenate str).

(** The characters of a string satisfy [p]. *)
Fixpoint all_chars (p : Ascii.ascii → bool) (s : string) : bool :=
  match s with
  | EmptyString => true
  | String c rest => p c && all_chars p rest
  end.

(** The string holds ASCII characters only. *)
Definition ascii_only (s : string) : bool :=
  all_chars (λ c, Ascii.nat_of_ascii c <? 128) s.

(** A tree with a text and an element side by side, rendered into container 1. *)
Definition mixed_tree : VNode :=
  mkVNode (TTag "div") []
    [CStr "hi"; CNode (mkVNode (TTag "b") [] [] None None None None)]
    None None None None.
Definition mixed : RState := render (Some mixed_tree) 1 page.
(** The vnodes among a list of children are realized. *)
Definition all_realized (cs : list VChild) : bool :=
  forallb (λ ch, match ch with CNode c => realized c | _ => true end) cs.

(** Every committed tree is realized. *)
Definition committed_realized (st : RState) : Prop :=
  ∀ c v, committed st !! c = Some v → realized v = true.
End Renderer.

(** ** Vocabulary of the properties *)

(** The (target, key) pairs [e] read since its dependencies were last purged:
    the log is scanned from the newest event back to the latest [cleanup(e)]. *)
Fixpoint recent_reads (e : EffId) (l : list Event) : list (Target * Key) :=
  match l with
  | [] => []
  | EvRead e' t k :: l' =>
      if decide (e' = e) then (t, k) :: recent_reads e l' else recent_reads e l'
  | EvCleanup e' :: l' => if decide (e' = e) then [] else recent_reads e l'
  | _ :: l' => recent_reads e l'
  end.

Definition is_run (e : EffId) (ev : Event) : bool :=
  match ev with EvRun e' _ => bool_decide (e' = e) | _ => false end.

Definition is_handoff (e : EffId) (ev : Event) : bool :=
  match ev with
  | EvRun e' _ | EvSched e' => bool_decide (e' = e)
  | _ => false
  end.

(** How many times [e()] was entered in a stretch of the log. *)
Definition runs (e : EffId) (l : list Event) : nat :=
  length (List.filter (is_run e) l).

(** How many times [e] was run or handed to its scheduler. *)
Definition handoffs (e : EffId) (l : list Event) : nat :=
  length (List.filter (is_handoff e) l).

(** The effect functions entered with an empty effect stack, oldest first. *)
Definition top_level_runs (l : list Event) : list EffId :=
  omap (λ ev, match ev with EvRun e [] => Some e | _ => None end) (reverse l).

(** An effect function was entered while it was already on the stack. *)
Definition reentered (l : list Event) : Prop :=
  ∃ e stack, EvRun e stack ∈ l ∧ e ∈ stack.

(** Closures that only observe: they read, output and queue jobs, but neither
    write to the heap nor call into effects. *)
Inductive Quiet : Prog → Prop :=
| Quiet_Ret v : Quiet (Ret v)
| Quiet_Track t k c : Quiet c → Quiet (Track t k c)
| Quiet_GetActiveEffect c : (∀ a, Quiet (c a)) → Quiet (GetActiveEffect c)
| Quiet_QueueJob j c : Quiet c → Quiet (QueueJob j c)
| Quiet_Get t k c : (∀ v, Quiet (c v)) → Quiet (Get t k c)
| Quiet_Has t k c : (∀ b, Quiet (c b)) → Quiet (Has t k c)
| Quiet_OwnKeys t c : (∀ ks, Quiet (c ks)) → Quiet (OwnKeys t c)
| Quiet_NewSymbol c : (∀ s, Quiet (c s)) → Quiet (NewSymbol c)
| Quiet_New c : (∀ o, Quiet (c o)) → Quiet (New c)
| Quiet_Out v c : Quiet c → Quiet (Out v c).

(** Closures that read and write reactive state themselves but do not call
    effect functions, create effects or tear them down. *)
Inductive Writer : Prog → Prop :=
| Writer_Ret v : Writer (Ret v)
| Writer_Track t k c : Writer c → Writer (Track t k c)
| Writer_Trigger t k c : Writer c → Writer (Trigger t k c)
| Writer_GetActiveEffect c : (∀ a, Writer (c a)) → Writer (GetActiveEffect c)
| Writer_QueueJob j c : Writer c → Writer (QueueJob j c)
| Writer_Get t k c : (∀ v, Writer (c v)) → Writer (Get t k c)
| Writer_Put t k v c : Writer c → Writer (Put t k v c)
| Writer_Has t k c : (∀ b, Writer (c b)) → Writer (Has t k c)
| Writer_Delete t k c : (∀ b, Writer (c b)) → Writer (Delete t k c)
| Writer_OwnKeys t c : (∀ ks, Writer (c ks)) → Writer (OwnKeys t c)
| Writer_NewSymbol c : (∀ s, Writer (c s)) → Writer (NewSymbol c)
| Writer_New c : (∀ o, Writer (c o)) → Writer (New c)
| Writer_Out v c : Writer c → Writer (Out v c).

(** Quiet closures that pass only jobs satisfying [A] to [queueJob]. *)
Inductive Queues (A : EffId → Prop) : Prog → Prop :=
| Queues_Ret v : Queues A (Ret v)
| Queues_Track t k c : Queues A c → Queues A (Track t k c)
| Queues_GetActiveEffect c : (∀ a, Queues A (c a)) → Queues A (GetActiveEffect c)
| Queues_QueueJob j c : A j → Queues A c → Queues A (QueueJob j c)
| Queues_Get t k c : (∀ v, Queues A (c v)) → Queues A (Get t k c)
| Queues_Has t k c : (∀ b, Queues A (c b)) → Queues A (Has t k c)
| Queues_OwnKeys t c : (∀ ks, Queues A (c ks)) → Queues A (OwnKeys t c)
| Queues_NewSymbol c : (∀ s, Queues A (c s)) → Queues A (NewSymbol c)
| Queues_New c : (∀ o, Queues A (c o)) → Queues A (New c)
| Queues_Out v c : Queues A c → Queues A (Out v c).

(** An effect whose hand-off from [trigger] runs a quiet closure: its
    scheduler if it declares one, its function otherwise. *)
Definition simple (e : EffId) (r : EffectRec) : Prop :=
  match scheduler r with
  | Some s => Quiet (s e)
  | None => Quiet (fn r)
  end.

(** Consistency of the dependency graph with what the effects read. *)
Record Inv (st : State) : Prop := mkInv {
  inv_graph : ∀ e t k, e ∈ subs st t k ↔ (t, k) ∈ edeps st e;
  inv_reads : ∀ e d, d ∈ edeps st e ↔ d ∈ recent_reads e (log st);
  inv_active : activeEffect st = head (effectStack st);
  inv_subs : ∀ e t k, e ∈ subs st t k → is_Some (effectFns st !! e);
  inv_stack : ∀ e, e ∈ effectStack st → is_Some (effectFns st !! e);
  inv_fns : ∀ e, is_Some (effectFns st !! e) → e < nextId st
}.

(** [rec] only takes steps related by [R]. *)
Definition respects (R : State → State → Prop)
    (rec : Prog → State → option (Val * State)) : Prop :=
  ∀ p st v st', rec p st = Some (v, st') → R st st'.

(** What a quiet closure can leave in the log. *)
Definition quiet_event (a : option EffId) (ev : Event) : Prop :=
  match ev with
  | EvRead e _ _ => a = Some e
  | EvOut _ | EvQueue _ => True
  | _ => False
  end.

(** The footprint of running a quiet closure while [a] is the active effect:
    the only change to the graph is that [a] subscribes to what it reads. *)
Record quiet_step (st st' : State) : Prop := mkQuietStep {
  qs_fns : effectFns st' = effectFns st;
  qs_heap : heap st' = heap st;
  qs_stack : effectStack st' = effectStack st;
  qs_active : activeEffect st' = activeEffect st;
  qs_log : ∃ evs, log st' = evs ++ log st ∧ Forall (quiet_event (activeEffect st)) evs
                  ∧ ∀ e t k, e ∈ subs st' t k ↔
                             e ∈ subs st t k ∨ EvRead e t k ∈ evs
}.

(** The footprint of handing effects to quiet closures. *)
Record tame (st st' : State) : Prop := mkTame {
  tame_fns : effectFns st' = effectFns st;
  tame_heap : heap st' = heap st;
  tame_stack : effectStack st' = effectStack st;
  tame_active : activeEffect st = head (effectStack st) → activeEffect st' = activeEffect st
}.



(** How many times the getter of [x] has been invoked so far. *)
Definition getter_runs (x : ComputedRef) (st : State) : nat :=
  runs (c_effect x) (log st).

(** ** Scenes used to exercise the engine *)

(** Whether a closure returns within the call budget. *)
Definition returns (fuel : nat) (p : Prog) (st : State) : bool :=
  match run fuel p st with
  | Some _ => true
  | None => false
  end.

(** The state a closure leaves behind ([st] itself if it does not return). *)
Definition final (fuel : nat) (p : Prog) (st : State) : State :=
  match run fuel p st with
  | Some (_, st') => st'
  | None => st
  end.

(** [const c = ref(0); effect(() => console.log(c.value))]: the ref is object 0,
    the effect is function 1. *)
Definition reader (c : Target) : Prog :=
  ref_get c (λ v, Out v (Ret VUndef)).

Definition counter_scene : Prog :=
  ref (VNum 0) (λ c, Effect (reader c) false None (λ _, Ret VUndef)).

Definition st_counter : State := final 2 counter_scene empty_state.

(** [effect(() => { if (c.value === lo) c.value = hi })] *)
Definition bump (lo hi : Z) (c : Target) : Prog :=
  ref_get c (λ v, if decide (v = VNum lo) then ref_set c (VNum hi) (Ret VUndef)
                  else Ret VUndef).

(** Two effects on one ref, each reading it and writing it; then [c.value = 1]
    from outside.  The ref is object 0, the effects are functions 1 and 2. *)
Definition pingpong : Prog :=
  ref (VNum 0) (λ c,
    Effect (bump 1 2 c) false None (λ _,
      Effect (bump 2 3 c) false None (λ _,
        ref_set c (VNum 1) (Ret VUndef)))).

(** [const c = ref(0); effect(() => { if (c.value === 0) c.value = 1 }, { lazy: true })]:
    created but not yet run.  The ref is object 0, the effect is function 1. *)
Definition bump_scene : Prog :=
  ref (VNum 0) (λ c, Effect (bump 0 1 c) true None (λ _, Ret VUndef)).

Definition st_bump : State := final 1 bump_scene empty_state.

(** [const a = ref(1); const x = computed(() => a.value)]: the ref is object 0,
    the computed is object 1 and its effect is function 2. *)
Definition computed_scene : Prog :=
  ref (VNum 1) (λ a, computed (ref_get a Ret) (λ _, Ret VUndef)).

Definition st_computed : State := final 1 computed_scene empty_state.

(** [const o = reactive({ a: 1 });
     effect(() => console.log(Object.keys(o).length));
     o.b = 2; delete o.a]: the object is 0, the effect is function 1. *)
Definition keys_scene : Prog :=
  New (λ o,
    Put o (KStr "a") (VNum 1)
      (Effect (proxy_ownKeys o (λ ks, Out (VNum (Z.of_nat (length ks))) (Ret VUndef)))
              false None
         (λ _, proxy_set o (KStr "b") (VNum 2)
                 (λ _, proxy_deleteProperty o (KStr "a") (λ _, Ret VUndef))))).

(** The same with [effect(() => console.log('a' in o))] and [delete o.a] alone. *)
Definition has_scene : Prog :=
  New (λ o,
    Put o (KStr "a") (VNum 1)
      (Effect (proxy_has o (KStr "a") (λ b, Out (VBool b) (Ret VUndef))) false None
         (λ _, proxy_deleteProperty o (KStr "a") (λ _, Ret VUndef)))).

(** Two effects routed through [queueJob]: [A] copies ref [x] into ref [y], [B]
    logs [y]; then [x.value = 1].  The refs are objects 0 and 1, [A] and [B]
    are functions 2 and 3. *)
Definition by_queue : option (EffId → Prog) :=
  Some (λ e, QueueJob e (Ret VUndef)).

Definition queue_scene : Prog :=
  ref (VNum 0) (λ x,
    ref (VNum 0) (λ y,
      Effect (ref_get x (λ v, ref_set y v (Ret VUndef))) false by_queue (λ _,
        Effect (ref_get y (λ v, Out v (Ret VUndef))) false by_queue (λ _,
          ref_set x (VNum 1) (Ret VUndef))))).

Definition st_queue : State := final 3 queue_scene empty_state.

(** [st_queue] at the moment its scheduled flush starts. *)
Definition st_flush : State := with_microtasks 0 st_queue.

(** The state after one turn of the microtask queue ([st] if it does not return). *)
Definition after_microtask (fuel : nat) (st : State) : State :=
  default st (microtask fuel st).

(** What one turn of the microtask queue added to the log. *)
Definition pass_events (fuel : nat) (st : State) : list Event :=
  take (length (log (after_microtask fuel st)) - length (log st))
       (log (after_microtask fuel st)).

(** What a run can do to the stack, the log and the pending set. *)
Record queue_step (st st' : State) : Prop := mkQueueStep {
  qu_stack : effectStack st' = effectStack st;
  qu_log : ∃ evs, log st' = evs ++ log st
                  ∧ (∀ e stk, EvRun e stk ∈ evs → effectStack st `suffix_of` stk)
                  ∧ (∀ j, EvQueue j ∈ evs → j ∈ pendingJobs st');
  qu_prefix : pendingJobs st `prefix_of` pendingJobs st';
  qu_NoDup : NoDup (pendingJobs st) → NoDup (pendingJobs st')
}.

(** ** effect.ts: watchEffect and watch *)

(** [p] followed by [f] applied to what [p] returns. *)
Fixpoint bind (p : Prog) (f : Val → Prog) : Prog :=
  match p with
  | Ret v => f v
  | Track t k c => Track t k (bind c f)
  | Trigger t k c => Trigger t k (bind c f)
  | GetActiveEffect c => GetActiveEffect (λ a, bind (c a) f)
  | Call e c => Call e (λ v, bind (c v) f)
  | Cleanup e c => Cleanup e (bind c f)
  | Effect fn lz s c => Effect fn lz s (λ e, bind (c e) f)
  | QueueJob j c => QueueJob j (bind c f)
  | Get t k c => Get t k (λ v, bind (c v) f)
  | Put t k v c => Put t k v (bind c f)
  | Has t k c => Has t k (λ b, bind (c b) f)
  | Delete t k c => Delete t k (λ b, bind (c b) f)
  | OwnKeys t c => OwnKeys t (λ ks, bind (c ks) f)
  | NewSymbol c => NewSymbol (λ s, bind (c s) f)
  | New c => New (λ o, bind (c o) f)
  | Out v c => Out v (bind c f)
  end.

(** [watchEffect(fn)]: the effect is created and run; the function handed
    back, [() => cleanup(effectFn)], is [stop] of that effect. *)
Definition watchEffect (fn : Prog) (c : EffId → Prog) : Prog :=
  Effect fn false None c.

Definition stop (e : EffId) (c : Prog) : Prog :=
  Cleanup e c.

Definition kOldValue : Key := KStr "oldValue".

(** The closure [job] of [watch]; the captured variable [oldValue] is the
    property [oldValue] of the object [cell]. *)
Definition watch_job (cell : Target) (callback : Val → Val → Prog)
    (runEffect : EffId) : Prog :=
  Call runEffect (λ newValue,
    Get cell kOldValue (λ oldValue,
      bind (callback newValue oldValue) (λ _,
        Put cell kOldValue newValue (Ret VUndef)))).

(** [watch(getter, callback, { immediate })]; the continuation receives the
    effect that the returned stop function cleans up. *)
Definition watch (getter : Prog) (callback : Val → Val → Prog) (immediate : bool)
    (c : EffId → Prog) : Prog :=
  New (λ cell,
    Effect getter true (Some (watch_job cell callback)) (λ runEffect,
      if immediate then bind (watch_job cell callback runEffect) (λ _, c runEffect)
      else Call runEffect (λ v, Put cell kOldValue v (c runEffect)))).

(** [watch(r, callback)] on a ref: the getter is [() => r.value]. *)
Definition watch_ref (r : Target) (callback : Val → Val → Prog) (immediate : bool)
    (c : EffId → Prog) : Prog :=
  watch (ref_get r Ret) callback immediate c.

(** The primitive a [get] trap handed back ([undefined] in place of an object). *)
Definition prim_of (r : TrapResult) : Val :=
  match r with Prim v => v | Object _ => VUndef end.

(** A callback that logs its two arguments. *)
Definition log_both (newValue oldValue : Val) : Prog :=
  Out newValue (Out oldValue (Ret VUndef)).

(** What closures have output so far, oldest first. *)
Definition outputs (st : State) : list Val :=
  omap (λ ev, match ev with EvOut v => Some v | _ => None end) (reverse (log st)).

(** [const r = ref(0); const stop = watch(r, (n, o) => console.log(n, o));
     r.value = 1; r.value = 2; stop(); r.value = 3] *)
Definition watch_scene : Prog :=
  ref (VNum 0) (λ r,
    watch_ref r log_both false (λ e,
      ref_set r (VNum 1)
        (ref_set r (VNum 2)
           (stop e (ref_set r (VNum 3) (Ret VUndef)))))).

(** [const r = ref(1); watch(() => !!r.value, (n, o) => console.log(n, o));
     r.value = 2]: the watched value is [true] before and after. *)
Definition watch_flag_scene : Prog :=
  ref (VNum 1) (λ r,
    watch (ref_get r (λ v, Ret (VBool (truthy v)))) log_both false (λ _,
      ref_set r (VNum 2) (Ret VUndef))).

(** [const r = ref(0); watch(r, (n, o) => console.log(n, o))]: the ref is
    object 0, [oldValue] lives in object 1 and the effect is function 2. *)
Definition st_watch : State :=
  final 3 (ref (VNum 0) (λ r, watch_ref r log_both false (λ _, Ret VUndef))) empty_state.

(** ** ref.js: isRef and unref *)

(** A value as [isRef] and [unref] receive it: a primitive, or an object. *)
Inductive JsValue :=
| Primitive (v : Val)
| Reference (o : Target).

(** [isRef(value)]: [!!(value && value[RefFlag] === true)] *)
Definition isRef (value : JsValue) (c : bool → Prog) : Prog :=
  match value with
  | Primitive _ => c false
  | Reference o => Get o RefFlag (λ flag, c (bool_decide (flag = VBool true)))
  end.

(** [unref(x)]: [isRef(x) ? x.value : x]; [value_of] is the [value] getter
    of the object. *)
Definition unref (value_of : Target → (Val → Prog) → Prog) (x : JsValue)
    (c : JsValue → Prog) : Prog :=
  isRef x (λ b,
    if b then
      match x with
      | Reference r => value_of r (λ v, c (Primitive v))
      | Primitive _ => c x
      end
    else c x).

(** * Properties *)

(** ** Facts about JavaScript sets *)

Section JSetFacts.
Context {A : Type} `{EqDecision A}.
Implicit Types (x y : A) (s : list A).

Lemma elem_of_add x y s : y ∈ JSet.add x s ↔ y = x ∨ y ∈ s.
Proof.
  unfold JSet.add. case_decide.
  - split; [auto | intros [->|]; auto].
  - rewrite elem_of_app, list_elem_of_singleton. tauto.
Qed.

Lemma elem_of_delete x y s : y ∈ JSet.delete x s ↔ y ≠ x ∧ y ∈ s.
Proof. unfold JSet.delete. rewrite list_elem_of_filter. tauto. Qed.

Lemma NoDup_add x s : NoDup s → NoDup (JSet.add x s).
Proof.
  intros Hs. unfold JSet.add. case_decide; [done|].
  apply NoDup_app. split; [done|]. split.
  - intros y Hy ->%list_elem_of_singleton. done.
  - apply NoDup_singleton.
Qed.

Lemma delete_delete x s : JSet.delete x (JSet.delete x s) = JSet.delete x s.
Proof.
  unfold JSet.delete. induction s as [|y s IH]; [done|].
  rewrite filter_cons. case_decide; [|done].
  rewrite filter_cons. rewrite decide_True by done. by rewrite IH.
Qed.
End JSetFacts.

(** ** Reading the dependency graph after [track] and [cleanup] *)

Lemma dep_set_insert (m : gmap Target (gmap Key (list EffId))) t k l t' k' :
  dep_set (<[t := <[k := l]> (default ∅ (m !! t))]> m) t' k' =
    if decide (t' = t ∧ k' = k) then l else dep_set m t' k'.
Proof.
  unfold dep_set. destruct (decide (t' = t)) as [->|Ht].
  - rewrite lookup_insert_eq. simpl. destruct (decide (k' = k)) as [->|Hk].
    + rewrite lookup_insert_eq. by rewrite decide_True.
    + rewrite lookup_insert_ne by done. rewrite decide_False by tauto.
      by destruct (m !! t).
  - rewrite lookup_insert_ne by done. by rewrite decide_False by tauto.
Qed.

Lemma dep_set_alter (f : list EffId → list EffId)
    (m : gmap Target (gmap Key (list EffId))) t k t' k' :
  f [] = [] →
  dep_set (alter (alter f k) t m) t' k' =
    if decide (t' = t ∧ k' = k) then f (dep_set m t k) else dep_set m t' k'.
Proof.
  intros Hf. unfold dep_set. destruct (decide (t' = t)) as [->|Ht].
  - rewrite lookup_alter_eq. destruct (m !! t) as [dm|] eqn:Hm; simpl.
    + destruct (decide (k' = k)) as [->|Hk].
      * rewrite lookup_alter_eq. rewrite decide_True by done.
        by destruct (dm !! k).
      * rewrite lookup_alter_ne by done. by rewrite decide_False by tauto.
    + case_decide as H; [|done]. by destruct H as [_ ->].
  - rewrite lookup_alter_ne by done. by rewrite decide_False by tauto.
Qed.

Lemma subs_track t k st t' k' :
  subs (track t k st) t' k' =
    if decide (t' = t ∧ k' = k) then
      match activeEffect st with
      | Some a => JSet.add a (subs st t k)
      | None => subs st t k
      end
    else subs st t' k'.
Proof.
  unfold track. destruct (activeEffect st) as [a|] eqn:Ha.
  2:{ case_decide as H; [by destruct H as [-> ->]|done]. }
  assert (Hsub : default [] (default ∅ (targetMap st !! t) !! k) = subs st t k).
  { unfold subs, dep_set. by destruct (targetMap st !! t). }
  rewrite Hsub. unfold JSet.add.
  destruct (decide (a ∈ subs st t k)); unfold subs; simpl; by rewrite dep_set_insert.
Qed.

Lemma edeps_track t k st e :
  edeps (track t k st) e =
    match activeEffect st with
    | Some a =>
        if decide (e = a ∧ a ∉ subs st t k) then JSet.add (t, k) (edeps st a)
        else edeps st e
    | None => edeps st e
    end.
Proof.
  unfold track. destruct (activeEffect st) as [a|] eqn:Ha; [|done].
  assert (Hsub : default [] (default ∅ (targetMap st !! t) !! k) = subs st t k).
  { unfold subs, dep_set. by destruct (targetMap st !! t). }
  rewrite Hsub.
  destruct (decide (a ∈ subs st t k)) as [Hin|Hin].
  - rewrite decide_False by tauto. done.
  - unfold edeps at 1. simpl. destruct (decide (e = a)) as [->|Hne].
    + rewrite lookup_insert_eq. by rewrite decide_True.
    + rewrite lookup_insert_ne by done. by rewrite decide_False by tauto.
Qed.

Lemma dep_set_unsubscribe_all e ds (m : gmap Target (gmap Key (list EffId))) t k :
  dep_set (foldl (unsubscribe e) m ds) t k =
    if decide ((t, k) ∈ ds) then JSet.delete e (dep_set m t k) else dep_set m t k.
Proof.
  revert m. induction ds as [|[t0 k0] ds IH]; intros m; cbn [foldl].
  { case_decide as H; [by apply not_elem_of_nil in H|done]. }
  rewrite IH. unfold unsubscribe. simpl.
  rewrite dep_set_alter by done.
  destruct (decide (t = t0 ∧ k = k0)) as [[-> ->]|Hne].
  - rewrite (decide_True (P := (t0, k0) ∈ (t0, k0) :: ds)) by left.
    case_decide; [by rewrite delete_delete|done].
  - destruct (decide ((t, k) ∈ ds)) as [Hin|Hin].
    + by rewrite decide_True by (by right).
    + rewrite decide_False; [done|].
      rewrite not_elem_of_cons. split; [|done]. intros [= -> ->]. tauto.
Qed.

Lemma subs_cleanup e st t k :
  subs (cleanup e st) t k =
    if decide ((t, k) ∈ edeps st e) then JSet.delete e (subs st t k) else subs st t k.
Proof. unfold cleanup, subs. simpl. apply dep_set_unsubscribe_all. Qed.

Lemma edeps_cleanup e st e' :
  edeps (cleanup e st) e' = if decide (e' = e) then [] else edeps st e'.
Proof.
  unfold cleanup, edeps. simpl. case_decide as H.
  - subst. by rewrite lookup_insert_eq.
  - by rewrite lookup_insert_ne.
Qed.

(** ** A proof rule for everything [run] can do *)

Section RunRule.
Variable R : State → State → Prop.
Hypothesis R_refl : ∀ st, R st st.
Hypothesis R_trans : ∀ st1 st2 st3, R st1 st2 → R st2 st3 → R st1 st3.
Hypothesis R_track : ∀ t k st, R st (track t k st).
Hypothesis R_cleanup : ∀ e st, R st (cleanup e st).
Hypothesis R_out : ∀ v st, R st (emit (EvOut v) st).
Hypothesis R_sched : ∀ e st, R st (emit (EvSched e) st).
Hypothesis R_queue : ∀ j st, R st (queueJob j st).
Hypothesis R_put : ∀ t k v st, R st (heap_put t k v st).
Hypothesis R_delete : ∀ t k st, R st (heap_delete t k st).
Hypothesis R_fresh : ∀ st, R st (with_nextId (S (nextId st)) st).
Hypothesis R_alloc : ∀ f lz s st, R st (alloc_effect f lz s st).2.
Hypothesis R_call : ∀ e r st st2,
  effectFns st !! e = Some r → R (enter_effect e st) st2 → R st (popEffect st2).

Lemma call_effect_rule rec e st v st' :
  respects R rec → call_effect rec e st = Some (v, st') → R st st'.
Proof.
  intros Hrec. unfold call_effect.
  destruct (effectFns st !! e) as [r|] eqn:Hr; [|done].
  destruct (rec (fn r) (enter_effect e st)) as [[v2 st2]|] eqn:Hrun; [|done].
  intros [= <- <-]. eapply R_call; [done|]. by eapply Hrec.
Qed.

Lemma run_one_rule rec e st st' :
  respects R rec → run_one rec e st = Some st' → R st st'.
Proof.
  intros Hrec. unfold run_one.
  destruct (effectFns st !! e) as [r|] eqn:Hr; [|done].
  destruct (scheduler r) as [s|].
  - destruct (rec (s e) (emit (EvSched e) st)) as [[v2 st2]|] eqn:Hrun; [|done].
    intros [= <-]. eapply R_trans; [apply R_sched|]. by eapply Hrec.
  - destruct (call_effect rec e st) as [[v2 st2]|] eqn:Hrun; [|done].
    intros [= <-]. by eapply call_effect_rule.
Qed.

Lemma run_effects_rule rec es st st' :
  respects R rec → run_effects rec es st = Some st' → R st st'.
Proof.
  intros Hrec. revert st. induction es as [|e es IH]; intros st; simpl.
  - by intros [= <-].
  - destruct (run_one rec e st) as [st1|] eqn:H1; [|done].
    intros H2. eapply R_trans; [by eapply run_one_rule|by apply IH].
Qed.

Lemma exec_rule rec : respects R rec → respects R (exec rec).
Proof.
  intros Hrec p. induction p as
    [v|t k c IH|t k c IH|c IH|e c IH|e c IH|f IHf lz s c IH|j c IH|t k c IH|t k v c IH
    |t k c IH|t k c IH|t c IH|c IH|c IH|v c IH]; intros st v0 st'; simpl.
  - by intros [= _ <-].
  - intros H. eapply R_trans; [apply R_track|by eapply IH].
  - unfold trigger. destruct (run_effects rec (effectsToRun st t k) st) as [st1|] eqn:H1; [|done].
    intros H. eapply R_trans; [by eapply run_effects_rule|by eapply IH].
  - apply IH.
  - destruct (call_effect rec e st) as [[v1 st1]|] eqn:H1; [|done].
    intros H. eapply R_trans; [by eapply call_effect_rule|by eapply IH].
  - intros H. eapply R_trans; [apply R_cleanup|by eapply IH].
  - pose proof (R_alloc f lz s st) as Hst1. unfold alloc_effect in *. simpl in Hst1.
    destruct lz.
    + intros H. eapply R_trans; [apply Hst1|by eapply IH].
    + match goal with |- context [call_effect rec ?e ?s1] =>
        destruct (call_effect rec e s1) as [[v1 st2]|] eqn:H1; [|done] end.
      intros H. eapply R_trans; [apply Hst1|].
      eapply R_trans; [by eapply call_effect_rule|by eapply IH].
  - intros H. eapply R_trans; [apply R_queue|by eapply IH].
  - apply IH.
  - intros H. eapply R_trans; [apply R_put|by eapply IH].
  - apply IH.
  - intros H. eapply R_trans; [apply R_delete|by eapply IH].
  - apply IH.
  - intros H. eapply R_trans; [apply R_fresh|by eapply IH].
  - intros H. eapply R_trans; [apply R_fresh|by eapply IH].
  - intros H. eapply R_trans; [apply R_out|by eapply IH].
Qed.

Lemma run_rule fuel : respects R (run fuel).
Proof.
  induction fuel as [|fuel IH]; [by intros ????|]. simpl. by apply exec_rule.
Qed.

Lemma flush_loop_rule rec n i st st' :
  respects R rec → flush_loop rec n i st = Some st' → R st st'.
Proof.
  intros Hrec. revert i st. induction n as [|n IH]; intros i st; simpl.
  - destruct (pendingJobs st !! i); [done|]. by intros [= <-].
  - destruct (pendingJobs st !! i) as [j|]; [|by intros [= <-]].
    destruct (call_effect rec j st) as [[v st1]|] eqn:H1; [|done].
    intros H. eapply R_trans; [by eapply call_effect_rule|by eapply IH].
Qed.
End RunRule.

(** ** The dependency graph stays consistent with the reads *)

Lemma Inv_empty : Inv empty_state.
Proof.
  split; try done.
  - intros e t k. unfold subs, dep_set, edeps. simpl.
    rewrite !lookup_empty. simpl. split; intros H; by apply not_elem_of_nil in H.
  - intros e t k. unfold subs, dep_set. simpl. rewrite lookup_empty. simpl.
    intros H; by apply not_elem_of_nil in H.
  - intros e H; by apply not_elem_of_nil in H.
  - intros e [r H]. simpl in H. by rewrite lookup_empty in H.
Qed.

Lemma active_allocated st a :
  Inv st → activeEffect st = Some a → is_Some (effectFns st !! a).
Proof.
  intros HI Ha. apply (inv_stack st HI).
  rewrite (inv_active st HI) in Ha.
  destruct (effectStack st); [done|]. injection Ha as ->. left.
Qed.

Lemma Inv_track t k st : Inv st → Inv (track t k st).
Proof.
  intros HI. destruct (activeEffect st) as [a|] eqn:Ha.
  2:{ unfold track. by rewrite Ha. }
  assert (Hlog : log (track t k st) = EvRead a t k :: log st).
  { unfold track. rewrite Ha. by case_decide. }
  assert (Hstk : effectStack (track t k st) = effectStack st
                 ∧ activeEffect (track t k st) = activeEffect st
                 ∧ nextId (track t k st) = nextId st
                 ∧ effectFns (track t k st) = effectFns st).
  { unfold track. rewrite Ha. by case_decide. }
  destruct Hstk as (Hs & Hact & Hn & Hf).
  split.
  - intros e t' k'. rewrite subs_track, edeps_track, Ha.
    pose proof (inv_graph st HI e t' k') as Hg.
    pose proof (inv_graph st HI a t k) as Hga.
    destruct (decide (t' = t ∧ k' = k)) as [[-> ->]|Hne].
    + rewrite elem_of_add. destruct (decide (e = a ∧ a ∉ subs st t k)) as [[-> Hn']|Hn'].
      * rewrite elem_of_add. tauto.
      * destruct (decide (e = a)) as [->|]; [|tauto].
        destruct (decide (a ∈ subs st t k)); tauto.
    + destruct (decide (e = a ∧ a ∉ subs st t k)) as [[-> Hn']|Hn'].
      * rewrite elem_of_add. split; [tauto|]. intros [[= -> ->]|]; tauto.
      * done.
  - intros e d. rewrite edeps_track, Ha, Hlog. simpl.
    pose proof (inv_reads st HI e d) as Hr.
    pose proof (inv_graph st HI a t k) as Hga.
    pose proof (inv_reads st HI a (t, k)) as Hra.
    destruct (decide (e = a ∧ a ∉ subs st t k)) as [[-> Hn']|Hn'].
    + rewrite decide_True by done. rewrite elem_of_add, elem_of_cons. tauto.
    + destruct (decide (a = e)) as [->|Hne]; [|done].
      rewrite elem_of_cons. split; [tauto|]. intros [->|]; [|tauto].
      destruct (decide (e ∈ subs st t k)); tauto.
  - rewrite Hs, Hact. apply (inv_active st HI).
  - intros e t' k'. rewrite Hf, subs_track, Ha.
    case_decide; [|apply (inv_subs st HI)].
    rewrite elem_of_add. intros [->|H']; [by apply active_allocated|].
    by apply (inv_subs st HI) in H'.
  - rewrite Hs, Hf. apply (inv_stack st HI).
  - rewrite Hf, Hn. apply (inv_fns st HI).
Qed.

Lemma Inv_cleanup e st : Inv st → Inv (cleanup e st).
Proof.
  intros HI. split.
  - intros e' t k. rewrite subs_cleanup, edeps_cleanup.
    pose proof (inv_graph st HI e' t k) as Hg.
    destruct (decide (e' = e)) as [->|Hne].
    + split; [|by intros ?%not_elem_of_nil].
      case_decide; [rewrite elem_of_delete|]; tauto.
    + case_decide; [rewrite elem_of_delete|]; tauto.
  - intros e' d. rewrite edeps_cleanup. simpl.
    destruct (decide (e' = e)) as [->|Hne].
    + by rewrite decide_True.
    + rewrite decide_False by done. apply (inv_reads st HI).
  - apply (inv_active st HI).
  - intros e' t k. rewrite subs_cleanup. simpl.
    case_decide; [rewrite elem_of_delete; intros [_ H']|intros H'];
      by apply (inv_subs st HI) in H'.
  - apply (inv_stack st HI).
  - apply (inv_fns st HI).
Qed.

(** Changes that leave the graph, the stack and the reads alone. *)
Lemma Inv_frame st st' :
  targetMap st' = targetMap st → effectDeps st' = effectDeps st →
  activeEffect st' = activeEffect st → effectStack st' = effectStack st →
  effectFns st' = effectFns st → nextId st ≤ nextId st' →
  (∀ e, recent_reads e (log st') = recent_reads e (log st)) →
  Inv st → Inv st'.
Proof.
  intros Ht Hd Ha Hs Hf Hn Hl HI.
  assert (Hsubs : ∀ t k, subs st' t k = subs st t k) by (intros; unfold subs; by rewrite Ht).
  assert (Hed : ∀ e, edeps st' e = edeps st e) by (intros; unfold edeps; by rewrite Hd).
  split.
  - intros. rewrite Hsubs, Hed. apply (inv_graph st HI).
  - intros. rewrite Hed, Hl. apply (inv_reads st HI).
  - rewrite Ha, Hs. apply (inv_active st HI).
  - intros e t k. rewrite Hsubs, Hf. apply (inv_subs st HI).
  - intros e. rewrite Hs, Hf. apply (inv_stack st HI).
  - intros e. rewrite Hf. intros H%(inv_fns st HI). lia.
Qed.

Lemma edeps_fresh st e : Inv st → nextId st ≤ e → edeps st e = [].
Proof.
  intros HI Hge. destruct (edeps st e) as [|[t k] l] eqn:He; [done|].
  assert ((t, k) ∈ edeps st e) as Hin by (rewrite He; left).
  apply (inv_graph st HI), (inv_subs st HI), (inv_fns st HI) in Hin. lia.
Qed.

Lemma Inv_alloc f lz s st : Inv st → Inv (alloc_effect f lz s st).2.
Proof.
  intros HI. unfold alloc_effect. simpl.
  assert (Hed : ∀ e, edeps (with_nextId (S (nextId st))
            (with_effectDeps (<[nextId st := []]> (effectDeps st))
               (with_effectFns (<[nextId st := mkEffect f lz s]> (effectFns st)) st))) e
            = edeps st e).
  { intros e. unfold edeps at 1. simpl. destruct (decide (e = nextId st)) as [->|Hne].
    - rewrite lookup_insert_eq. simpl. symmetry. by apply edeps_fresh.
    - by rewrite lookup_insert_ne. }
  assert (Hmono : ∀ e, is_Some (effectFns st !! e) →
            is_Some (<[nextId st := mkEffect f lz s]> (effectFns st) !! e)).
  { intros e He. rewrite lookup_insert_is_Some. destruct (decide (nextId st = e)); auto. }
  split; simpl.
  - intros e t k. rewrite Hed. apply (inv_graph st HI).
  - intros e d. rewrite Hed. apply (inv_reads st HI).
  - apply (inv_active st HI).
  - intros e t k H%(inv_subs st HI). by apply Hmono.
  - intros e H%(inv_stack st HI). by apply Hmono.
  - intros e. destruct (decide (e = nextId st)) as [->|Hne]; [lia|].
    rewrite lookup_insert_ne by done. intros H%(inv_fns st HI). lia.
Qed.

Lemma Inv_enter e st : Inv st → is_Some (effectFns st !! e) → Inv (enter_effect e st).
Proof.
  intros HI He. unfold enter_effect.
  assert (Inv (cleanup e (emit (EvRun e (effectStack st)) st))) as HI2.
  { apply Inv_cleanup. by eapply Inv_frame; [..|exact HI]. }
  destruct HI2 as [H1 H2 H3 H4 H5 H6]. split; try done.
  simpl. intros e' [->|H']%elem_of_cons; [done|]. by apply (inv_stack st HI).
Qed.

Lemma Inv_pop st : Inv st → Inv (popEffect st).
Proof.
  intros [H1 H2 H3 H4 H5 H6]. split; try done. simpl.
  intros e He. apply H5. destruct (effectStack st); [done|]. by right.
Qed.

Lemma Inv_queueJob j st : Inv st → Inv (queueJob j st).
Proof.
  intros HI. unfold queueJob. simpl.
  destruct (isFlushing st); by eapply Inv_frame; [..|exact HI].
Qed.

Lemma run_Inv fuel p st v st' : run fuel p st = Some (v, st') → Inv st → Inv st'.
Proof.
  revert p st v st'.
  apply (run_rule (λ st st', Inv st → Inv st')); try by eauto.
  - intros. by apply Inv_track.
  - intros. by apply Inv_cleanup.
  - intros ?? HI. by eapply Inv_frame; [..|exact HI].
  - intros ?? HI. by eapply Inv_frame; [..|exact HI].
  - intros. by apply Inv_queueJob.
  - intros ???? HI. by eapply Inv_frame; [..|exact HI].
  - intros ??? HI. by eapply Inv_frame; [..|exact HI].
  - intros ? HI. eapply Inv_frame; [..|exact HI]; simpl; try done. lia.
  - intros. by apply Inv_alloc.
  - intros e r st st2 Hr H HI. apply Inv_pop, H, Inv_enter; [done|]. by eexists.
Qed.

(** After [cleanup(e)] the effect is in no dependency set. *)
Lemma subs_enter e st e' t k :
  Inv st → e' ∈ subs (enter_effect e st) t k ↔ e' ≠ e ∧ e' ∈ subs st t k.
Proof.
  intros HI. unfold enter_effect.
  change (subs (pushEffect e ?s) t k) with (subs s t k).
  rewrite subs_cleanup.
  change (edeps (emit ?ev st) e) with (edeps st e).
  change (subs (emit ?ev st) t k) with (subs st t k).
  pose proof (inv_graph st HI e t k) as Hg.
  case_decide; [rewrite elem_of_delete; tauto|].
  split; [|tauto]. intros H'. split; [|done]. intros ->. tauto.
Qed.



(** ** Quiet closures *)

Lemma quiet_step_refl st : quiet_step st st.
Proof.
  split; try done. exists []. split; [done|]. split; [constructor|].
  intros e t k. split; [auto|]. intros [?|H]; [done|]. by apply not_elem_of_nil in H.
Qed.

Lemma quiet_step_trans st1 st2 st3 :
  quiet_step st1 st2 → quiet_step st2 st3 → quiet_step st1 st3.
Proof.
  intros [F1 H1 S1 A1 (evs1 & L1 & Q1 & G1)] [F2 H2 S2 A2 (evs2 & L2 & Q2 & G2)].
  split; try congruence.
  exists (evs2 ++ evs1). split; [by rewrite L2, L1, app_assoc|]. split.
  - apply Forall_app. split; [by rewrite <- A1|done].
  - intros e t k. rewrite G2, G1, elem_of_app. tauto.
Qed.

Lemma quiet_step_track t k st : quiet_step st (track t k st).
Proof.
  destruct (activeEffect st) as [a|] eqn:Ha.
  2:{ unfold track. rewrite Ha. apply quiet_step_refl. }
  split; try (unfold track; rewrite Ha; by case_decide).
  exists [EvRead a t k]. split; [unfold track; rewrite Ha; by case_decide|].
  split; [by repeat constructor|].
  intros e t' k'. rewrite subs_track, Ha, list_elem_of_singleton.
  case_decide as H.
  - destruct H as [-> ->]. rewrite elem_of_add. split; [intros [->|]; auto|].
    intros [?|[= ->]]; auto.
  - split; [auto|]. intros [?|[= -> -> ->]]; tauto.
Qed.

Lemma quiet_step_frame st st' evs :
  targetMap st' = targetMap st → effectFns st' = effectFns st → heap st' = heap st →
  effectStack st' = effectStack st → activeEffect st' = activeEffect st →
  log st' = evs ++ log st → Forall (quiet_event (activeEffect st)) evs →
  (∀ e t k, EvRead e t k ∉ evs) →
  quiet_step st st'.
Proof.
  intros Ht Hf Hh Hs Ha Hl Hq Hn. split; try done.
  exists evs. split; [done|]. split; [done|].
  intros e t k. unfold subs. rewrite Ht. split; [auto|]. intros [?|H]; [done|].
  by apply Hn in H.
Qed.

Lemma quiet_step_queueJob j st : quiet_step st (queueJob j st).
Proof.
  unfold queueJob. simpl.
  destruct (isFlushing st); apply (quiet_step_frame _ _ [EvQueue j]); try done;
    try (by repeat constructor);
    by intros e t k [=]%list_elem_of_singleton.
Qed.

Lemma exec_quiet rec p st :
  Quiet p → ∃ v st', exec rec p st = Some (v, st') ∧ quiet_step st st'.
Proof.
  intros HQ. revert st.
  induction HQ as [v|t k c _ IH|c _ IH|j c _ IH|t k c _ IH|t k c _ IH|t c _ IH
                  |c _ IH|c _ IH|v c _ IH]; intros st; simpl.
  - exists v, st. split; [done|apply quiet_step_refl].
  - destruct (IH (track t k st)) as (v & st' & Hx & Hs).
    exists v, st'. split; [done|]. eapply quiet_step_trans; [apply quiet_step_track|done].
  - apply IH.
  - destruct (IH (queueJob j st)) as (v & st' & Hx & Hs).
    exists v, st'. split; [done|]. eapply quiet_step_trans; [apply quiet_step_queueJob|done].
  - apply IH.
  - apply IH.
  - apply IH.
  - destruct (IH (KSym (nextId st)) (with_nextId (S (nextId st)) st)) as (v & st' & Hx & Hs).
    exists v, st'. split; [done|]. eapply quiet_step_trans; [|done].
    apply (quiet_step_frame _ _ []); try done. by intros e t k ?%not_elem_of_nil.
  - destruct (IH (nextId st) (with_nextId (S (nextId st)) st)) as (v & st' & Hx & Hs).
    exists v, st'. split; [done|]. eapply quiet_step_trans; [|done].
    apply (quiet_step_frame _ _ []); try done. by intros e t k ?%not_elem_of_nil.
  - destruct (IH (emit (EvOut v) st)) as (v' & st' & Hx & Hs).
    exists v', st'. split; [done|]. eapply quiet_step_trans; [|done].
    apply (quiet_step_frame _ _ [EvOut v]); try done; [by repeat constructor|].
    by intros e t k [=]%list_elem_of_singleton.
Qed.

(** Counting hand-offs in the log. *)
Lemma handoffs_app e l1 l2 : handoffs e (l1 ++ l2) = handoffs e l1 + handoffs e l2.
Proof. unfold handoffs. by rewrite List.filter_app, length_app. Qed.

Lemma runs_app e l1 l2 : runs e (l1 ++ l2) = runs e l1 + runs e l2.
Proof. unfold runs. by rewrite List.filter_app, length_app. Qed.

Lemma quiet_no_handoffs a e evs :
  Forall (quiet_event a) evs → handoffs e evs = 0 ∧ runs e evs = 0.
Proof.
  unfold handoffs, runs. induction 1 as [|ev evs Hev _ [IH1 IH2]]; [done|].
  destruct ev; simpl in *; try done.
Qed.


Lemma quiet_step_tame st st' : quiet_step st st' → tame st st'.
Proof. intros [F H S A _]. by split. Qed.

Lemma tame_refl st : tame st st.
Proof. by split. Qed.

Lemma tame_trans st1 st2 st3 : tame st1 st2 → tame st2 st3 → tame st1 st3.
Proof.
  intros [F1 H1 S1 A1] [F2 H2 S2 A2]. split; try congruence.
  intros Hc. rewrite A2, A1; [done..|]. rewrite A1, S1; done.
Qed.

(** ** The run set of [trigger] *)

Lemma subs_lookup st t k :
  subs st t k =
    match targetMap st !! t with
    | None => []
    | Some depsMap => match depsMap !! k with None => [] | Some deps => deps end
    end.
Proof. unfold subs, dep_set. destruct (targetMap st !! t) as [dm|]; [|done]. simpl. by destruct (dm !! k). Qed.

Lemma run_set_fold (a : option EffId) (deps acc : list EffId) e :
  e ∈ foldl (λ acc e, if decide (Some e = a) then acc else JSet.add e acc) acc deps
  ↔ e ∈ acc ∨ (e ∈ deps ∧ a ≠ Some e).
Proof.
  revert acc. induction deps as [|d deps IH]; intros acc; simpl.
  - split; [auto|]. intros [?|[H _]]; [done|]. by apply not_elem_of_nil in H.
  - rewrite IH. rewrite elem_of_cons. case_decide as Hd.
    + split; [tauto|]. intros [?|[[->|?] Hne]]; [tauto| |tauto]. by subst a.
    + rewrite elem_of_add. split; [|tauto].
      intros [[->|?]|?]; [|tauto..]. right. split; [by left|congruence].
Qed.

Lemma run_set_fold_NoDup (a : option EffId) (deps acc : list EffId) :
  NoDup acc →
  NoDup (foldl (λ acc e, if decide (Some e = a) then acc else JSet.add e acc) acc deps).
Proof.
  revert acc. induction deps as [|d deps IH]; intros acc Hacc; simpl; [done|].
  apply IH. case_decide; [done|]. by apply NoDup_add.
Qed.

Lemma elem_of_effectsToRun st t k e :
  e ∈ effectsToRun st t k ↔ e ∈ subs st t k ∧ activeEffect st ≠ Some e.
Proof.
  rewrite subs_lookup. unfold effectsToRun.
  destruct (targetMap st !! t) as [dm|]; [|by split; [intros ?%not_elem_of_nil|intros [?%not_elem_of_nil _]]].
  destruct (dm !! k) as [deps|]; [|by split; [intros ?%not_elem_of_nil|intros [?%not_elem_of_nil _]]].
  rewrite run_set_fold. split; [|tauto]. intros [?%not_elem_of_nil|?]; [done|tauto].
Qed.

Lemma NoDup_effectsToRun st t k : NoDup (effectsToRun st t k).
Proof.
  unfold effectsToRun. destruct (targetMap st !! t) as [dm|]; [|constructor].
  destruct (dm !! k) as [deps|]; [|constructor].
  apply run_set_fold_NoDup. constructor.
Qed.

(** ** Running effects whose closures are quiet *)

Lemma call_effect_quiet rec e r st :
  effectFns st !! e = Some r → Quiet (fn r) →
  ∃ v st' evs,
    call_effect (exec rec) e st = Some (v, st')
    ∧ log st' = evs ++ EvCleanup e :: EvRun e (effectStack st) :: log st
    ∧ Forall (quiet_event (Some e)) evs
    ∧ effectFns st' = effectFns st ∧ heap st' = heap st
    ∧ effectStack st' = effectStack st
    ∧ activeEffect st' = head (effectStack st)
    ∧ ∀ e' t k, e' ∈ subs st' t k ↔ e' ∈ subs (enter_effect e st) t k ∨ EvRead e' t k ∈ evs.
Proof.
  intros Hr HQ. unfold call_effect. rewrite Hr.
  destruct (exec_quiet rec (fn r) (enter_effect e st) HQ)
    as (v & st2 & Hx & [F H S A (evs & L & Q & G)]).
  rewrite Hx. exists v, (popEffect st2), evs. simpl in *.
  split; [done|]. split; [done|]. split; [done|]. split; [done|]. split; [done|].
  rewrite S. simpl. done.
Qed.

Lemma run_one_simple rec e r st :
  effectFns st !! e = Some r → simple e r →
  ∃ st' evs,
    run_one (exec rec) e st = Some st'
    ∧ log st' = evs ++ log st
    ∧ tame st st'
    ∧ (∀ e', handoffs e' evs = if decide (e' = e) then 1 else 0)
    ∧ (∀ e', runs e' evs ≤ handoffs e' evs).
Proof.
  intros Hr Hs. unfold run_one, simple in *. rewrite Hr.
  destruct (scheduler r) as [s|].
  - destruct (exec_quiet rec (s e) (emit (EvSched e) st) Hs)
      as (v & st2 & Hx & [F H S A (evs & L & Q & G)]).
    rewrite Hx. exists st2, (evs ++ [EvSched e]). simpl in *.
    split; [done|]. split; [by rewrite <- app_assoc|]. split; [by split|].
    split; intros e'; destruct (quiet_no_handoffs _ e' evs Q) as [Hh0 Hr0'].
    + rewrite handoffs_app, Hh0. unfold handoffs. simpl.
      destruct (decide (e' = e)) as [->|Hne].
      * by rewrite bool_decide_true.
      * by rewrite bool_decide_false by congruence.
    + rewrite runs_app, Hr0'. unfold runs. simpl. lia.
  - destruct (call_effect_quiet rec e r st Hr Hs)
      as (v & st2 & evs & Hx & L & Q & F & H & S & A & G).
    rewrite Hx. exists st2, (evs ++ [EvCleanup e; EvRun e (effectStack st)]). simpl.
    split; [done|]. split; [by rewrite <- app_assoc|]. split.
    { split; try done. intros Hc. by rewrite A. }
    split; intros e'; destruct (quiet_no_handoffs _ e' evs Q) as [Hh0 Hr0'].
    + rewrite handoffs_app, Hh0. unfold handoffs. simpl.
      destruct (decide (e' = e)) as [->|Hne].
      * by rewrite bool_decide_true.
      * by rewrite bool_decide_false by congruence.
    + rewrite runs_app, handoffs_app, Hh0, Hr0'. unfold runs, handoffs. simpl. lia.
Qed.

Lemma run_effects_simple rec es st :
  (∀ e, e ∈ es → ∃ r, effectFns st !! e = Some r ∧ simple e r) →
  ∃ st' evs,
    run_effects (exec rec) es st = Some st'
    ∧ log st' = evs ++ log st
    ∧ tame st st'
    ∧ (∀ e, handoffs e evs = length (filter (λ x, x = e) es))
    ∧ (∀ e, runs e evs ≤ handoffs e evs).
Proof.
  revert st. induction es as [|e es IH]; intros st Hall; simpl.
  - exists st, []. repeat split; try done.
  - destruct (Hall e) as (r & Hr & Hs); [left|].
    destruct (run_one_simple rec e r st Hr Hs) as (st1 & evs1 & H1 & L1 & T1 & C1 & R1).
    rewrite H1.
    destruct (IH st1) as (st2 & evs2 & H2 & L2 & T2 & C2 & R2).
    { intros e' He'. rewrite (tame_fns _ _ T1). apply Hall. by right. }
    exists st2, (evs2 ++ evs1). split; [done|].
    split; [by rewrite L2, L1, app_assoc|]. split; [by eapply tame_trans|].
    split; intros e'.
    + rewrite handoffs_app, C1, C2, filter_cons.
      destruct (decide (e' = e)) as [->|Hne].
      * rewrite decide_True by done. simpl. lia.
      * rewrite decide_False by congruence. lia.
    + rewrite runs_app, handoffs_app. specialize (R1 e'). specialize (R2 e'). lia.
Qed.

Lemma count_NoDup (es : list EffId) e :
  NoDup es → length (filter (λ x, x = e) es) = if decide (e ∈ es) then 1 else 0.
Proof.
  induction 1 as [|x es Hx _ IH].
  - by rewrite decide_False by apply not_elem_of_nil.
  - rewrite filter_cons. destruct (decide (x = e)) as [->|Hne].
    + rewrite decide_True by left. simpl. rewrite IH. by rewrite decide_False.
    + rewrite IH. destruct (decide (e ∈ es)) as [Hin|Hin].
      * by rewrite decide_True by (by right).
      * rewrite decide_False; [done|]. rewrite not_elem_of_cons. split; [congruence|done].
Qed.

(** [trigger] on subscribers with quiet closures: it returns, and every selected
    effect was handed off exactly once. *)
Lemma trigger_simple rec t k st :
  (∀ e, e ∈ effectsToRun st t k → ∃ r, effectFns st !! e = Some r ∧ simple e r) →
  ∃ st' evs,
    trigger (exec rec) t k st = Some st'
    ∧ log st' = evs ++ log st
    ∧ tame st st'
    ∧ (∀ e, handoffs e evs =
            if decide (e ∈ subs st t k ∧ activeEffect st ≠ Some e) then 1 else 0)
    ∧ (∀ e, runs e evs ≤ handoffs e evs).
Proof.
  intros Hall. unfold trigger.
  destruct (run_effects_simple rec _ st Hall) as (st' & evs & H & L & T & C & R).
  exists st', evs. repeat (split; [done|]). split; [|done].
  intros e. rewrite C, count_NoDup by apply NoDup_effectsToRun.
  destruct (decide (e ∈ effectsToRun st t k)) as [Hin|Hin];
    rewrite elem_of_effectsToRun in Hin.
  - by rewrite decide_True.
  - by rewrite decide_False.
Qed.

(** ** Effects that write *)

Lemma trigger_Inv fuel t k st st' :
  trigger (run fuel) t k st = Some st' → Inv st → Inv st'.
Proof.
  intros H. apply (run_Inv (S fuel) (Trigger t k (Ret VUndef)) st VUndef st').
  simpl. by rewrite H.
Qed.

Lemma simple_subscribers E st t k :
  Inv st → activeEffect st = Some E →
  (∀ e r, effectFns st !! e = Some r → e ≠ E → simple e r) →
  ∀ e, e ∈ effectsToRun st t k → ∃ r, effectFns st !! e = Some r ∧ simple e r.
Proof.
  intros HI Ha Hall e [Hin Hne]%elem_of_effectsToRun.
  destruct (inv_subs st HI e t k Hin) as [r Hr]. exists r. split; [done|].
  apply Hall; [done|]. congruence.
Qed.

Lemma writer_run fuel E p st :
  Writer p → Inv st → activeEffect st = Some E →
  (∀ e r, effectFns st !! e = Some r → e ≠ E → simple e r) →
  ∃ v st' evs,
    run (S (S fuel)) p st = Some (v, st')
    ∧ log st' = evs ++ log st
    ∧ handoffs E evs = 0
    ∧ effectFns st' = effectFns st
    ∧ effectStack st' = effectStack st
    ∧ activeEffect st' = Some E.
Proof.
  intros HW. revert st.
  assert (Hstep : ∀ (c : Prog) (st s1 : State) (evs1 : list Event),
    (∀ st, Inv st → activeEffect st = Some E →
       (∀ e r, effectFns st !! e = Some r → e ≠ E → simple e r) →
       ∃ v st' evs, run (S (S fuel)) c st = Some (v, st') ∧ log st' = evs ++ log st
         ∧ handoffs E evs = 0 ∧ effectFns st' = effectFns st
         ∧ effectStack st' = effectStack st ∧ activeEffect st' = Some E) →
    Inv s1 → log s1 = evs1 ++ log st → handoffs E evs1 = 0 →
    effectFns s1 = effectFns st → effectStack s1 = effectStack st →
    activeEffect s1 = Some E →
    (∀ e r, effectFns st !! e = Some r → e ≠ E → simple e r) →
    ∃ v st' evs, run (S (S fuel)) c s1 = Some (v, st') ∧ log st' = evs ++ log st
      ∧ handoffs E evs = 0 ∧ effectFns st' = effectFns st
      ∧ effectStack st' = effectStack st ∧ activeEffect st' = Some E).
  { intros c st s1 evs1 IH HI1 L1 C1 F1 S1 A1 Hall.
    destruct (IH s1 HI1 A1) as (v & st' & evs & Hx & L & C & F & S & A).
    { intros e r. rewrite F1. apply Hall. }
    exists v, st', (evs ++ evs1). split; [done|].
    split; [by rewrite L, L1, app_assoc|]. split; [rewrite handoffs_app; lia|].
    split; [congruence|]. split; [congruence|done]. }
  induction HW as [v|t k c _ IH|t k c _ IH|c _ IH|j c _ IH|t k c _ IH|t k v c _ IH
                  |t k c _ IH|t k c _ IH|t c _ IH|c _ IH|c _ IH|v c _ IH];
    intros st HI Ha Hall.
  - exists v, st, []. by repeat split.
  - change (run (S (S fuel)) (Track t k c) st) with (run (S (S fuel)) c (track t k st)).
    apply (Hstep c st (track t k st) [EvRead E t k]); try done.
    + by apply Inv_track.
    + unfold track. rewrite Ha. by case_decide.
    + unfold track. rewrite Ha. by case_decide.
    + unfold track. rewrite Ha. by case_decide.
    + unfold track. rewrite Ha. by case_decide.
  - destruct (trigger_simple (run fuel) t k st) as (s1 & evs1 & H1 & L1 & T1 & C1 & _).
    { by eapply simple_subscribers. }
    change (run (S (S fuel)) (Trigger t k c) st) with
      (match trigger (run (S fuel)) t k st with
       | None => None | Some st' => run (S (S fuel)) c st' end).
    change (run (S fuel)) with (exec (run fuel)) at 1. rewrite H1.
    apply (Hstep c st s1 evs1); try done.
    + eapply (trigger_Inv (S fuel)); [exact H1|done].
    + rewrite C1. rewrite decide_False; [done|]. intros [_ Hn]. congruence.
    + apply T1.
    + apply T1.
    + rewrite (tame_active _ _ T1); [done|]. apply (inv_active st HI).
  - apply IH; done.
  - change (run (S (S fuel)) (QueueJob j c) st) with (run (S (S fuel)) c (queueJob j st)).
    apply (Hstep c st (queueJob j st) [EvQueue j]); try done.
    + by apply Inv_queueJob.
    + unfold queueJob. simpl. by destruct (isFlushing st).
    + unfold queueJob. simpl. by destruct (isFlushing st).
    + unfold queueJob. simpl. by destruct (isFlushing st).
    + unfold queueJob. simpl. by destruct (isFlushing st).
  - apply IH; done.
  - change (run (S (S fuel)) (Put t k v c) st) with (run (S (S fuel)) c (heap_put t k v st)).
    apply (Hstep c st (heap_put t k v st) []); try done.
    by eapply Inv_frame; [..|exact HI].
  - apply IH; done.
  - change (run (S (S fuel)) (Delete t k c) st) with
      (run (S (S fuel)) (c true) (heap_delete t k st)).
    apply (Hstep (c true) st (heap_delete t k st) []); try done; [apply IH|].
    by eapply Inv_frame; [..|exact HI].
  - apply IH; done.
  - change (run (S (S fuel)) (NewSymbol c) st) with
      (run (S (S fuel)) (c (KSym (nextId st))) (with_nextId (S (nextId st)) st)).
    apply (Hstep _ st _ []); try done; [apply IH|].
    eapply Inv_frame; [..|exact HI]; simpl; try done. lia.
  - change (run (S (S fuel)) (New c) st) with
      (run (S (S fuel)) (c (nextId st)) (with_nextId (S (nextId st)) st)).
    apply (Hstep _ st _ []); try done; [apply IH|].
    eapply Inv_frame; [..|exact HI]; simpl; try done. lia.
  - change (run (S (S fuel)) (Out v c) st) with (run (S (S fuel)) c (emit (EvOut v) st)).
    apply (Hstep c st (emit (EvOut v) st) [EvOut v]); try done.
    by eapply Inv_frame; [..|exact HI].
Qed.
Lemma runs_le_handoffs e l : runs e l ≤ handoffs e l.
Proof.
  unfold runs, handoffs. induction l as [|ev l IH]; [done|]. simpl.
  destruct ev; simpl; try done; case_bool_decide; simpl; lia.
Qed.

Lemma Inv_st_counter : Inv st_counter.
Proof.
  unfold st_counter, final.
  destruct (run 2 counter_scene empty_state) as [[v s]|] eqn:H; [|apply Inv_empty].
  eapply run_Inv; [exact H|apply Inv_empty].
Qed.

Lemma Quiet_reader c : Quiet (reader c).
Proof.
  unfold reader, ref_get, trackRefValue. constructor. intros [a|]; repeat constructor.
Qed.

(** C10: one call of [trigger] builds its run set from the subscribers before
    anything runs, the run set has no duplicates, and (for subscribers whose
    hand-off is a quiet closure, which may well read the same key again and
    so re-register) the call returns having handed each subscriber off exactly
    once and no other effect at all. *)
Theorem trigger_hands_off_at_most_once fuel t k st :
  (∀ rec, trigger rec t k st = run_effects rec (effectsToRun st t k) st)
  ∧ NoDup (effectsToRun st t k)
  ∧ ((∀ e, e ∈ effectsToRun st t k → ∃ r, effectFns st !! e = Some r ∧ simple e r) →
     ∃ st' evs,
       trigger (run (S fuel)) t k st = Some st'
       ∧ log st' = evs ++ log st
       ∧ ∀ e, handoffs e evs ≤ 1
              ∧ (e ∈ effectsToRun st t k → handoffs e evs = 1)
              ∧ (e ∉ effectsToRun st t k → handoffs e evs = 0)).
Proof.
  split; [done|]. split; [apply NoDup_effectsToRun|].
  intros Hall.
  destruct (trigger_simple (run fuel) t k st Hall) as (st' & evs & H & L & _ & C & _).
  exists st', evs. split; [exact H|]. split; [done|].
  intros e. rewrite C, elem_of_effectsToRun.
  case_decide; split; try lia; split; try done; tauto.
Qed.

Lemma trigger_hands_off_at_most_once_witness :
  ∃ st' evs,
    trigger (run 1) 0 kValue st_counter = Some st'
    ∧ log st' = evs ++ log st_counter
    ∧ ∀ e, handoffs e evs ≤ 1
           ∧ (e ∈ effectsToRun st_counter 0 kValue → handoffs e evs = 1)
           ∧ (e ∉ effectsToRun st_counter 0 kValue → handoffs e evs = 0).
Proof.
  apply (trigger_hands_off_at_most_once 0 0 kValue st_counter).
  intros e He.
  assert (effectsToRun st_counter 0 kValue = [1]) as Hrun by (vm_compute; reflexivity).
  rewrite Hrun in He. apply list_elem_of_singleton in He as ->.
  exists (mkEffect (reader 0) false None). split; [vm_compute; reflexivity|].
  apply Quiet_reader.
Defined.
Lemma Inv_final fuel p : Inv (final fuel p empty_state).
Proof.
  unfold final.
  destruct (run fuel p empty_state) as [[v s]|] eqn:H; [|apply Inv_empty].
  eapply run_Inv; [exact H|apply Inv_empty].
Qed.

Lemma Writer_bump lo hi c : Writer (bump lo hi c).
Proof.
  unfold bump, ref_get, ref_set, trackRefValue, triggerRefValue.
  assert (∀ v, Writer (if decide (v = VNum lo)
                        then Get c (KStr "_rawValue") (λ rawValue,
                               if decide (toRaw (VNum hi) = rawValue) then Ret VUndef
                               else Put c (KStr "_rawValue") (toRaw (VNum hi))
                                      (Put c (KStr "_value") (toReactive (VNum hi))
                                         (Trigger c kValue (Ret VUndef))))
                        else Ret VUndef)) as Hbody.
  { intros v. case_decide; [|constructor]. constructor. intros raw.
    case_decide; repeat constructor. }
  constructor. intros [a|]; repeat constructor; apply Hbody.
Qed.

Lemma self_run_not_reentered fuel E r st :
  Inv st → effectFns st !! E = Some r → Writer (fn r) →
  (∀ e r', effectFns st !! e = Some r' → e ≠ E → simple e r') →
  ∃ v st' evs,
    call_effect (run (S (S fuel))) E st = Some (v, st')
    ∧ log st' = evs ++ log st
    ∧ runs E evs = 1.
Proof.
  intros HI Hr HW Hall. unfold call_effect. rewrite Hr.
  destruct (writer_run fuel E (fn r) (enter_effect E st) HW)
    as (v & st2 & evs & Hx & L & C & F & S & A).
  - apply Inv_enter; [done|by eexists].
  - done.
  - exact Hall.
  - rewrite Hx. exists v, (popEffect st2), (evs ++ [EvCleanup E; EvRun E (effectStack st)]).
    split; [done|]. split; [simpl in *; by rewrite L, <- app_assoc|].
    rewrite runs_app. pose proof (runs_le_handoffs E evs). unfold runs at 2. simpl.
    rewrite bool_decide_true by done. simpl. lia.
Qed.

(** C2 (as amended): [trigger(target, key)] selects exactly the effects
    registered for (target, key) other than the running one, and hands each of
    them off once when their hand-offs are quiet closures; so the trigger caused
    by an effect's own write never invokes that effect, and an effect that reads
    and writes reactive state is entered exactly once per run as long as the
    effects it triggers do not write in turn. *)
Theorem trigger_skips_running_effect fuel t k st :
  (∀ e, e ∈ effectsToRun st t k ↔ e ∈ subs st t k ∧ activeEffect st ≠ Some e)
  ∧ ((∀ e, e ∈ effectsToRun st t k → ∃ r, effectFns st !! e = Some r ∧ simple e r) →
     ∃ st' evs,
       trigger (run (S fuel)) t k st = Some st'
       ∧ log st' = evs ++ log st
       ∧ ∀ e, handoffs e evs =
              if decide (e ∈ subs st t k ∧ activeEffect st ≠ Some e) then 1 else 0)
  ∧ (∀ E r, Inv st → effectFns st !! E = Some r → Writer (fn r) →
       (∀ e r', effectFns st !! e = Some r' → e ≠ E → simple e r') →
       ∃ v st' evs,
         call_effect (run (S (S fuel))) E st = Some (v, st')
         ∧ log st' = evs ++ log st
         ∧ runs E evs = 1).
Proof.
  split; [intros e; apply elem_of_effectsToRun|]. split.
  - intros Hall.
    destruct (trigger_simple (run fuel) t k st Hall) as (st' & evs & H & L & _ & C & _).
    by exists st', evs.
  - intros E r. apply self_run_not_reentered.
Qed.

Lemma effectFns_st_bump : effectFns st_bump = {[ 1 := mkEffect (bump 0 1 0) true None ]}.
Proof. vm_compute. reflexivity. Qed.

Lemma trigger_skips_running_effect_witness :
  ∃ v st' evs,
    call_effect (run 2) 1 st_bump = Some (v, st')
    ∧ log st' = evs ++ log st_bump
    ∧ runs 1 evs = 1.
Proof.
  apply (proj2 (proj2 (trigger_skips_running_effect 0 0 kValue st_bump))
           1 (mkEffect (bump 0 1 0) true None)).
  - apply Inv_final.
  - vm_compute. reflexivity.
  - apply Writer_bump.
  - intros e r' He Hne. rewrite effectFns_st_bump in He.
    by rewrite lookup_singleton_ne in He.
Defined.

(** The claim as it stands fails: in [pingpong] effect 1 reads and writes the
    ref during its own run, effect 2 (run by that write) writes the ref again,
    and effect 1 is entered while it is still on the effect stack. *)
Lemma self_trigger_counterexample :
  returns 6 pingpong empty_state = true
  ∧ EvRun 1 [2; 1] ∈ log (final 6 pingpong empty_state)
  ∧ reentered (log (final 6 pingpong empty_state)).
Proof.
  split; [vm_compute; reflexivity|].
  assert (log (final 6 pingpong empty_state) =
          [EvRead 2 0 (KStr "value"); EvCleanup 2; EvRun 2 [];
           EvRead 1 0 (KStr "value"); EvCleanup 1; EvRun 1 [2; 1];
           EvRead 2 0 (KStr "value"); EvCleanup 2; EvRun 2 [1];
           EvRead 1 0 (KStr "value"); EvCleanup 1; EvRun 1 [];
           EvRead 2 0 (KStr "value"); EvCleanup 2; EvRun 2 [];
           EvRead 1 0 (KStr "value"); EvCleanup 1; EvRun 1 []]) as ->
    by (vm_compute; reflexivity).
  assert (EvRun 1 [2; 1] ∈ [EvRead 2 0 (KStr "value"); EvCleanup 2; EvRun 2 [];
            EvRead 1 0 (KStr "value"); EvCleanup 1; EvRun 1 [2; 1];
            EvRead 2 0 (KStr "value"); EvCleanup 2; EvRun 2 [1];
            EvRead 1 0 (KStr "value"); EvCleanup 1; EvRun 1 [];
            EvRead 2 0 (KStr "value"); EvCleanup 2; EvRun 2 [];
            EvRead 1 0 (KStr "value"); EvCleanup 1; EvRun 1 []]) as Hin.
  { repeat (first [left | right]). }
  split; [exact Hin|]. exists 1, [2; 1]. split; [exact Hin|]. right. left.
Qed.

(** ** Dependency soundness *)




(** ** Computed refs *)

Lemma heap_get_put t k v st t' k' :
  heap_get (heap_put t k v st) t' k' =
    if decide (t' = t ∧ k' = k) then v else heap_get st t' k'.
Proof.
  unfold heap_get, heap_put, props. simpl.
  destruct (decide (t' = t)) as [->|Ht].
  - rewrite lookup_insert_eq. simpl. destruct (decide (k' = k)) as [->|Hk].
    + rewrite lookup_insert_eq. by rewrite decide_True.
    + rewrite lookup_insert_ne by done. by rewrite decide_False by tauto.
  - rewrite lookup_insert_ne by done. by rewrite decide_False by tauto.
Qed.










Lemma Quiet_ref_get r : Quiet (ref_get r Ret).
Proof.
  unfold ref_get, trackRefValue. constructor. intros [a|]; repeat constructor.
Qed.


(** The constructor yields such a computed; on [computed_scene], reading,
    assigning 7 to the ref and reading again gives 1, then 7, with two getter
    runs in all. *)
Example computed_scene_run :
  let x := mkComputed 1 2 in
  let s1 := final 3 (computed_get x Ret) st_computed in
  let s3 := final 3 (ref_set 0 (VNum 7) (Ret VUndef)) s1 in
  let s4 := final 3 (computed_get x Ret) s3 in
  heap_get s1 1 (KStr "_value") = VNum 1
  ∧ getter_runs x s1 = 1 ∧ getter_runs x s3 = 1 ∧ getter_runs x s4 = 2
  ∧ heap_get s4 1 (KStr "_value") = VNum 7.
Proof. vm_compute. repeat split. Qed.

(** ** Enumeration is tracked under a key nothing triggers *)

(** C5: on [keys_scene] the effect enumerates the keys of the object once
    (seeing one key); adding key [b] and deleting key [a] both go through, yet
    the effect is never run again: [ownKeys] subscribed it under a fresh
    symbol, and [set] / [deleteProperty] trigger only the key they touch. *)
Theorem enumeration_not_retriggered :
  returns 2 keys_scene empty_state = true
  ∧ heap_keys (final 2 keys_scene empty_state) 0 = [KStr "b"]
  ∧ runs 1 (log (final 2 keys_scene empty_state)) = 1
  ∧ reverse (log (final 2 keys_scene empty_state)) =
      [EvRun 1 []; EvCleanup 1; EvRead 1 0 (KSym 2); EvOut (VNum 1)].
Proof. vm_compute. repeat split. Qed.

(** The sibling path does work: an effect that tested ['a' in o] is run again
    when [a] is deleted. *)
Example has_is_retriggered :
  returns 2 has_scene empty_state = true
  ∧ runs 1 (log (final 2 has_scene empty_state)) = 2.
Proof. vm_compute. repeat split. Qed.

(** ** The job queue *)

Lemma top_level_runs_app l1 l2 :
  top_level_runs (l1 ++ l2) = top_level_runs l2 ++ top_level_runs l1.
Proof. unfold top_level_runs. by rewrite reverse_app, omap_app. Qed.

Lemma top_level_runs_nested stk0 evs :
  stk0 ≠ [] →
  (∀ e stk, EvRun e stk ∈ evs → stk0 `suffix_of` stk) →
  top_level_runs evs = [].
Proof.
  intros Hne Hall. unfold top_level_runs.
  assert (∀ ev, ev ∈ reverse evs →
            match ev with EvRun e [] => Some e | _ => None end = None) as Hnone.
  { intros ev Hin. rewrite elem_of_reverse in Hin. destruct ev as [| |e stk| | |]; try done.
    destruct stk; [|done]. apply Hall in Hin. apply suffix_nil_inv in Hin. done. }
  induction (reverse evs) as [|ev l IH]; [done|]. simpl.
  rewrite Hnone by left. apply IH. intros ev' H'. apply Hnone. by right.
Qed.

Lemma queue_step_refl st : queue_step st st.
Proof.
  split; try done. exists []. split; [done|]. split; intros; by apply not_elem_of_nil in H.
Qed.

Lemma queue_step_trans st1 st2 st3 :
  queue_step st1 st2 → queue_step st2 st3 → queue_step st1 st3.
Proof.
  intros [S1 (evs1 & L1 & R1 & Q1) P1 N1] [S2 (evs2 & L2 & R2 & Q2) P2 N2].
  split; [congruence| |by etrans|auto].
  exists (evs2 ++ evs1). split; [by rewrite L2, L1, app_assoc|]. split.
  - intros e stk [H|H]%elem_of_app; [rewrite <- S1; by eapply R2|by eapply R1].
  - intros j [H|H]%elem_of_app; [by apply Q2|].
    destruct P2 as [k ->]. apply elem_of_app. left. by apply Q1.
Qed.

(** Steps that touch neither the stack nor the pending set and log no run. *)
Lemma queue_step_frame st st' evs :
  effectStack st' = effectStack st → pendingJobs st' = pendingJobs st →
  log st' = evs ++ log st →
  (∀ e stk, EvRun e stk ∉ evs) → (∀ j, EvQueue j ∉ evs) →
  queue_step st st'.
Proof.
  intros Hs Hp Hl Hr Hq. split; [done| |by rewrite Hp|by rewrite Hp].
  exists evs. split; [done|]. split; [intros e stk H; by apply Hr in H|].
  intros j H. by apply Hq in H.
Qed.

Lemma queue_step_track t k st : queue_step st (track t k st).
Proof.
  unfold track. destruct (activeEffect st) as [a|]; [|apply queue_step_refl].
  case_decide; apply (queue_step_frame _ _ [EvRead a t k]); try done;
    intros; by intros [=]%list_elem_of_singleton.
Qed.

Lemma queue_step_queueJob j st : queue_step st (queueJob j st).
Proof.
  assert (pendingJobs (queueJob j st) = JSet.add j (pendingJobs st)) as Hp.
  { unfold queueJob. simpl. by destruct (isFlushing st). }
  split.
  - unfold queueJob. simpl. by destruct (isFlushing st).
  - exists [EvQueue j]. split; [unfold queueJob; simpl; by destruct (isFlushing st)|].
    split; [by intros e stk [=]%list_elem_of_singleton|].
    intros j' [= ->]%list_elem_of_singleton. rewrite Hp. apply elem_of_add. by left.
  - rewrite Hp. unfold JSet.add. case_decide; [done|]. by apply prefix_app_r.
  - rewrite Hp. apply NoDup_add.
Qed.

Lemma run_queue_step fuel p st v st' :
  run fuel p st = Some (v, st') → queue_step st st'.
Proof.
  revert p st v st'. apply (run_rule queue_step).
  - apply queue_step_refl.
  - apply queue_step_trans.
  - apply queue_step_track.
  - intros e st. apply (queue_step_frame _ _ [EvCleanup e]); try done;
      intros; by intros [=]%list_elem_of_singleton.
  - intros v st. apply (queue_step_frame _ _ [EvOut v]); try done;
      intros; by intros [=]%list_elem_of_singleton.
  - intros e st. apply (queue_step_frame _ _ [EvSched e]); try done;
      intros; by intros [=]%list_elem_of_singleton.
  - apply queue_step_queueJob.
  - intros. apply (queue_step_frame _ _ []); try done; intros; apply not_elem_of_nil.
  - intros. apply (queue_step_frame _ _ []); try done; intros; apply not_elem_of_nil.
  - intros. apply (queue_step_frame _ _ []); try done; intros; apply not_elem_of_nil.
  - intros. apply (queue_step_frame _ _ []); try done; intros; apply not_elem_of_nil.
  - intros e r st st2 _ [S2 (evs & L & R & Q) P N].
    change (effectStack (enter_effect e st)) with (e :: effectStack st) in *.
    change (pendingJobs (enter_effect e st)) with (pendingJobs st) in *.
    change (log (enter_effect e st))
      with (EvCleanup e :: EvRun e (effectStack st) :: log st) in *.
    split; [unfold popEffect; simpl; by rewrite S2| |done|done].
    change (pendingJobs (popEffect st2)) with (pendingJobs st2).
    change (log (popEffect st2)) with (log st2).
    exists (evs ++ [EvCleanup e; EvRun e (effectStack st)]).
    split; [by rewrite L, <- app_assoc|]. split; [|intros j [H|H]%elem_of_app; [by apply Q|]].
    + intros e' stk [H|H]%elem_of_app; [by eapply suffix_cons_l, R|].
      apply elem_of_cons in H as [[=]|H]. by apply list_elem_of_singleton in H as [= -> ->].
    + apply elem_of_cons in H as [[=]|H]. by apply list_elem_of_singleton in H.
Qed.

(** A job called by [flushJobs] (empty effect stack): the one effect function
    entered at the top level is the job itself. *)
Lemma call_effect_top_level fuel j st v st' :
  effectStack st = [] → call_effect (run fuel) j st = Some (v, st') →
  ∃ evs, log st' = evs ++ log st
         ∧ top_level_runs evs = [j]
         ∧ effectStack st' = []
         ∧ pendingJobs st `prefix_of` pendingJobs st'
         ∧ (NoDup (pendingJobs st) → NoDup (pendingJobs st'))
         ∧ (∀ j', EvQueue j' ∈ evs → j' ∈ pendingJobs st').
Proof.
  intros Hs. unfold call_effect.
  destruct (effectFns st !! j) as [r|]; [|done].
  destruct (run fuel (fn r) (enter_effect j st)) as [[v2 st2]|] eqn:Hrun; [|done].
  intros [= <- <-].
  destruct (run_queue_step _ _ _ _ _ Hrun) as [S2 (evs & L & R & Q) P N].
  change (effectStack (enter_effect j st)) with (j :: effectStack st) in *.
  change (pendingJobs (enter_effect j st)) with (pendingJobs st) in *.
  change (log (enter_effect j st))
    with (EvCleanup j :: EvRun j (effectStack st) :: log st) in *.
  change (pendingJobs (popEffect st2)) with (pendingJobs st2).
  change (log (popEffect st2)) with (log st2).
  change (effectStack (popEffect st2)) with (tail (effectStack st2)).
  rewrite Hs in *.
  exists (evs ++ [EvCleanup j; EvRun j []]).
  split; [by rewrite L, <- app_assoc|]. split.
  { rewrite top_level_runs_app. rewrite (top_level_runs_nested [j] evs); [done..|exact R]. }
  split; [by rewrite S2|]. split; [done|]. split; [done|].
  intros j' [H|H]%elem_of_app; [by apply Q|].
  apply elem_of_cons in H as [[=]|H]. by apply list_elem_of_singleton in H.
Qed.

Lemma flush_loop_visits fuel n i st st' :
  effectStack st = [] → NoDup (pendingJobs st) →
  flush_loop (run fuel) n i st = Some st' →
  ∃ evs, log st' = evs ++ log st
         ∧ effectStack st' = []
         ∧ pendingJobs st `prefix_of` pendingJobs st'
         ∧ NoDup (pendingJobs st')
         ∧ top_level_runs evs = drop i (pendingJobs st')
         ∧ (∀ j, EvQueue j ∈ evs → j ∈ pendingJobs st').
Proof.
  revert i st. induction n as [|n IH]; intros i st Hs Hnd; simpl.
  - destruct (pendingJobs st !! i) eqn:Hi; [done|]. intros [= <-].
    exists []. repeat (split; [done|]). split; [|intros j H; by apply not_elem_of_nil in H].
    apply lookup_ge_None in Hi. by rewrite drop_ge.
  - destruct (pendingJobs st !! i) as [j|] eqn:Hi.
    2:{ intros [= <-]. exists []. repeat (split; [done|]).
        split; [|intros j H; by apply not_elem_of_nil in H].
        apply lookup_ge_None in Hi. by rewrite drop_ge. }
    destruct (call_effect (run fuel) j st) as [[v st1]|] eqn:Hc; [|done].
    destruct (call_effect_top_level _ _ _ _ _ Hs Hc) as (evs1 & L1 & T1 & S1 & P1 & N1 & Q1).
    intros Hloop.
    destruct (IH (S i) st1 S1 (N1 Hnd) Hloop) as (evs2 & L2 & S2 & P2 & N2 & T2 & Q2).
    exists (evs2 ++ evs1). split; [by rewrite L2, L1, app_assoc|].
    split; [done|]. split; [by etrans|]. split; [done|]. split.
    + rewrite top_level_runs_app, T1, T2.
      assert (pendingJobs st' !! i = Some j) as Hj.
      { eapply prefix_lookup_Some; [exact Hi|by etrans]. }
      by rewrite (drop_S _ _ _ Hj).
    + intros j' [H|H]%elem_of_app; [by apply Q2|].
      destruct P2 as [k ->]. apply elem_of_app. left. by apply Q1.
Qed.
Lemma Queues_Quiet A p : Queues A p → Quiet p.
Proof. induction 1; constructor; auto. Qed.

Lemma exec_queues rec A p st :
  Queues A p →
  ∃ v st', exec rec p st = Some (v, st')
           ∧ effectFns st' = effectFns st
           ∧ ∀ j, j ∈ pendingJobs st' → j ∈ pendingJobs st ∨ A j.
Proof.
  intros HQ. revert st.
  induction HQ as [v|t k c _ IH|c _ IH|j c Hj _ IH|t k c _ IH|t k c _ IH|t c _ IH
                  |c _ IH|c _ IH|v c _ IH]; intros st; simpl; try apply IH.
  - exists v, st. auto.
  - destruct (IH (track t k st)) as (v & st' & Hx & F & P). exists v, st'.
    assert (effectFns (track t k st) = effectFns st
            ∧ pendingJobs (track t k st) = pendingJobs st) as [Hf Hp].
    { unfold track. destruct (activeEffect st); [|done]. by case_decide. }
    rewrite Hf, Hp in *. done.
  - destruct (IH (queueJob j st)) as (v & st' & Hx & F & P). exists v, st'.
    split; [done|]. split.
    + rewrite F. unfold queueJob. simpl. by destruct (isFlushing st).
    + intros j' Hin. destruct (P j' Hin) as [H|H]; [|by right].
      assert (pendingJobs (queueJob j st) = JSet.add j (pendingJobs st)) as Hp.
      { unfold queueJob. simpl. by destruct (isFlushing st). }
      rewrite Hp, elem_of_add in H. destruct H as [->|H]; auto.
  - destruct (IH (KSym (nextId st)) (with_nextId (S (nextId st)) st)) as (v & st' & Hx & F & P).
    by exists v, st'.
  - destruct (IH (nextId st) (with_nextId (S (nextId st)) st)) as (v & st' & Hx & F & P).
    by exists v, st'.
  - destruct (IH (emit (EvOut v) st)) as (v' & st' & Hx & F & P). by exists v', st'.
Qed.

Lemma length_le_size {V} (m : gmap EffId V) (l : list EffId) :
  NoDup l → (∀ x, x ∈ l → is_Some (m !! x)) → length l ≤ size m.
Proof.
  intros Hnd Hin. rewrite <- length_map_to_list, <- (length_fmap fst).
  apply submseteq_length, NoDup_submseteq; [done|].
  intros x [v Hv]%Hin. apply list_elem_of_fmap. exists (x, v).
  split; [done|]. by apply elem_of_map_to_list.
Qed.

(** Jobs that are quiet closures queueing existing effect functions: a flush
    returns within a budget of as many visits as there are effect functions. *)
Lemma flush_loop_returns fuel n i st :
  (∀ j r, effectFns st !! j = Some r →
          Queues (λ j', is_Some (effectFns st !! j')) (fn r)) →
  (∀ j, j ∈ pendingJobs st → is_Some (effectFns st !! j)) →
  NoDup (pendingJobs st) → effectStack st = [] →
  size (effectFns st) ≤ n + i →
  is_Some (flush_loop (run (S fuel)) n i st).
Proof.
  revert i st. induction n as [|n IH]; intros i st Hjobs Hpend Hnd Hs Hn.
  - simpl. destruct (pendingJobs st !! i) as [j|] eqn:Hi; [|by eexists].
    apply lookup_lt_Some in Hi.
    pose proof (length_le_size (effectFns st) (pendingJobs st) Hnd Hpend). lia.
  - simpl. destruct (pendingJobs st !! i) as [j|] eqn:Hi; [|by eexists].
    destruct (Hpend j) as [r Hr]; [by eapply list_elem_of_lookup_2|].
    unfold call_effect. rewrite Hr.
    destruct (exec_queues (run fuel) _ (fn r) (enter_effect j st) (Hjobs j r Hr))
      as (v & st2 & Hx & F & P).
    rewrite Hx.
    destruct (run_queue_step (S fuel) _ _ _ _ Hx) as [S2 _ _ N2].
    change (effectFns (enter_effect j st)) with (effectFns st) in F.
    apply IH.
    + intros j' r'. simpl. rewrite F. apply Hjobs.
    + intros j' Hin. simpl in *. rewrite F. destruct (P j' Hin) as [H|H]; auto.
    + apply N2, Hnd.
    + simpl. rewrite S2. simpl. done.
    + simpl. rewrite F. lia.
Qed.
(** C6 (as amended): a flush walks the live pending set once, in insertion
    order: the effect functions it calls are, without repetition, the jobs
    pending when it began followed by every job queued while the pass was
    running; then the set is empty and the scheduling flag is reset.  With jobs
    that are quiet closures queueing existing effect functions the flush
    returns. *)
Theorem flush_visits_live_set fuel n st :
  effectStack st = [] → NoDup (pendingJobs st) →
  (∀ st', flushJobs (run fuel) n st = Some st' →
     ∃ evs,
       log st' = evs ++ log st
       ∧ pendingJobs st' = [] ∧ isFlushing st' = false
       ∧ NoDup (top_level_runs evs)
       ∧ pendingJobs st `prefix_of` top_level_runs evs
       ∧ (∀ j, EvQueue j ∈ evs → j ∈ top_level_runs evs))
  ∧ ((∀ j r, effectFns st !! j = Some r →
             Queues (λ j', is_Some (effectFns st !! j')) (fn r)) →
     (∀ j, j ∈ pendingJobs st → is_Some (effectFns st !! j)) →
     size (effectFns st) ≤ n →
     is_Some (flushJobs (run (S fuel)) n st)).
Proof.
  intros Hs Hnd. split.
  - intros st'. unfold flushJobs.
    destruct (flush_loop (run fuel) n 0 st) as [s1|] eqn:Hloop; [|done].
    intros [= <-].
    destruct (flush_loop_visits _ _ _ _ _ Hs Hnd Hloop) as (evs & L & S1 & P & N & T & Q).
    rewrite drop_0 in T.
    exists evs. simpl. rewrite T. done.
  - intros Hjobs Hpend Hn. unfold flushJobs.
    destruct (flush_loop_returns fuel n 0 st Hjobs Hpend Hnd Hs) as [s1 ->]; [lia|].
    by eexists.
Qed.

Lemma flush_visits_live_set_witness :
  ∃ evs,
    log (after_microtask 3 st_queue) = evs ++ log st_flush
    ∧ pendingJobs (after_microtask 3 st_queue) = []
    ∧ isFlushing (after_microtask 3 st_queue) = false
    ∧ NoDup (top_level_runs evs)
    ∧ pendingJobs st_flush `prefix_of` top_level_runs evs
    ∧ (∀ j, EvQueue j ∈ evs → j ∈ top_level_runs evs).
Proof.
  apply (proj1 (flush_visits_live_set 3 3 st_flush
                  ltac:(vm_compute; reflexivity)
                  ltac:(vm_compute; apply NoDup_singleton))).
  vm_compute. reflexivity.
Defined.

(** The claim as it stands fails: on [st_queue] only job 2 is pending when the
    flush starts; running it queues job 3, and job 3 is called in the very
    same pass. *)
Lemma flush_counterexample :
  pendingJobs st_queue = [2]
  ∧ EvQueue 3 ∈ pass_events 3 st_queue
  ∧ top_level_runs (pass_events 3 st_queue) = [2; 3]
  ∧ pendingJobs (after_microtask 3 st_queue) = [].
Proof.
  split; [vm_compute; reflexivity|].
  assert (reverse (pass_events 3 st_queue) =
          [EvRun 2 []; EvCleanup 2; EvRead 2 0 (KStr "value");
           EvSched 3; EvQueue 3;
           EvRun 3 []; EvCleanup 3; EvRead 3 1 (KStr "value"); EvOut (VNum 1)]) as Hev
    by (vm_compute; reflexivity).
  split.
  { rewrite <- (elem_of_reverse (EvQueue 3) (pass_events 3 st_queue)), Hev.
    repeat (first [left | right]). }
  split; vm_compute; reflexivity.
Qed.

(** ** Identity of reactive proxies *)

Module ReactiveFacts.
Import Reactive.

(** Wrapping is cached: the same target yields the same proxy again. *)
Lemma reactive_cached target s p s' :
  reactive target s = (p, s') → reactive target s' = (p, s').
Proof.
  unfold reactive. destruct (reactiveMap s !! target) as [q|] eqn:Hq.
  - intros [= <- <-]. by rewrite Hq.
  - destruct (truthy (get_IS_REACTIVE s target)) eqn:Hf.
    + intros [= <- <-]. by rewrite Hq, Hf.
    + intros [= <- <-]. simpl. by rewrite lookup_insert_eq.
Qed.

(** A proxy that is not itself a key of the cache is returned as it is. *)
Lemma reactive_proxy p t s :
  proxyTarget s !! p = Some t → reactiveMap s !! p = None → reactive p s = (p, s).
Proof.
  intros Hp Hr. unfold reactive, get_IS_REACTIVE. by rewrite Hr, Hp.
Qed.

(** What [markRaw] leaves on the object. *)
Lemma markRaw_flag x s :
  proxyTarget s !! x = None →
  get_IS_REACTIVE (markRaw x s).2 x = VBool false.
Proof.
  intros Hp. unfold markRaw, get_IS_REACTIVE. simpl. rewrite Hp. simpl.
  rewrite lookup_insert_eq. simpl. by rewrite lookup_insert_eq.
Qed.

(** A plain object not wrapped before is wrapped in a fresh proxy even after
    [markRaw]: the flag it sets is falsy. *)
Lemma reactive_after_markRaw x s :
  proxyTarget s !! x = None → reactiveMap s !! x = None →
  (reactive x (markRaw x s).2).1 = next s.
Proof.
  intros Hp Hr. unfold reactive.
  change (reactiveMap (markRaw x s).2) with (reactiveMap s). rewrite Hr.
  rewrite (markRaw_flag x s Hp). done.
Qed.
End ReactiveFacts.

(** C4: [markRaw(x)] followed by [reactive(x)] on a fresh object [x] does not
    return [x]: it returns a new proxy whose target is [x], and [isReactive]
    holds of it; the flag [markRaw] defined reads [false]. *)
Theorem markRaw_object_is_wrapped :
  let s1 := (Reactive.new_object Reactive.empty).2 in
  let x := (Reactive.new_object Reactive.empty).1 in
  let s2 := (Reactive.markRaw x s1).2 in
  let p := (Reactive.reactive x s2).1 in
  let s3 := (Reactive.reactive x s2).2 in
  Reactive.get_IS_REACTIVE s2 x = VBool false
  ∧ p ≠ x
  ∧ Reactive.proxyTarget s3 !! p = Some x
  ∧ Reactive.isReactive s3 p = true.
Proof. vm_compute. repeat split; congruence. Qed.

(** The other half of the claim holds: a proxy handed to [reactive] comes back
    unchanged, and a wrapped target keeps its proxy. *)
Example reactive_is_identity_stable :
  let s1 := (Reactive.new_object Reactive.empty).2 in
  let p := (Reactive.reactive 0 s1).1 in
  let s2 := (Reactive.reactive 0 s1).2 in
  Reactive.reactive p s2 = (p, s2) ∧ Reactive.reactive 0 s2 = (p, s2).
Proof. vm_compute. split; reflexivity. Qed.

(** ** createApp *)

Module AppFacts.
Import Renderer.



(** The message names the selector. *)
Example not_found_message :
  not_found (BySelector "#nope") = "Mount target " +:+ quote +:+ "#nope" +:+ quote +:+ " not found".
Proof. reflexivity. Qed.
End AppFacts.

(** ** Unmounting *)

Module UnmountFacts.
Import Renderer.

Lemma invokeLifecycleHooks_trace hooks context st :
  trace (invokeLifecycleHooks hooks context st) = hook_events context hooks ++ trace st
  ∧ core (invokeLifecycleHooks hooks context st) = core st.
Proof.
  unfold invokeLifecycleHooks, hook_events. revert st.
  induction hooks as [|h hooks IH]; intros st; [done|].
  cbn [foldl flat_map]. destruct (IH (if hook_throws h
            then record (RHookError context (hook_id h)) (record (RHook context (hook_id h)) st)
            else record (RHook context (hook_id h)) st)) as [IHt IHc].
  rewrite IHt, IHc. rewrite reverse_app.
  destruct (hook_throws h); simpl; rewrite <- app_assoc; done.
Qed.

Lemma knows_its_edges_cleanup e e' c :
  knows_its_edges e c → knows_its_edges e (cleanup e' c).
Proof.
  intros H t k. rewrite subs_cleanup, edeps_cleanup.
  destruct (decide (e = e')) as [->|Hne].
  - case_decide as Hin.
    + rewrite elem_of_delete. tauto.
    + intros Hs. by apply H in Hs.
  - case_decide; [rewrite elem_of_delete; intros [_ Hs]|intros Hs]; by apply H.
Qed.

Lemma unmount_step_refl st : unmount_step st st.
Proof. split; [by exists []|auto]. Qed.

Lemma unmount_step_trans st1 st2 st3 :
  unmount_step st1 st2 → unmount_step st2 st3 → unmount_step st1 st3.
Proof.
  intros [[e1 H1] K1] [[e2 H2] K2]. split; [|auto].
  exists (e2 ++ e1). by rewrite H2, H1, app_assoc.
Qed.

Lemma unmount_step_record ev st : unmount_step st (record ev st).
Proof. split; [by exists [ev]|auto]. Qed.

(** The three cases of [unmount]. *)
Lemma unmount_component f props children key el subTree isMounted update mounted
    unmounted updated c a svg vanchor st :
  unmount (mkVNode (TComponent f) props children key el
             (Some (mkInstance subTree isMounted update mounted unmounted updated c a svg))
             vanchor) st =
    let st1 := invokeLifecycleHooks unmounted "onUnmounted" st in
    let st2 := match subTree with Some sub => unmount sub st1 | None => st1 end in
    match update with Some e => cleanup_effect e st2 | None => st2 end.
Proof. reflexivity. Qed.

Lemma unmount_fragment props children key el component vanchor st :
  unmount (mkVNode TFragment props children key el component vanchor) st =
    let st1 := each_vnode unmount children st in
    match vanchor with Some a => dom (RemoveFromParent a) st1 | None => st1 end.
Proof. reflexivity. Qed.

Lemma unmount_plain type props children key el component vanchor st :
  type ≠ TFragment → (∀ f, type = TComponent f → component = None) →
  unmount (mkVNode type props children key el component vanchor) st =
    let st1 := each_vnode unmount children st in
    match el with Some n => dom (RemoveFromParent n) st1 | None => st1 end.
Proof.
  intros Hf Hc. destruct type as [tag| | |f]; try done.
  rewrite (Hc f eq_refl). reflexivity.
Qed.

Lemma unmount_unmount_step : ∀ v st, unmount_step st (unmount v st).
Proof.
  fix IH 1. intros [type props children key el component vanchor] st.
  assert (Hchildren : ∀ s, unmount_step s (each_vnode unmount children s)).
  { clear -IH. induction children as [|c cs IHcs]; intros s; [apply unmount_step_refl|].
    destruct c as [v| | | | |]; simpl; try apply IHcs.
    eapply unmount_step_trans; [apply IH|apply IHcs]. }
  assert (Hplain : unmount_step st
            (let st1 := each_vnode unmount children st in
             match el with Some n => dom (RemoveFromParent n) st1 | None => st1 end)).
  { simpl. eapply unmount_step_trans; [apply Hchildren|].
    destruct el; [apply unmount_step_record|apply unmount_step_refl]. }
  destruct type as [tag| | |f].
  - rewrite unmount_plain by done. exact Hplain.
  - rewrite unmount_fragment. eapply unmount_step_trans; [apply Hchildren|].
    destruct vanchor; [apply unmount_step_record|apply unmount_step_refl].
  - rewrite unmount_plain by done. exact Hplain.
  - destruct component as [[subTree isMounted update mounted unmounted updated c a svg]|].
    2:{ rewrite unmount_plain by done. exact Hplain. }
    rewrite unmount_component.
    destruct (invokeLifecycleHooks_trace unmounted "onUnmounted" st) as [Ht Hc].
    cbv zeta.
    eapply unmount_step_trans.
    { split; [eexists; exact Ht|by rewrite Hc]. }
    apply (unmount_step_trans _
             (match subTree with
              | Some sub => unmount sub (invokeLifecycleHooks unmounted "onUnmounted" st)
              | None => invokeLifecycleHooks unmounted "onUnmounted" st
              end)).
    { destruct subTree as [sub|]; [apply IH|apply unmount_step_refl]. }
    destruct update as [e|]; [|apply unmount_step_refl].
    split; [by exists [RCleanup e]|]. intros e' H. by apply knows_its_edges_cleanup.
Qed.

(** C8: unmounting a component vnode adds to the trace, in this order, the
    calls of all its unmount callbacks (each one, whether or not an earlier
    one threw), then whatever unmounting its rendered subtree records, then
    the cleanup of its update effect; after that the effect is in no
    dependency set. *)
Theorem unmount_component_order f props children key el subTree isMounted update
    mounted unmounted updated c a svg vanchor st :
  let v := mkVNode (TComponent f) props children key el
             (Some (mkInstance subTree isMounted update mounted unmounted updated c a svg))
             vanchor in
  let st1 := invokeLifecycleHooks unmounted "onUnmounted" st in
  let st2 := match subTree with Some sub => unmount sub st1 | None => st1 end in
  ∃ sub_events,
    trace st1 = hook_events "onUnmounted" unmounted ++ trace st
    ∧ trace st2 = sub_events ++ trace st1
    ∧ trace (unmount v st) =
        match update with Some e => [RCleanup e] | None => [] end
        ++ sub_events ++ hook_events "onUnmounted" unmounted ++ trace st
    ∧ (∀ e, update = Some e →
         core (unmount v st) = cleanup e (core st2)
         ∧ (knows_its_edges e (core st) → ∀ t k, e ∉ subs (core (unmount v st)) t k)).
Proof.
  intros v st1 st2.
  destruct (invokeLifecycleHooks_trace unmounted "onUnmounted" st) as [Ht Hc].
  fold st1 in Ht, Hc.
  assert (unmount_step st1 st2) as [[sub_events Hsub] Hk].
  { unfold st2. destruct subTree; [apply unmount_unmount_step|apply unmount_step_refl]. }
  exists sub_events. split; [exact Ht|]. split; [exact Hsub|].
  assert (unmount v st = match update with Some e => cleanup_effect e st2 | None => st2 end)
    as -> by apply unmount_component.
  split.
  - destruct update as [e|].
    + change (trace (cleanup_effect e st2)) with (RCleanup e :: trace st2).
      by rewrite Hsub, Ht.
    + by rewrite Hsub, Ht.
  - intros e ->. split; [done|]. intros Hknow t k.
    change (core (cleanup_effect e st2)) with (cleanup e (core st2)).
    assert (knows_its_edges e (core st2)) as Hk2.
    { apply Hk. by rewrite Hc. }
    rewrite subs_cleanup. case_decide as Hin.
    + rewrite elem_of_delete. tauto.
    + intros Hs. by apply Hk2 in Hs.
Qed.
Example widget_is_committed : committed mounted_widget !! 1 = Some widget_vnode.
Proof. vm_compute. reflexivity. Qed.

Lemma knows_its_edges_track e t k c :
  knows_its_edges e c → knows_its_edges e (track t k c).
Proof.
  intros H t' k'. rewrite subs_track, edeps_track.
  destruct (activeEffect c) as [a|]; [|case_decide as Hd; [destruct Hd as [-> ->]|]; apply H].
  destruct (decide (t' = t ∧ k' = k)) as [[-> ->]|Hne].
  - rewrite elem_of_add. destruct (decide (e = a ∧ a ∉ subs c t k)) as [[-> Hn]|Hn].
    + rewrite elem_of_add. auto.
    + intros [->|Hs]; [|by apply H].
      apply H. destruct (decide (a ∈ subs c t k)); tauto.
  - intros Hs%H. case_decide as Hd; [|done]. destruct Hd as [-> _].
    apply elem_of_add. by right.
Qed.

Lemma knows_its_edges_pop e c : knows_its_edges e c → knows_its_edges e (popEffect c).
Proof. exact id. Qed.

Lemma knows_its_edges_enter e e' c :
  knows_its_edges e c → knows_its_edges e (enter_effect e' c).
Proof.
  intros H. unfold enter_effect.
  change (knows_its_edges e (cleanup e' (emit (EvRun e' (effectStack c)) c))).
  apply knows_its_edges_cleanup. exact H.
Qed.

Lemma knows_its_edges_fresh e n c :
  knows_its_edges e c → knows_its_edges e (with_nextId n c).
Proof. exact id. Qed.

Lemma knows_its_edges_empty e : knows_its_edges e empty_state.
Proof.
  intros t k. unfold subs, dep_set. simpl. rewrite lookup_empty. simpl.
  by intros ?%not_elem_of_nil.
Qed.

Lemma knows_its_edges_mounted_widget : knows_its_edges 0 (core mounted_widget).
Proof.
  assert (core mounted_widget =
          popEffect (track 5 (KStr "value") (enter_effect 0 (with_nextId 1 empty_state))))
    as -> by (vm_compute; reflexivity).
  apply knows_its_edges_pop, knows_its_edges_track, knows_its_edges_enter,
    knows_its_edges_fresh, knows_its_edges_empty.
Qed.

Lemma unmount_component_order_witness :
  subs (core mounted_widget) 5 (KStr "value") = [0]
  ∧ 0 ∉ subs (core (unmount widget_vnode mounted_widget)) 5 (KStr "value").
Proof.
  split; [vm_compute; reflexivity|].
  destruct (unmount_component_order widget [] [] None None (Some widget_subtree) true
              (Some 0) [mkHook 1 false] [mkHook 2 true; mkHook 3 false] [] 1 None false
              None mounted_widget) as (evs & _ & _ & _ & H).
  apply (H 0 eq_refl). apply knows_its_edges_mounted_widget.
Defined.

(** On the mounted widget: both callbacks are called (the first throws and is
    reported), then the subtree's element is removed, then the effect is
    cleaned up. *)
Example unmount_widget_trace :
  reverse (take 5 (trace (unmount widget_vnode mounted_widget))) =
    [RHook "onUnmounted" 2; RHookError "onUnmounted" 2; RHook "onUnmounted" 3;
     RDom (RemoveFromParent 100); RCleanup 0].
Proof. vm_compute. reflexivity. Qed.
End UnmountFacts.

(** ** Child reconciliation *)

Module PatchFacts.
Import Renderer.

(** Patching vnodes of the same type is in place: the new vnode takes over
    the realized output of the old one and keeps its own key. *)
Lemma patch_in_place o n container anchor isSVG st :
  same_type (v_type o) (v_type n) = true →
  v_el (patch o n container anchor isSVG st).1 = v_el o
  ∧ v_key (patch o n container anchor isSVG st).1 = v_key n.
Proof.
  intros H. destruct n as [type props children key el comp anc].
  simpl in H. simpl. rewrite H. simpl.
  destruct type as [tag| | |[cid reads hm hu hup output]].
  - destruct (v_el o); [|done].
    match goal with |- context [patchChildren ?p ?a ?b ?c ?d ?e ?f] =>
      destruct (patchChildren p a b c d e f) end. done.
  - match goal with |- context [patchChildren ?p ?a ?b ?c ?d ?e ?f] =>
      destruct (patchChildren p a b c d e f) end. done.
  - done.
  - destruct (v_component o) as [[subTree isMounted update mounted unmounted updated c a svg]|];
      [|done].
    destruct (negb _); [done|]. destruct update; [|done].
    repeat match goal with
           | |- context [match ?x with _ => _ end] => destruct x
           end; done.
Qed.

(** Patching vnodes of different types replaces the old one. *)
Lemma patch_replaces o n container anchor isSVG st :
  same_type (v_type o) (v_type n) = false →
  patch o n container anchor isSVG st = mount n container anchor isSVG (unmount o st).
Proof.
  intros H. destruct n as [type props children key el comp anc].
  simpl in H. simpl. by rewrite H.
Qed.

(** *** The keyed pool *)

Lemma jmap_set_fresh {V} k (v : V) m :
  k ∉ m.*1 → jmap_set k v m = m ++ [(k, v)].
Proof.
  induction m as [|[k' v'] m IH]; intros Hk; simpl; [done|].
  rewrite fmap_cons, not_elem_of_cons in Hk. destruct Hk as [Hne Hk].
  rewrite decide_False by (simpl in Hne; congruence). by rewrite IH.
Qed.

Lemma jmap_get_delete_ne {V} k k' (m : list (VKey * V)) :
  k ≠ k' → jmap_get k (jmap_delete k' m) = jmap_get k m.
Proof.
  intros Hne. unfold jmap_delete. induction m as [|[k0 v0] m IH]; [done|].
  rewrite filter_cons. simpl. destruct (decide (k0 = k')) as [->|Hk0].
  - rewrite decide_False by (simpl; tauto). rewrite decide_False by congruence. exact IH.
  - rewrite decide_True by (simpl; congruence). simpl.
    destruct (decide (k0 = k)); [done|exact IH].
Qed.

Lemma jmap_get_zip ks (vs : list VNode) k :
  length ks = length vs →
  k ∈ ks → ∃ v, jmap_get k (zip ks vs) = Some v ∧ v ∈ vs
                ∧ ∃ i, ks !! i = Some k ∧ vs !! i = Some v.
Proof.
  revert vs. induction ks as [|k0 ks IH]; intros [|v0 vs] Hlen Hin; simplify_eq/=.
  - by apply not_elem_of_nil in Hin.
  - destruct (decide (k0 = k)) as [->|Hne].
    + exists v0. split; [done|]. split; [left|]. by exists 0.
    + apply elem_of_cons in Hin as [->|Hin]; [done|].
      destruct (IH vs Hlen Hin) as (v & Hg & Hv & i & Hi1 & Hi2).
      exists v. split; [done|]. split; [by right|]. by exists (S i).
Qed.

Lemma jmap_delete_all (m : list (VKey * VNode)) ks :
  (∀ kv, kv ∈ m → kv.1 ∈ ks) →
  foldl (λ m k, jmap_delete k m) m ks = [].
Proof.
  revert m. induction ks as [|k ks IH]; intros m Hall; simpl.
  - destruct m as [|kv m]; [done|]. specialize (Hall kv ltac:(left)).
    by apply not_elem_of_nil in Hall.
  - apply IH. intros kv [Hne Hin]%list_elem_of_filter.
    apply Hall in Hin. apply elem_of_cons in Hin as [Heq|Hin]; [done|done].
Qed.

Lemma collect_keyed_nodes os ks :
  Forall2 (λ o k, v_key o = Some k) os ks → NoDup ks →
  collect_keyed (CNode <$> os) = zip ks os.
Proof.
  unfold collect_keyed.
  assert (∀ acc, Forall2 (λ o k, v_key o = Some k) os ks → NoDup (acc.*1 ++ ks) →
            foldl (λ m child,
                     match child with
                     | CNode v => match v_key v with Some k => jmap_set k v m | None => m end
                     | _ => m
                     end) acc (CNode <$> os) = acc ++ zip ks os) as Hgen.
  { intros acc HF. revert acc. induction HF as [|o k os ks Hk HF IH]; intros acc Hnd; simpl.
    - by rewrite app_nil_r.
    - rewrite Hk. rewrite jmap_set_fresh.
      + rewrite IH; [by rewrite <- app_assoc|].
        rewrite fmap_app. simpl. by rewrite <- app_assoc.
      + apply NoDup_app in Hnd as (_ & Hd & _). intros Hin. apply (Hd k Hin). left. }
  intros HF Hnd. rewrite (Hgen [] HF); done.
Qed.

Lemma collect_unkeyed_keyed os ks :
  Forall2 (λ o k, v_key o = Some k) os ks → collect_unkeyed (CNode <$> os) = [].
Proof.
  enough (∀ acc, Forall2 (λ o k, v_key o = Some k) os ks →
            foldl (λ l child,
                     match child with
                     | CNode v => match v_key v with Some _ => l | None => l ++ [v] end
                     | _ => l
                     end) acc (CNode <$> os) = acc) as Hgen by (intros; by apply Hgen).
  intros acc HF. revert acc. induction HF as [|o k os ks Hk HF IH]; intros acc; simpl; [done|].
  rewrite Hk. apply IH.
Qed.

Lemma collect_keyed_unkeyed os :
  Forall (λ o, v_key o = None) os → collect_keyed (CNode <$> os) = [].
Proof.
  enough (∀ acc, Forall (λ o, v_key o = None) os →
            foldl (λ m child,
                     match child with
                     | CNode v => match v_key v with Some k => jmap_set k v m | None => m end
                     | _ => m
                     end) acc (CNode <$> os) = acc) as Hgen by (intros; by apply Hgen).
  intros acc HF. revert acc. induction HF as [|o os Hk HF IH]; intros acc; simpl; [done|].
  rewrite Hk. apply IH.
Qed.

Lemma collect_unkeyed_nodes os :
  Forall (λ o, v_key o = None) os → collect_unkeyed (CNode <$> os) = os.
Proof.
  unfold collect_unkeyed.
  assert (∀ acc, Forall (λ o, v_key o = None) os →
            foldl (λ l child,
                     match child with
                     | CNode v => match v_key v with Some _ => l | None => l ++ [v] end
                     | _ => l
                     end) acc (CNode <$> os) = acc ++ os) as Hgen.
  { intros acc HF. revert acc. induction HF as [|o os Hk HF IH]; intros acc; simpl.
    - by rewrite app_nil_r.
    - rewrite Hk, IH. by rewrite <- app_assoc. }
  intros HF. by rewrite (Hgen [] HF).
Qed.

Lemma single_text_nodes vs : single_text (CNode <$> vs) = None.
Proof. destruct vs as [|v [|v' vs]]; done. Qed.

Lemma hasOnlyVNodeChildren_nodes os ns :
  hasOnlyVNodeChildren (CNode <$> os) (CNode <$> ns) = true.
Proof.
  unfold hasOnlyVNodeChildren. apply andb_true_intro. split;
    apply forallb_forall; intros c Hin; apply in_map_iff in Hin as (v & <- & _); done.
Qed.

(** *** The pass over the new children *)

Lemma reconcile_keyed pool unk container anchor isSVG ns ks cur idx st :
  Forall2 (λ n k, v_key n = Some k) ns ks → NoDup ks →
  (∀ k, k ∈ ks → is_Some (jmap_get k pool) ∧ jmap_get k cur = jmap_get k pool) →
  reconcile patch unk container anchor isSVG (CNode <$> ns) cur idx st =
    let '(r, st') := patch_by_key pool ns container anchor isSVG st in
    (CNode <$> r, (foldl (λ m k, jmap_delete k m) cur ks, idx, st')).
Proof.
  intros HF. revert cur st.
  induction HF as [|n k ns ks Hk HF IH]; intros cur st Hnd Hpool; [done|].
  apply NoDup_cons in Hnd as [Hk_new Hnd].
  destruct (Hpool k ltac:(left)) as [[o Ho] Hcur].
  cbn [fmap list_fmap reconcile patch_by_key foldl].
  change (reconcile patch unk container anchor isSVG (CNode n :: (CNode <$> ns)) cur idx st)
    with (let '(oldChild, oldKeyed', unkeyedIndex') :=
            match v_key n with
            | Some k =>
                match jmap_get k cur with
                | Some o => (Some o, jmap_delete k cur, idx)
                | None => (None, cur, idx)
                end
            | None => (unk !! idx, cur, S idx)
            end in
          let '(newChild', st1) :=
            match oldChild with
            | Some o => patch o n container anchor isSVG st
            | None => mount n container anchor isSVG st
            end in
          let '(r, fin) := reconcile patch unk container anchor isSVG (CNode <$> ns)
                             oldKeyed' unkeyedIndex' st1 in
          (CNode newChild' :: r, fin)).
  unfold matched. rewrite Hk. simpl. rewrite Hcur, Ho.
  destruct (patch o n container anchor isSVG st) as [n' st1].
  rewrite IH; [|done|].
  - by destruct (patch_by_key pool ns container anchor isSVG st1).
  - intros k' Hk'. destruct (Hpool k' ltac:(by right)) as [Hs Hc]. split; [done|].
    rewrite jmap_get_delete_ne; [done|]. intros ->. done.
Qed.

Lemma lookup_head_drop {A} (l : list A) i : l !! i = head (drop i l).
Proof. revert i. induction l as [|x l IH]; intros [|i]; simpl; auto. Qed.

Lemma tail_drop {A} (l : list A) i : tail (drop i l) = drop (S i) l.
Proof.
  revert i. induction l as [|x l IH]; intros [|i]; simpl; rewrite ?drop_0; auto.
Qed.

Lemma reconcile_unkeyed os container anchor isSVG ns pool idx st :
  Forall (λ n, v_key n = None) ns →
  reconcile patch os container anchor isSVG (CNode <$> ns) pool idx st =
    let '(r, st') := patch_by_position (drop idx os) ns container anchor isSVG st in
    (CNode <$> r, (pool, idx + length ns, st')).
Proof.
  intros HF. revert idx st.
  induction HF as [|n ns Hk HF IH]; intros idx st.
  { simpl. by rewrite Nat.add_0_r. }
  change (reconcile patch os container anchor isSVG (CNode <$> n :: ns) pool idx st)
    with (let '(oldChild, oldKeyed', unkeyedIndex') :=
            match v_key n with
            | Some k =>
                match jmap_get k pool with
                | Some o => (Some o, jmap_delete k pool, idx)
                | None => (None, pool, idx)
                end
            | None => (os !! idx, pool, S idx)
            end in
          let '(newChild', st1) :=
            match oldChild with
            | Some o => patch o n container anchor isSVG st
            | None => mount n container anchor isSVG st
            end in
          let '(r, fin) := reconcile patch os container anchor isSVG (CNode <$> ns)
                             oldKeyed' unkeyedIndex' st1 in
          (CNode newChild' :: r, fin)).
  rewrite Hk. cbn [patch_by_position].
  rewrite lookup_head_drop, tail_drop.
  destruct (drop idx os) as [|o rest] eqn:Hd; simpl.
  - destruct (mount n container anchor isSVG st) as [n' st1].
    rewrite IH. destruct (patch_by_position _ ns container anchor isSVG st1).
    simpl. by rewrite Nat.add_succ_r.
  - destruct (patch o n container anchor isSVG st) as [n' st1].
    rewrite IH. destruct (patch_by_position _ ns container anchor isSVG st1).
    simpl. by rewrite Nat.add_succ_r.
Qed.

(** What the keyed pass returns: every new child meets the old child that
    carries its key, and keeps that child's node when the types agree. *)
Lemma patch_by_key_in_place os ks ns ks' container anchor isSVG st :
  Forall2 (λ o k, v_key o = Some k) os ks →
  Forall2 (λ n k, v_key n = Some k) ns ks' →
  ks' ⊆ ks →
  Forall2 (λ n n', ∃ o, o ∈ os ∧ v_key o = v_key n
                        ∧ matched (zip ks os) n = Some o
                        ∧ (same_type (v_type o) (v_type n) = true →
                           v_el n' = v_el o ∧ v_key n' = v_key n))
          ns (patch_by_key (zip ks os) ns container anchor isSVG st).1.
Proof.
  intros Hos HF. revert st. induction HF as [|n k ns ks' Hk HF IH]; intros st Hsub.
  { constructor. }
  destruct (jmap_get_zip ks os k) as (o & Ho & Hin & i & Hi1 & Hi2).
  { symmetry. by eapply Forall2_length. }
  { apply Hsub. left. }
  assert (matched (zip ks os) n = Some o) as Hm by (unfold matched; by rewrite Hk).
  cbn [patch_by_key]. rewrite Hm.
  destruct (patch o n container anchor isSVG st) as [n' st1] eqn:Hp.
  specialize (IH st1 ltac:(intros x Hx; apply Hsub; by right)).
  destruct (patch_by_key (zip ks os) ns container anchor isSVG st1) as [r st2].
  constructor; [|exact IH].
  exists o. split; [done|]. split.
  { rewrite Hk. exact (Forall2_lookup_lr _ os ks i o k Hos Hi2 Hi1). }
  split; [done|]. intros Hty.
  assert (n' = (patch o n container anchor isSVG st).1) as -> by (by rewrite Hp).
  by apply patch_in_place.
Qed.

(** C7 (as amended).  Old and new children are vnodes.  Keyed: when the new
    keys are a permutation of the old, distinct, keys, [patchChildren] is
    exactly the pass that patches each new child against the old child
    carrying its key; nothing is mounted afresh and no old child is left
    over to unmount, and every new child whose type equals that of its old
    child keeps that child's node.  Unkeyed: new children consume the old
    ones by position, the surplus of new children is mounted and the
    surplus of old children, and only it, is unmounted. *)
Theorem children_patched_by_key_or_position container anchor isSVG st :
  (∀ os ks ns ks',
      Forall2 (λ o k, v_key o = Some k) os ks →
      Forall2 (λ n k, v_key n = Some k) ns ks' →
      NoDup ks → ks' ≡ₚ ks →
      patchChildren patch (CNode <$> os) (CNode <$> ns) anchor container isSVG st
        = (let '(r, st') := patch_by_key (collect_keyed (CNode <$> os)) ns
                                         container anchor isSVG st in
           (CNode <$> r, st'))
      ∧ Forall2 (λ n n', ∃ o, o ∈ os ∧ v_key o = v_key n
                            ∧ matched (collect_keyed (CNode <$> os)) n = Some o
                            ∧ (same_type (v_type o) (v_type n) = true →
                               v_el n' = v_el o ∧ v_key n' = v_key n))
                ns (patch_by_key (collect_keyed (CNode <$> os)) ns
                                 container anchor isSVG st).1)
  ∧ (∀ os ns,
      Forall (λ o, v_key o = None) os →
      Forall (λ n, v_key n = None) ns →
      patchChildren patch (CNode <$> os) (CNode <$> ns) anchor container isSVG st
        = (let '(r, st') := patch_by_position os ns container anchor isSVG st in
           (CNode <$> r, foldl (λ s v, unmount v s) st' (drop (length ns) os)))).
Proof.
  split.
  - intros os ks ns ks' Hos Hns Hnd Hperm.
    rewrite (collect_keyed_nodes os ks Hos Hnd).
    split; [|apply (patch_by_key_in_place os ks ns ks'); try done;
             by intros x Hx; rewrite <- Hperm].
    unfold patchChildren.
    rewrite !single_text_nodes, hasOnlyVNodeChildren_nodes.
    rewrite (collect_keyed_nodes os ks Hos Hnd), (collect_unkeyed_keyed os ks Hos).
    cbn [negb].
    rewrite (reconcile_keyed (zip ks os) [] container anchor isSVG ns ks').
    + destruct (patch_by_key (zip ks os) ns container anchor isSVG st) as [r st'].
      rewrite jmap_delete_all; [by rewrite drop_nil|].
      intros [k v] Hin. apply elem_of_zip_l in Hin. simpl. by rewrite Hperm.
    + done.
    + by rewrite Hperm.
    + intros k Hk. split; [|done].
      destruct (jmap_get_zip ks os k) as (o & Ho & _); [symmetry; by eapply Forall2_length| |by eexists].
      by rewrite <- Hperm.
  - intros os ns Hos Hns. unfold patchChildren.
    rewrite !single_text_nodes, hasOnlyVNodeChildren_nodes.
    rewrite (collect_keyed_unkeyed os Hos), (collect_unkeyed_nodes os Hos).
    cbn [negb].
    rewrite (reconcile_unkeyed os container anchor isSVG ns [] 0 st Hns).
    rewrite drop_0.
    by destruct (patch_by_position os ns container anchor isSVG st) as [r st'].
Qed.

Lemma children_patched_by_key_or_position_witness :
  (patchChildren patch (CNode <$> vnodes (committed_children 1 abc))
                 (CNode <$> [li "c" "C"; li "a" "A"; li "b" "B"]) None 100 false abc
     = (let '(r, st') :=
          patch_by_key (collect_keyed (CNode <$> vnodes (committed_children 1 abc)))
                       [li "c" "C"; li "a" "A"; li "b" "B"] 100 None false abc in
        (CNode <$> r, st'))
   ∧ Forall2 (λ n n', ∃ o, o ∈ vnodes (committed_children 1 abc) ∧ v_key o = v_key n
                ∧ matched (collect_keyed (CNode <$> vnodes (committed_children 1 abc))) n
                  = Some o
                ∧ (same_type (v_type o) (v_type n) = true →
                   v_el n' = v_el o ∧ v_key n' = v_key n))
             [li "c" "C"; li "a" "A"; li "b" "B"]
             (patch_by_key (collect_keyed (CNode <$> vnodes (committed_children 1 abc)))
                           [li "c" "C"; li "a" "A"; li "b" "B"] 100 None false abc).1)
  ∧ patchChildren patch (CNode <$> vnodes (committed_children 1 xy))
                  (CNode <$> [para "z"]) None 100 false xy
    = (let '(r, st') := patch_by_position (vnodes (committed_children 1 xy)) [para "z"]
                                          100 None false xy in
       (CNode <$> r,
        foldl (λ s v, unmount v s) st' (drop (length [para "z"])
                                             (vnodes (committed_children 1 xy))))).
Proof.
  split.
  - apply (proj1 (children_patched_by_key_or_position 100 None false abc)
                 (vnodes (committed_children 1 abc))
                 [KeyStr "a"; KeyStr "b"; KeyStr "c"]
                 [li "c" "C"; li "a" "A"; li "b" "B"]
                 [KeyStr "c"; KeyStr "a"; KeyStr "b"]).
    + vm_compute. repeat constructor.
    + vm_compute. repeat constructor.
    + apply (bool_decide_unpack _). vm_compute. exact I.
    + apply (Permutation_cons_append [KeyStr "a"; KeyStr "b"] (KeyStr "c")).
  - apply (proj2 (children_patched_by_key_or_position 100 None false xy)
                 (vnodes (committed_children 1 xy)) [para "z"]).
    + vm_compute. repeat constructor.
    + vm_compute. repeat constructor.
Defined.

(** The claim as it stands fails: rendering the keys [a, b, c] again with the
    child keyed ['c'] turned from [li] into [p] removes that child's node 105
    from the document and creates a new node 107 for it. *)
Lemma keyed_child_replaced :
  keys_of (vnodes (committed_children 1 abc))
    = [Some (KeyStr "a"); Some (KeyStr "b"); Some (KeyStr "c")]
  ∧ keys_of (vnodes (committed_children 1 retagged))
    = [Some (KeyStr "c"); Some (KeyStr "a"); Some (KeyStr "b")]
  ∧ el_of_key "c" 1 abc = Some 105
  ∧ el_of_key "c" 1 retagged = Some 107
  ∧ trace retagged
    = [RDom (InsertBefore 100 107 None); RDom (AppendChild 107 108);
       RDom (CreateTextNode 108 "C"); RDom (CreateElement 107 "p" false);
       RDom (RemoveFromParent 105)] ++ trace abc.
Proof. repeat split; vm_compute; reflexivity. Qed.

(** With the types unchanged the same permutation keeps all three nodes and
    touches the document not at all. *)
Example shuffle_keeps_nodes :
  let st := render (Some (ul [li "c" "C"; li "a" "A"; li "b" "B"])) 1 abc in
  el_of_key "a" 1 st = el_of_key "a" 1 abc
  ∧ el_of_key "b" 1 st = el_of_key "b" 1 abc
  ∧ el_of_key "c" 1 st = el_of_key "c" 1 abc
  ∧ trace st = trace abc.
Proof. repeat split; vm_compute; reflexivity. Qed.
End PatchFacts.

(** ** Further properties of dep.js and effect.ts *)

(** X1: whatever closure is run, the two directions of the dependency graph
    agree afterwards (an effect is in the set stored at (target, key) exactly
    when that set is in the effect's [deps]), the active effect is the top of
    the effect stack, and every subscriber is an effect function. *)
Theorem run_keeps_graph_consistent fuel p st v st' :
  Inv st → run fuel p st = Some (v, st') →
  (∀ e t k, e ∈ subs st' t k ↔ (t, k) ∈ edeps st' e)
  ∧ activeEffect st' = head (effectStack st')
  ∧ (∀ e t k, e ∈ subs st' t k → is_Some (effectFns st' !! e)).
Proof.
  intros HI Hrun. pose proof (run_Inv _ _ _ _ _ Hrun HI) as [G _ A S _ _].
  split; [exact G|]. split; [exact A|exact S].
Qed.

Lemma run_counter_scene : run 2 counter_scene empty_state = Some (VUndef, st_counter).
Proof. vm_compute. reflexivity. Qed.

Lemma run_keeps_graph_consistent_witness :
  (∀ e t k, e ∈ subs st_counter t k ↔ (t, k) ∈ edeps st_counter e)
  ∧ activeEffect st_counter = head (effectStack st_counter)
  ∧ (∀ e t k, e ∈ subs st_counter t k → is_Some (effectFns st_counter !! e)).
Proof.
  apply (run_keeps_graph_consistent 2 counter_scene empty_state VUndef st_counter).
  - apply Inv_empty.
  - apply run_counter_scene.
Defined.

(** X2: a run leaves the effect stack as it found it, however effects nest
    inside it, and with it the active effect: once a nested effect returns,
    reads are tracked for the outer effect again. *)
Theorem run_restores_effect_stack fuel p st v st' :
  run fuel p st = Some (v, st') →
  effectStack st' = effectStack st
  ∧ (activeEffect st = head (effectStack st) → activeEffect st' = activeEffect st).
Proof.
  revert p st v st'.
  apply (run_rule (λ st st', effectStack st' = effectStack st
                             ∧ (activeEffect st = head (effectStack st) →
                                activeEffect st' = activeEffect st))).
  - done.
  - intros st1 st2 st3 [S1 A1] [S2 A2]. split; [congruence|].
    intros H. rewrite A2, A1; [done|done|]. rewrite A1, S1; done.
  - intros t k st. unfold track. destruct (activeEffect st) eqn:Ha; [|done].
    case_decide; simpl; by rewrite ?Ha.
  - done.
  - done.
  - done.
  - intros j st. unfold queueJob. simpl. by destruct (isFlushing st).
  - done.
  - done.
  - done.
  - done.
  - intros e r st st2 _ [S A]. simpl in *. rewrite S. simpl. split; [done|].
    intros H. by rewrite H.
Qed.

Lemma run_restores_effect_stack_witness :
  effectStack st_counter = effectStack empty_state
  ∧ (activeEffect empty_state = head (effectStack empty_state) →
     activeEffect st_counter = activeEffect empty_state).
Proof.
  apply (run_restores_effect_stack 2 counter_scene empty_state VUndef st_counter).
  apply run_counter_scene.
Defined.

(** X3: [cleanup(e)], which is all the stop function of [watchEffect] and of
    [watch] does, takes [e] out of every dependency set and empties its
    [deps]; no [trigger] selects [e] afterwards, and the subscriptions of the
    other effects are untouched. *)
Theorem cleanup_unsubscribes e st :
  Inv st →
  (∀ t k, e ∉ subs (cleanup e st) t k)
  ∧ (∀ t k, e ∉ effectsToRun (cleanup e st) t k)
  ∧ (∀ e' t k, e' ≠ e → e' ∈ subs (cleanup e st) t k ↔ e' ∈ subs st t k)
  ∧ edeps (cleanup e st) e = [].
Proof.
  intros HI.
  assert (∀ t k, e ∉ subs (cleanup e st) t k) as Hout.
  { intros t k. rewrite subs_cleanup. case_decide as Hd.
    - rewrite elem_of_delete. tauto.
    - intros Hin. apply Hd. by apply (inv_graph st HI). }
  split; [exact Hout|]. split; [|split].
  - intros t k Hin. apply elem_of_effectsToRun in Hin as [Hin _]. by apply (Hout t k).
  - intros e' t k Hne. rewrite subs_cleanup. case_decide; [|done].
    rewrite elem_of_delete. tauto.
  - rewrite edeps_cleanup. by rewrite decide_True.
Qed.

Lemma subs_st_counter : subs st_counter 0 kValue = [1].
Proof. vm_compute. reflexivity. Qed.

Lemma cleanup_unsubscribes_witness :
  subs st_counter 0 kValue = [1]
  ∧ (1 ∉ subs (cleanup 1 st_counter) 0 kValue)
  ∧ (1 ∉ effectsToRun (cleanup 1 st_counter) 0 kValue).
Proof.
  split; [apply subs_st_counter|].
  destruct (cleanup_unsubscribes 1 st_counter Inv_st_counter) as (H1 & H2 & _).
  split; [apply H1|apply H2].
Defined.

(** X4: however many times jobs are passed to [queueJob] while no flush is
    scheduled, exactly one flush is scheduled, and the pending set holds each
    of the jobs once. *)
Theorem queueJob_batches js st :
  isFlushing st = false → js ≠ [] → NoDup (pendingJobs st) →
  let st' := foldl (λ s j, queueJob j s) st js in
  microtasks st' = S (microtasks st)
  ∧ isFlushing st' = true
  ∧ NoDup (pendingJobs st')
  ∧ (∀ j, j ∈ pendingJobs st' ↔ j ∈ pendingJobs st ∨ j ∈ js).
Proof.
  intros Hidle Hne Hnd.
  assert (∀ js s, isFlushing s = true → NoDup (pendingJobs s) →
            let s' := foldl (λ s j, queueJob j s) s js in
            microtasks s' = microtasks s ∧ isFlushing s' = true
            ∧ NoDup (pendingJobs s')
            ∧ (∀ j, j ∈ pendingJobs s' ↔ j ∈ pendingJobs s ∨ j ∈ js)) as Hbusy.
  { clear. induction js as [|j js IH]; intros s Hf Hnd; simpl.
    - split; [done|]. split; [done|]. split; [done|]. intros j. rewrite elem_of_nil. tauto.
    - assert (queueJob j s =
              with_pendingJobs (JSet.add j (pendingJobs s)) (emit (EvQueue j) s)) as Hq.
      { unfold queueJob. simpl. by rewrite Hf. }
      destruct (IH (queueJob j s)) as (M & F & N & E).
      + by rewrite Hq.
      + rewrite Hq. simpl. by apply NoDup_add.
      + split; [by rewrite M, Hq|]. split; [done|]. split; [done|].
        intros x. rewrite E, Hq. simpl. rewrite elem_of_add, elem_of_cons. tauto. }
  destruct js as [|j js]; [done|]. simpl.
  assert (queueJob j st =
          with_microtasks (S (microtasks st))
            (with_isFlushing true
               (with_pendingJobs (JSet.add j (pendingJobs st)) (emit (EvQueue j) st)))) as Hq.
  { unfold queueJob. simpl. by rewrite Hidle. }
  destruct (Hbusy js (queueJob j st)) as (M & F & N & E).
  - by rewrite Hq.
  - rewrite Hq. simpl. by apply NoDup_add.
  - split; [by rewrite M, Hq|]. split; [done|]. split; [done|].
    intros x. rewrite E, Hq. simpl. rewrite elem_of_add, elem_of_cons. tauto.
Qed.

Lemma queueJob_batches_witness :
  microtasks (foldl (λ s j, queueJob j s) empty_state [3; 4; 3]) = 1
  ∧ isFlushing (foldl (λ s j, queueJob j s) empty_state [3; 4; 3]) = true
  ∧ pendingJobs (foldl (λ s j, queueJob j s) empty_state [3; 4; 3]) = [3; 4].
Proof.
  destruct (queueJob_batches [3; 4; 3] empty_state) as (M & F & _).
  - reflexivity.
  - discriminate.
  - apply NoDup_nil_2.
  - split; [exact M|]. split; [exact F|]. vm_compute. reflexivity.
Defined.

(** ** Writing and reading back *)

(** Reading through a tracked getter: the value is the stored one; at most a
    read is recorded. *)
Lemma exec_tracked_get rec t k k' st :
  ∃ st' evs,
    exec rec (GetActiveEffect (λ a, match a with
                                    | Some _ => Track t k (Get t k' Ret)
                                    | None => Get t k' Ret
                                    end)) st = Some (heap_get st t k', st')
    ∧ log st' = evs ++ log st
    ∧ heap st' = heap st
    ∧ (∀ e, handoffs e evs = 0).
Proof.
  simpl. destruct (activeEffect st) as [a|] eqn:Ha; simpl.
  - assert (heap (track t k st) = heap st) as Hh.
    { unfold track. rewrite Ha. by case_decide. }
    exists (track t k st), [EvRead a t k].
    split; [unfold heap_get, props; by rewrite Hh|]. split; [|done].
    unfold track. rewrite Ha. by case_decide.
  - by exists st, [].
Qed.

(** A write followed by the hand-off of observing subscribers. *)
Lemma trigger_after_write rec t k st st0 :
  targetMap st0 = targetMap st → activeEffect st0 = activeEffect st →
  effectFns st0 = effectFns st → log st0 = log st →
  (∀ e, e ∈ effectsToRun st t k → ∃ r, effectFns st !! e = Some r ∧ simple e r) →
  ∃ st' evs,
    trigger (exec rec) t k st0 = Some st'
    ∧ log st' = evs ++ log st
    ∧ heap st' = heap st0
    ∧ (∀ e, handoffs e evs =
            if decide (e ∈ subs st t k ∧ activeEffect st ≠ Some e) then 1 else 0).
Proof.
  intros HT HA HF HL Hall.
  assert (effectsToRun st0 t k = effectsToRun st t k) as HE.
  { unfold effectsToRun. by rewrite HT, HA. }
  assert (subs st0 t k = subs st t k) as HS by (unfold subs; by rewrite HT).
  destruct (trigger_simple rec t k st0) as (st' & evs & H & L & T & C & _).
  { intros e He. rewrite HE in He. rewrite HF. by apply Hall. }
  exists st', evs. split; [done|]. split; [by rewrite L, HL|]. split; [apply T|].
  intros e. rewrite C, HS, HA. done.
Qed.

(** X5: assigning [v] to a ref and reading it back yields [v]; the subscribers
    of the ref (taken to be observers) are each handed off once when [v]
    differs from the value held, and nothing at all is handed off when it is
    the same. *)
Theorem ref_write_then_read fuel r v st :
  (∀ e, e ∈ effectsToRun st r kValue → ∃ rc, effectFns st !! e = Some rc ∧ simple e rc) →
  heap_get st r (KStr "_value") = heap_get st r (KStr "_rawValue") →
  ∃ st' evs,
    run (S (S fuel)) (ref_set r v (ref_get r Ret)) st = Some (v, st')
    ∧ log st' = evs ++ log st
    ∧ heap_get st' r (KStr "_value") = v
    ∧ heap_get st' r (KStr "_rawValue") = v
    ∧ (∀ e, handoffs e evs =
            if decide (v ≠ heap_get st r (KStr "_rawValue")
                       ∧ e ∈ subs st r kValue ∧ activeEffect st ≠ Some e)
            then 1 else 0).
Proof.
  intros Hall Hok. change (run (S (S fuel))) with (exec (exec (run fuel))).
  unfold ref_set, toRaw, toReactive. cbn [exec].
  destruct (decide (v = heap_get st r (KStr "_rawValue"))) as [Heq|Hne].
  - destruct (exec_tracked_get (exec (run fuel)) r kValue (KStr "_value") st)
      as (st' & evs & Hx & L & Hh & C).
    exists st', evs. unfold ref_get, trackRefValue. rewrite Hx, Hok, <- Heq.
    split; [done|]. split; [done|].
    assert (∀ k, heap_get st' r k = heap_get st r k) as Hg
      by (intros k; unfold heap_get, props; by rewrite Hh).
    split; [by rewrite Hg, Hok|]. split; [by rewrite Hg|].
    intros e. rewrite C, decide_False; [done|]. tauto.
  - unfold triggerRefValue. cbn [exec].
    set (st0 := heap_put r (KStr "_value") v (heap_put r (KStr "_rawValue") v st)).
    destruct (trigger_after_write (run fuel) r kValue st st0) as (st1 & evs1 & H1 & L1 & Hh1 & C1);
      try done.
    rewrite H1.
    destruct (exec_tracked_get (exec (run fuel)) r kValue (KStr "_value") st1)
      as (st' & evs & Hx & L & Hh & C).
    assert (∀ k, heap_get st' r k = heap_get st0 r k) as Hg
      by (intros k; unfold heap_get, props; by rewrite Hh, Hh1).
    assert (heap_get st1 r (KStr "_value") = v) as Hv.
    { unfold heap_get, props. rewrite Hh1. unfold st0.
      change (default VUndef (default ∅ (heap ?s !! r) !! ?k)) with (heap_get s r k).
      rewrite heap_get_put. by rewrite decide_True. }
    exists st', (evs ++ evs1). unfold ref_get, trackRefValue. rewrite Hx, Hv.
    split; [done|]. split; [by rewrite L, L1, app_assoc|].
    split; [rewrite Hg; unfold st0; rewrite heap_get_put; by rewrite decide_True|].
    split.
    { rewrite Hg. unfold st0. rewrite !heap_get_put.
      rewrite decide_False by (intros [_ [=]]). by rewrite decide_True. }
    intros e. rewrite handoffs_app, C, C1. simpl.
    destruct (decide (e ∈ subs st r kValue ∧ activeEffect st ≠ Some e)) as [Hd|Hd].
    + rewrite decide_True; [done|]. split; [congruence|done].
    + rewrite decide_False; [done|]. tauto.
Qed.

Lemma effectFns_st_counter :
  effectFns st_counter = {[ 1 := mkEffect (reader 0) false None ]}.
Proof. vm_compute. reflexivity. Qed.

Lemma simple_st_counter t k e :
  e ∈ effectsToRun st_counter t k →
  ∃ rc, effectFns st_counter !! e = Some rc ∧ simple e rc.
Proof.
  intros He. apply elem_of_effectsToRun in He as [He _].
  apply (inv_subs _ Inv_st_counter) in He as [rc Hrc].
  exists rc. split; [done|]. rewrite effectFns_st_counter in Hrc.
  destruct (decide (e = 1)) as [->|Hne].
  - rewrite lookup_singleton_eq in Hrc. injection Hrc as <-. apply Quiet_reader.
  - by rewrite lookup_singleton_ne in Hrc.
Qed.

Lemma ref_write_then_read_witness :
  ∃ st' evs,
    run 2 (ref_set 0 (VNum 5) (ref_get 0 Ret)) st_counter = Some (VNum 5, st')
    ∧ log st' = evs ++ log st_counter
    ∧ heap_get st' 0 (KStr "_value") = VNum 5
    ∧ handoffs 1 evs = 1.
Proof.
  destruct (ref_write_then_read 0 0 (VNum 5) st_counter)
    as (st' & evs & H1 & H2 & H3 & _ & H5).
  - apply simple_st_counter.
  - vm_compute. reflexivity.
  - exists st', evs. split; [exact H1|]. split; [exact H2|]. split; [exact H3|].
    rewrite H5. apply decide_True. split; [vm_compute; discriminate|].
    split; [|vm_compute; discriminate].
    replace (subs st_counter 0 kValue) with [1] by (vm_compute; reflexivity). left.
Defined.

(** ** The proxy traps *)

Lemma heap_has_put t k v st : heap_has (heap_put t k v st) t k = true.
Proof.
  unfold heap_has, heap_put, props. simpl. rewrite lookup_insert_eq. simpl.
  rewrite lookup_insert_eq. by apply bool_decide_true.
Qed.



Lemma track_heap t k st : heap (track t k st) = heap st.
Proof. unfold track. destruct (activeEffect st); [|done]. by case_decide. Qed.

Lemma track_log t k st :
  ∃ evs, log (track t k st) = evs ++ log st ∧ ∀ e, handoffs e evs = 0.
Proof.
  unfold track. destruct (activeEffect st) as [a|]; [|by exists []].
  exists [EvRead a t k]. by case_decide.
Qed.

(** X6: on a reactive object, writing [v] to a property and reading the
    property back yields [v] and leaves the key present; the property's
    subscribers (taken to be observers) are each handed off once when [v]
    differs from what the property read before (an absent property reads
    [undefined]), and nothing is handed off otherwise. *)
Theorem proxy_write_then_read fuel o k v st :
  k ≠ IS_REACTIVE → k ≠ RAW →
  (∀ e, e ∈ effectsToRun st o k → ∃ rc, effectFns st !! e = Some rc ∧ simple e rc) →
  ∃ st' evs,
    run (S (S fuel))
        (proxy_set o k v (λ _, proxy_get o k (λ r, Ret (prim_of r)))) st = Some (v, st')
    ∧ log st' = evs ++ log st
    ∧ heap_has st' o k = true
    ∧ (∀ e, handoffs e evs =
            if decide (v ≠ heap_get st o k ∧ e ∈ subs st o k ∧ activeEffect st ≠ Some e)
            then 1 else 0).
Proof.
  intros Hk1 Hk2 Hall. change (run (S (S fuel))) with (exec (exec (run fuel))).
  unfold proxy_set, proxy_get. rewrite !decide_False by done. cbn [exec].
  set (st0 := heap_put o k v st).
  assert (∀ st1 evs1, heap st1 = heap st0 → log st1 = evs1 ++ log st →
            (∀ e, handoffs e evs1 =
                  if decide (v ≠ heap_get st o k ∧ e ∈ subs st o k ∧ activeEffect st ≠ Some e)
                  then 1 else 0) →
            ∃ st' evs,
              exec (exec (run fuel))
                   (Get o k (λ result, Track o k (Ret (prim_of (Prim result))))) st1
                = Some (v, st')
              ∧ log st' = evs ++ log st
              ∧ heap_has st' o k = true
              ∧ (∀ e, handoffs e evs =
                      if decide (v ≠ heap_get st o k ∧ e ∈ subs st o k
                                 ∧ activeEffect st ≠ Some e)
                      then 1 else 0)) as Hread.
  { intros st1 evs1 Hh L1 C1. cbn [exec prim_of].
    destruct (track_log o k st1) as (evs & L & C).
    exists (track o k st1), (evs ++ evs1).
    assert (heap_get st1 o k = v) as ->.
    { unfold heap_get, props. rewrite Hh. unfold st0.
      change (default VUndef (default ∅ (heap ?s !! o) !! k)) with (heap_get s o k).
      rewrite heap_get_put. by rewrite decide_True. }
    split; [done|]. split; [by rewrite L, L1, app_assoc|]. split.
    - unfold heap_has, props. rewrite track_heap, Hh.
      change (bool_decide (is_Some (default ∅ (heap st0 !! o) !! k)))
        with (heap_has st0 o k). apply heap_has_put.
    - intros e. by rewrite handoffs_app, C, C1. }
  destruct (decide (heap_get st o k = v)) as [Heq|Hne].
  - apply (Hread st0 []); [done|done|].
    intros e. rewrite decide_False; [done|]. intros [H _]. by apply H.
  - cbn [exec].
    destruct (trigger_after_write (run fuel) o k st st0) as (st1 & evs1 & H1 & L1 & Hh1 & C1);
      try done.
    rewrite H1. apply (Hread st1 evs1); [done|done|].
    intros e. rewrite C1.
    destruct (decide (e ∈ subs st o k ∧ activeEffect st ≠ Some e)) as [Hd|Hd].
    + rewrite decide_True; [done|]. split; [congruence|done].
    + rewrite decide_False; [done|]. tauto.
Qed.

Lemma proxy_write_then_read_witness :
  ∃ st' evs,
    run 2 (proxy_set 0 (KStr "a") (VNum 1) (λ _, proxy_get 0 (KStr "a") (λ r, Ret (prim_of r))))
        empty_state = Some (VNum 1, st')
    ∧ log st' = evs ++ log empty_state
    ∧ heap_has st' 0 (KStr "a") = true.
Proof.
  destruct (proxy_write_then_read 0 0 (KStr "a") (VNum 1) empty_state)
    as (st' & evs & H1 & H2 & H3 & _).
  - discriminate.
  - discriminate.
  - intros e He. vm_compute in He. by apply not_elem_of_nil in He.
  - by exists st', evs.
Defined.



(** ** watch *)

Lemma exec_bind rec p f st :
  exec rec (bind p f) st =
    match exec rec p st with
    | Some (v, st') => exec rec (f v) st'
    | None => None
    end.
Proof.
  revert st. induction p as
    [v|t k c IH|t k c IH|c IH|e c IH|e c IH|g IHg lz s c IH|j c IH|t k c IH|t k v c IH
    |t k c IH|t k c IH|t c IH|c IH|c IH|v c IH]; intros st; cbn [bind exec]; try done.
  - destruct (trigger rec t k st); [apply IH|done].
  - destruct (call_effect rec e st) as [[v1 st1]|]; [apply IH|done].
  - destruct (alloc_effect g lz s st) as [e st1]. destruct lz; [apply IH|].
    destruct (call_effect rec e st1) as [[v1 st2]|]; [apply IH|done].
Qed.

(** X8: [watch] without [immediate] evaluates the getter once, stores its
    value as [oldValue] and calls nothing else; with [immediate] the
    callback is called once, with the getter's value and [undefined], before
    the value is stored. *)
Theorem watch_evaluates_getter_once rec getter callback c st :
  Quiet getter → heap st !! (nextId st : Target) = None →
  let cell := nextId st in
  let e := S (nextId st) in
  let st0 := (alloc_effect getter true (Some (watch_job cell callback))
                (with_nextId (S (nextId st)) st)).2 in
  ∃ v st1,
    call_effect (exec rec) e st0 = Some (v, st1)
    ∧ heap st1 = heap st
    ∧ exec (exec rec) (watch getter callback false c) st
        = exec (exec rec) (c e) (heap_put cell kOldValue v st1)
    ∧ exec (exec rec) (watch getter callback true c) st
        = match exec (exec rec) (callback v VUndef) st1 with
          | Some (_, st2) => exec (exec rec) (c e) (heap_put cell kOldValue v st2)
          | None => None
          end.
Proof.
  intros HQ Hfresh cell e st0.
  assert (effectFns st0 !! e = Some (mkEffect getter true (Some (watch_job cell callback))))
    as Hfn by (unfold st0, e; simpl; by rewrite lookup_insert_eq).
  destruct (call_effect_quiet rec e _ st0 Hfn HQ)
    as (v & st1 & evs & Hx & _ & _ & _ & Hh & _).
  assert (heap st1 = heap st) as Hheap by (rewrite Hh; done).
  exists v, st1. split; [done|]. split; [done|].
  split.
  - change (exec (exec rec) (watch getter callback false c) st)
      with (exec (exec rec) (Call e (λ v, Put cell kOldValue v (c e))) st0).
    cbn [exec]. by rewrite Hx.
  - change (exec (exec rec) (watch getter callback true c) st)
      with (exec (exec rec) (bind (watch_job cell callback e) (λ _, c e)) st0).
    rewrite exec_bind. unfold watch_job at 1. cbn [exec]. rewrite Hx.
    assert (heap_get st1 cell kOldValue = VUndef) as ->.
    { unfold heap_get, props. rewrite Hheap. unfold cell. by rewrite Hfresh. }
    rewrite exec_bind.
    destruct (exec (exec rec) (callback v VUndef) st1) as [[w st2]|]; done.
Qed.

Lemma watch_evaluates_getter_once_witness :
  ∃ v st1,
    call_effect (exec (run 0)) 1
      (alloc_effect (Ret (VNum 7)) true (Some (watch_job 0 log_both))
                    (with_nextId 1 empty_state)).2 = Some (v, st1)
    ∧ heap st1 = heap empty_state
    ∧ exec (exec (run 0)) (watch (Ret (VNum 7)) log_both false (λ _, Ret VUndef)) empty_state
        = exec (exec (run 0)) (Ret VUndef) (heap_put 0 kOldValue v st1).
Proof.
  destruct (watch_evaluates_getter_once (run 0) (Ret (VNum 7)) log_both
              (λ _, Ret VUndef) empty_state) as (v & st1 & H1 & H2 & H3 & _).
  - constructor.
  - reflexivity.
  - exists v, st1. split; [exact H1|]. split; [exact H2|exact H3].
Defined.

(** X9: when a watched source triggers, the job evaluates the getter again and
    calls the callback with the new value and the value stored by the
    previous evaluation, whether or not the two differ; the new value is
    stored afterwards. *)
Theorem watch_job_passes_previous_value rec getter callback cell e st :
  effectFns st !! e = Some (mkEffect getter true (Some (watch_job cell callback))) →
  Quiet getter →
  ∃ nv st1,
    call_effect (exec rec) e (emit (EvSched e) st) = Some (nv, st1)
    ∧ heap st1 = heap st
    ∧ run_one (exec (exec rec)) e st
        = match exec (exec rec) (callback nv (heap_get st cell kOldValue)) st1 with
          | Some (_, st2) => Some (heap_put cell kOldValue nv st2)
          | None => None
          end.
Proof.
  intros Hfn HQ.
  destruct (call_effect_quiet rec e _ (emit (EvSched e) st) Hfn HQ)
    as (nv & st1 & evs & Hx & _ & _ & _ & Hh & _).
  exists nv, st1. split; [done|]. split; [done|].
  unfold run_one. rewrite Hfn. cbn [scheduler]. unfold watch_job. cbn [exec].
  rewrite Hx. rewrite exec_bind.
  assert (heap_get st1 cell kOldValue = heap_get st cell kOldValue) as ->
    by (unfold heap_get, props; by rewrite Hh).
  destruct (exec (exec rec) (callback nv (heap_get st cell kOldValue)) st1) as [[w st2]|]; done.
Qed.

Lemma effectFns_st_watch :
  effectFns st_watch !! 2
    = Some (mkEffect (ref_get 0 Ret) true (Some (watch_job 1 log_both))).
Proof. vm_compute. reflexivity. Qed.

Lemma watch_job_passes_previous_value_witness :
  ∃ nv st1,
    call_effect (exec (run 0)) 2 (emit (EvSched 2) st_watch) = Some (nv, st1)
    ∧ heap st1 = heap st_watch
    ∧ run_one (exec (exec (run 0))) 2 st_watch
        = match exec (exec (run 0)) (log_both nv (heap_get st_watch 1 kOldValue)) st1 with
          | Some (_, st2) => Some (heap_put 1 kOldValue nv st2)
          | None => None
          end.
Proof.
  apply (watch_job_passes_previous_value (run 0) (ref_get 0 Ret) log_both 1 2 st_watch).
  - apply effectFns_st_watch.
  - apply Quiet_ref_get.
Defined.

(** On [watch_scene] the callback sees (1, 0) and then (2, 1), and nothing
    after [stop]; on [watch_flag_scene] it is called with (true, true). *)
Example watch_scene_outputs :
  returns 4 watch_scene empty_state = true
  ∧ outputs (final 4 watch_scene empty_state) = [VNum 1; VNum 0; VNum 2; VNum 1]
  ∧ outputs (final 4 watch_flag_scene empty_state) = [VBool true; VBool true].
Proof. vm_compute. repeat split. Qed.

(** ** isRef and unref *)

(** X10: what [ref] creates is a ref, and [unref] of it is a read of its
    value; a primitive is not a ref and [unref] hands it back without
    touching anything; a fresh plain object is not a ref either. *)
Theorem unref_of_ref rec v w st :
  (∃ st', exec rec (ref v (λ r, unref ref_get (Reference r)
                                  (λ x, Ret (match x with Primitive y => y | _ => VUndef end))))
               st = Some (v, st'))
  ∧ exec rec (ref v (λ r, isRef (Reference r) (λ b, Ret (VBool b)))) st
    = exec rec (ref v (λ _, Ret (VBool true))) st
  ∧ (∀ c, exec rec (unref ref_get (Primitive w) c) st = exec rec (c (Primitive w)) st)
  ∧ (heap st !! (nextId st : Target) = None →
     exec rec (New (λ o, isRef (Reference o) (λ b, Ret (VBool b)))) st
     = Some (VBool false, with_nextId (S (nextId st)) st)).
Proof.
  set (r := nextId st).
  set (st1 := heap_put r (KStr "_value") v
                (heap_put r (KStr "_rawValue") v
                   (heap_put r RefFlag (VBool true) (with_nextId (S r) st)))).
  assert (heap_get st1 r RefFlag = VBool true) as Hflag.
  { unfold st1. rewrite !heap_get_put. rewrite decide_False by (intros [_ [=]]).
    rewrite decide_False by (intros [_ [=]]). by rewrite decide_True. }
  assert (heap_get st1 r (KStr "_value") = v) as Hval.
  { unfold st1. rewrite heap_get_put. by rewrite decide_True. }
  split; [|split; [|split]].
  - unfold ref, toRaw, toReactive, unref, isRef. cbn [exec]. fold r st1. rewrite Hflag.
    rewrite bool_decide_true by done.
    destruct (exec_tracked_get rec r kValue (KStr "_value") st1) as (st' & evs & Hx & _).
    exists st'. rewrite Hval in Hx. exact Hx.
  - unfold ref, toRaw, toReactive, isRef. cbn [exec]. fold r st1. rewrite Hflag.
    by rewrite bool_decide_true.
  - done.
  - intros Hfresh. cbn [exec isRef]. fold r.
    assert (heap_get (with_nextId (S r) st) r RefFlag = VUndef) as ->.
    { unfold heap_get, props. cbn [heap with_nextId]. by rewrite Hfresh. }
    by rewrite bool_decide_false.
Qed.

Lemma unref_of_ref_witness :
  exec (run 0) (New (λ o, isRef (Reference o) (λ b, Ret (VBool b)))) empty_state
  = Some (VBool false, with_nextId 1 empty_state).
Proof.
  apply (proj2 (proj2 (proj2 (unref_of_ref (run 0) VUndef VUndef empty_state)))).
  reflexivity.
Defined.

(** ** The identity layer of reactive.ts *)

Module ReactiveIdentity.
Import Reactive.

Lemma wf_empty : wf empty.
Proof.
  split; simpl; try done.
  intros o. rewrite !lookup_empty. split; [lia|]. intros [[? H]|[? H]]; done.
Qed.

Lemma wf_new_object s : wf s → wf (new_object s).2.
Proof.
  intros [Hp Hr Ht Ha Hd Hf Hn]. split; simpl; try done.
  - intros p t Hpt. destruct (Ht p t Hpt) as [[ps Hps] Hno]. split; [simpl|done].
    destruct (decide (t = next s)) as [->|Hne].
    + rewrite lookup_insert_eq. by eexists.
    + rewrite lookup_insert_ne by done. by eexists.
  - intros o. destruct (decide (o = next s)) as [->|Hne].
    + rewrite lookup_insert_eq. split; [intros _; left; by eexists|lia].
    + rewrite lookup_insert_ne by done. rewrite <- Ha. lia.
  - intros o. destruct (decide (o = next s)) as [->|Hne].
    + intros _. destruct (proxyTarget s !! next s) as [t|] eqn:Hpt; [|done].
      assert (next s < next s) by (apply Ha; right; by eexists). lia.
    + rewrite lookup_insert_ne by done. apply Hd.
  - intros o ps v. destruct (decide (o = next s)) as [->|Hne].
    + rewrite lookup_insert_eq. intros [= <-]. by rewrite lookup_empty.
    + rewrite lookup_insert_ne by done. apply Hf.
  - intros o ps. destruct (decide (o = next s)) as [->|Hne].
    + rewrite lookup_insert_eq. by intros [= <-].
    + rewrite lookup_insert_ne by done. apply Hn.
Qed.

(** On a consistent store only a proxy answers the flag with a truthy value. *)
Lemma truthy_flag s (o : Obj) :
  wf s → truthy (get_IS_REACTIVE s o) = bool_decide (is_Some (proxyTarget s !! o)).
Proof.
  intros Hwf. unfold get_IS_REACTIVE.
  destruct (proxyTarget s !! o) as [t|] eqn:Hpt.
  - by rewrite bool_decide_true by (by eexists).
  - rewrite bool_decide_false by (by intros [? ?]).
    destruct (ownProps s !! o) as [ps|] eqn:Hps; simpl; [|done].
    destruct (ps !! IS_REACTIVE) as [v|] eqn:Hv; simpl; [|done].
    by rewrite (wf_flag s Hwf o ps v Hps Hv).
Qed.

(** What [reactive] does on a consistent store. *)
Lemma reactive_cases s (o : Obj) :
  wf s → o < next s →
  (∃ p, reactiveMap s !! o = Some p ∧ reactive o s = (p, s))
  ∨ (reactiveMap s !! o = None ∧ is_Some (proxyTarget s !! o) ∧ reactive o s = (o, s))
  ∨ (reactiveMap s !! o = None ∧ plain s o
     ∧ reactive o s =
         (next s, mkStore (ownProps s) (<[next s := o]> (proxyTarget s))
                          (<[o := next s]> (reactiveMap s)) (<[next s := o]> (rawMap s))
                          (S (next s)))).
Proof.
  intros Hwf Ho. unfold reactive.
  destruct (reactiveMap s !! o) as [p|] eqn:Hrm; [left; by exists p|]. right.
  rewrite (truthy_flag s o Hwf).
  destruct (proxyTarget s !! o) as [t|] eqn:Hpt.
  - left. rewrite bool_decide_true by (by eexists). split; [done|]. split; [by eexists|done].
  - right. rewrite bool_decide_false by (by intros [? ?]). split; [done|]. split; [|done].
    split; [|done]. apply (wf_alloc s Hwf) in Ho as [H|[? H]]; [done|congruence].
Qed.

Lemma wf_reactive s (o : Obj) : wf s → o < next s → wf (reactive o s).2.
Proof.
  intros Hwf Ho.
  destruct (reactive_cases s o Hwf Ho) as [(p & _ & ->)|[(_ & _ & ->)|(Hrm & [Hps Hpt] & ->)]];
    [done|done|].
  destruct Hwf as [Hp Hr Ht Ha Hd Hf Hn].
  assert (proxyTarget s !! (next s : Obj) = None) as Hfresh.
  { destruct (proxyTarget s !! (next s : Obj)) eqn:H; [|done].
    assert (next s < next s) by (apply Ha; right; by eexists). lia. }
  assert (ownProps s !! (next s : Obj) = None) as Hfresh'.
  { destruct (ownProps s !! (next s : Obj)) eqn:H; [|done].
    assert (next s < next s) by (apply Ha; left; by eexists). lia. }
  split; simpl.
  - intros t p. destruct (decide (t = o)) as [->|Hne].
    + rewrite lookup_insert_eq. split.
      * intros [= <-]. by rewrite lookup_insert_eq.
      * destruct (decide (p = next s)) as [->|Hnp]; [done|].
        rewrite lookup_insert_ne by done. intros H. apply Hp in H.
        rewrite Hrm in H. done.
    + rewrite lookup_insert_ne by done. destruct (decide (p = next s)) as [->|Hnp].
      * rewrite lookup_insert_eq. split; [|congruence].
        intros H. apply Hp in H. rewrite Hfresh in H. done.
      * rewrite lookup_insert_ne by done. apply Hp.
  - by rewrite Hr.
  - intros p t. destruct (decide (p = next s)) as [->|Hnp].
    + rewrite lookup_insert_eq. intros [= <-]. split; [done|]. simpl.
      rewrite lookup_insert_ne; [done|]. intros <-. destruct Hps as [? Hps].
      by pose proof (eq_trans (eq_sym Hps) Hfresh').
    + rewrite lookup_insert_ne by done. intros H. destruct (Ht p t H) as [H1 H2].
      split; [done|]. simpl. rewrite lookup_insert_ne; [done|]. intros <-.
      destruct H1 as [? H1]. by pose proof (eq_trans (eq_sym H1) Hfresh').
  - intros x. destruct (decide (x = next s)) as [->|Hx].
    + rewrite lookup_insert_eq. split; [intros _; right; by eexists|lia].
    + rewrite lookup_insert_ne by done. rewrite <- Ha. lia.
  - intros x Hx. destruct (decide (x = next s)) as [->|Hne].
    + destruct Hx as [? Hx]. by pose proof (eq_trans (eq_sym Hx) Hfresh').
    + rewrite lookup_insert_ne by done. by apply Hd.
  - apply Hf.
  - apply Hn.
Qed.

Lemma wf_markRaw s (o : Obj) : wf s → o < next s → wf (markRaw o s).2.
Proof.
  intros Hwf Ho. pose proof Hwf as [Hp Hr Ht Ha Hd Hf Hn].
  set (holder := default o (proxyTarget s !! o)).
  assert (is_Some (ownProps s !! holder)) as [hps Hh].
  { unfold holder. destruct (proxyTarget s !! o) as [t|] eqn:Hpt; simpl.
    - by destruct (Ht o t Hpt).
    - apply Ha in Ho as [H|[? H]]; [done|congruence]. }
  unfold markRaw. fold holder. rewrite Hh. simpl.
  split; simpl; try done.
  - intros p t Hpt. destruct (Ht p t Hpt) as [[ps Hps] Hno]. split; [simpl|done].
    destruct (decide (t = holder)) as [->|Hne].
    + rewrite lookup_insert_eq. by eexists.
    + rewrite lookup_insert_ne by done. by eexists.
  - intros x. rewrite Ha. destruct (decide (x = holder)) as [->|Hne].
    + rewrite lookup_insert_eq, Hh. split; intros _; left; by eexists.
    + by rewrite lookup_insert_ne.
  - intros x. destruct (decide (x = holder)) as [->|Hne].
    + intros _. apply Hd. by eexists.
    + rewrite lookup_insert_ne by done. apply Hd.
  - intros x ps v. destruct (decide (x = holder)) as [->|Hne].
    + rewrite lookup_insert_eq. intros [= <-].
      destruct (decide (IS_REACTIVE = IS_REACTIVE)); [|done].
      rewrite lookup_insert_eq. by intros [= <-].
    + rewrite lookup_insert_ne by done. apply Hf.
  - intros x ps. destruct (decide (x = holder)) as [->|Hne].
    + rewrite lookup_insert_eq. intros [= <-].
      rewrite lookup_insert_ne by done. by apply (Hn holder).
    + rewrite lookup_insert_ne by done. apply Hn.
Qed.

Lemma reachable_wf s : reachable s → wf s.
Proof.
  induction 1 as [|s op _ IH Hin]; [apply wf_empty|].
  destruct op as [|o|o]; simpl in *.
  - by apply wf_new_object.
  - by apply wf_reactive.
  - by apply wf_markRaw.
Qed.

(** The object behind [o]: its target if [o] is a proxy, [o] itself otherwise. *)
Lemma reactive_spec s (o : Obj) :
  wf s → o < next s →
  proxyTarget (reactive o s).2 !! (reactive o s).1 = Some (default o (proxyTarget s !! o))
  ∧ next s ≤ next (reactive o s).2
  ∧ (∀ q : Obj, q < next s → proxyTarget (reactive o s).2 !! q = proxyTarget s !! q).
Proof.
  intros Hwf Ho.
  destruct (reactive_cases s o Hwf Ho)
    as [(p & Hrm & ->)|[(Hrm & [t Hpt] & ->)|(Hrm & [Hps Hpt] & ->)]]; simpl.
  - apply (wf_pair s Hwf) in Hrm. rewrite Hrm.
    destruct (wf_target s Hwf p o Hrm) as [_ ->]. done.
  - rewrite Hpt. done.
  - rewrite Hpt. simpl. rewrite lookup_insert_eq. split; [done|]. split; [lia|].
    intros q Hq. rewrite lookup_insert_ne; [done|]. lia.
Qed.

(** X11: two calls of [reactive] hand back the same proxy exactly when their
    arguments stand for the same object (one object, or a proxy and its
    target, or one proxy twice). *)
Theorem reactive_same_proxy_iff_same_object s (x y : Obj) :
  reachable s → x < next s → y < next s →
  (reactive y (reactive x s).2).1 = (reactive x s).1
  ↔ default y (proxyTarget s !! y) = default x (proxyTarget s !! x).
Proof.
  intros Hs Hx Hy. apply reachable_wf in Hs.
  pose proof (wf_reactive s x Hs Hx) as Hwf1.
  destruct (reactive_spec s x Hs Hx) as (Hpx & Hn1 & Hmono1).
  set (s1 := (reactive x s).2) in *. set (px := (reactive x s).1) in *.
  assert (y < next s1) as Hy1 by lia.
  pose proof (wf_reactive s1 y Hwf1 Hy1) as Hwf2.
  destruct (reactive_spec s1 y Hwf1 Hy1) as (Hpy & Hn2 & Hmono2).
  set (s2 := (reactive y s1).2) in *. set (py := (reactive y s1).1) in *.
  rewrite (Hmono1 y Hy) in Hpy.
  assert (px < next s1) as Hpx1.
  { apply (wf_alloc s1 Hwf1). right. by eexists. }
  rewrite <- (Hmono2 px Hpx1) in Hpx.
  split.
  - intros Heq. rewrite Heq in Hpy.
    pose proof (eq_trans (eq_sym Hpy) Hpx) as H. by injection H.
  - intros Heq. rewrite Heq in Hpy.
    apply (wf_pair s2 Hwf2) in Hpx, Hpy.
    pose proof (eq_trans (eq_sym Hpy) Hpx) as H. by injection H.
Qed.

Lemma reactive_same_proxy_iff_same_object_witness :
  (reactive 0 (reactive 0 (apply ONew (apply ONew empty))).2).1
    = (reactive 0 (apply ONew (apply ONew empty))).1
  ∧ (reactive 1 (reactive 0 (apply ONew (apply ONew empty))).2).1
    ≠ (reactive 0 (apply ONew (apply ONew empty))).1.
Proof.
  split.
  - apply (reactive_same_proxy_iff_same_object (apply ONew (apply ONew empty)) 0 0).
    + repeat constructor.
    + vm_compute. lia.
    + vm_compute. lia.
    + reflexivity.
  - intros H.
    apply (reactive_same_proxy_iff_same_object (apply ONew (apply ONew empty)) 0 1) in H.
    + vm_compute in H. discriminate.
    + repeat constructor.
    + vm_compute. lia.
    + vm_compute. lia.
Defined.

(** X12: what [reactive] hands back is reactive, unwraps with [toRaw] to the
    object behind the argument, and is handed back unchanged when passed to
    [reactive] again; a plain object is not reactive and is its own raw
    version. *)
Theorem toRaw_undoes_reactive s (o : Obj) :
  reachable s → o < next s →
  let p := (reactive o s).1 in
  let s' := (reactive o s).2 in
  toRaw s' p = Some (RawObj (default o (proxyTarget s !! o)))
  ∧ isReactive s' p = true
  ∧ reactive p s' = (p, s')
  ∧ (plain s o → isReactive s o = false ∧ toRaw s o = Some (RawObj o)).
Proof.
  intros Hs Ho p s'. apply reachable_wf in Hs.
  pose proof (wf_reactive s o Hs Ho) as Hwf'.
  destruct (reactive_spec s o Hs Ho) as (Hp & Hn & Hmono).
  fold p s' in Hp, Hn, Hmono, Hwf'.
  set (t := default o (proxyTarget s !! o)) in *.
  assert (∀ st (x : Obj), wf st → plain st x →
            ∀ n, toRaw_within n st x = Some (RawObj x)) as Hplain.
  { intros st x Hst [[ps Hps] Hno] n. destruct n; simpl; rewrite Hno;
      unfold own_RAW; rewrite Hps; simpl; by rewrite (wf_no_raw st Hst x ps Hps). }
  split; [|split; [|split]].
  - unfold toRaw. assert (p < next s') as Hlt.
    { apply (wf_alloc s' Hwf'). right. by eexists. }
    destruct (next s') as [|n]; [lia|]. simpl. rewrite Hp.
    apply Hplain; [done|]. by apply (wf_target s' Hwf' p).
  - unfold isReactive. rewrite (truthy_flag s' p Hwf').
    apply bool_decide_true. by eexists.
  - assert (reactiveMap s' !! p = None) as Hnone.
    { destruct (reactiveMap s' !! p) as [q|] eqn:Hq; [|done].
      apply (wf_pair s' Hwf') in Hq. destruct (wf_target s' Hwf' q p Hq) as [_ Hno].
      by pose proof (eq_trans (eq_sym Hno) Hp). }
    by apply (ReactiveFacts.reactive_proxy p t).
  - intros Hpl. split.
    + unfold isReactive. rewrite (truthy_flag s o Hs).
      apply bool_decide_false. destruct Hpl as [_ Hno]. rewrite Hno. by intros [? ?].
    + by apply Hplain.
Qed.

Lemma toRaw_undoes_reactive_witness :
  toRaw (reactive 0 (apply ONew empty)).2 (reactive 0 (apply ONew empty)).1 = Some (RawObj 0)
  ∧ isReactive (reactive 0 (apply ONew empty)).2 (reactive 0 (apply ONew empty)).1 = true.
Proof.
  destruct (toRaw_undoes_reactive (apply ONew empty) 0) as (H1 & H2 & _).
  - repeat constructor.
  - vm_compute. lia.
  - split; [exact H1|exact H2].
Defined.

(** X13: once a target has its proxy, every later call (creating objects,
    wrapping, marking raw, the target itself included) leaves [reactive] of
    that target handing back the same proxy. *)
Theorem reactive_proxy_is_stable s op (t p : Obj) :
  reachable s → in_scope op s → reactiveMap s !! t = Some p →
  reactive t (apply op s) = (p, apply op s).
Proof.
  intros Hs Hin Hrm. apply reachable_wf in Hs.
  assert (reactiveMap (apply op s) !! t = Some p) as Hrm'.
  { destruct op as [|o|o]; simpl in *; [done| |done].
    destruct (reactive_cases s o Hs Hin)
      as [(q & _ & ->)|[(_ & _ & ->)|(Hnone & _ & ->)]]; simpl; [done|done|].
    rewrite lookup_insert_ne; [done|]. intros ->.
    by pose proof (eq_trans (eq_sym Hnone) Hrm). }
  unfold reactive. by rewrite Hrm'.
Qed.

Lemma reactive_proxy_is_stable_witness :
  reactive 0 (apply (OMarkRaw 0) (apply (OReactive 0) (apply ONew empty)))
    = (1, apply (OMarkRaw 0) (apply (OReactive 0) (apply ONew empty))).
Proof.
  apply (reactive_proxy_is_stable (apply (OReactive 0) (apply ONew empty)) (OMarkRaw 0) 0 1).
  - apply reach_step; [apply reach_step; [constructor|exact I]|].
    vm_compute. lia.
  - vm_compute. lia.
  - vm_compute. reflexivity.
Defined.
End ReactiveIdentity.

(** ** vnode.ts: building vnodes *)

Module VNodeFacts.
Import Renderer.

Lemma flat_cons x items : flat (Many (x :: items)) = flat x ++ flat (Many items).
Proof. done. Qed.

Lemma flat_app xs ys : flat (Many (xs ++ ys)) = flat (Many xs) ++ flat (Many ys).
Proof.
  induction xs as [|x xs IH]; [done|].
  rewrite <- app_comm_cons, !flat_cons, IH. by rewrite app_assoc.
Qed.

Lemma flat_One cs : flat (Many (One <$> cs)) = cs.
Proof.
  induction cs as [|c cs IH]; [done|]. rewrite fmap_cons, flat_cons, IH. done.
Qed.

(** The early return for [null] and [undefined] agrees with the filter. *)
Lemma normalizeChildren_filter children :
  normalizeChildren children = List.filter is_valid_child (flat children).
Proof. destruct children as [[]|]; done. Qed.

Lemma filter_filter_valid l :
  List.filter is_valid_child (List.filter is_valid_child l) = List.filter is_valid_child l.
Proof.
  induction l as [|c l IH]; [done|]. simpl.
  destruct (is_valid_child c) eqn:Hc; simpl; [|done]. by rewrite Hc, IH.
Qed.

(** X14: whatever is passed as children, the normalized list holds no [null],
    [undefined], boolean or empty string, and normalizing it again changes
    nothing. *)
Theorem normalizeChildren_valid_and_idempotent children :
  Forall (λ c, c ≠ CNull ∧ c ≠ CUndef ∧ c ≠ CStr EmptyString ∧ ∀ b, c ≠ CBool b)
         (normalizeChildren children)
  ∧ normalizeChildren (Many (One <$> normalizeChildren children))
    = normalizeChildren children.
Proof.
  rewrite !normalizeChildren_filter. split.
  - apply Forall_forall. intros c Hc. apply list_elem_of_In, filter_In in Hc as [_ Hv].
    destruct c as [v|s|z|b| |]; try done.
    repeat split; try done. intros [= ->]. done.
  - rewrite flat_One. apply filter_filter_valid.
Qed.

(** X15: only the order of the leaves matters to [normalizeChildren], not how
    they are grouped into arrays: an inner array can be spliced into the
    outer one, and the result for a concatenation is the concatenation of
    the results. *)
Theorem normalizeChildren_ignores_nesting xs ys zs :
  normalizeChildren (Many (xs ++ Many ys :: zs)) = normalizeChildren (Many (xs ++ ys ++ zs))
  ∧ normalizeChildren (Many (xs ++ ys))
    = normalizeChildren (Many xs) ++ normalizeChildren (Many ys).
Proof.
  rewrite !normalizeChildren_filter. split.
  - by rewrite !flat_app, flat_cons.
  - by rewrite flat_app, List.filter_app.
Qed.

(** X16: [createElement] hands its rest arguments to [createVNode] as they
    are when there is exactly one and as an array otherwise; either way the
    children of the vnode are the normalized list of all arguments, so
    [h(t, p, [a, b])] and [h(t, p, a, b)] build the same vnode.  The vnode
    has no node, instance or anchor, and its key is the [key] prop. *)
Theorem createElement_children type props children :
  createElement type props children
  = mkVNode type (default [] props) (normalizeChildren (Many children))
            (key_of_prop (prop_get (default [] props) "key")) None None None.
Proof.
  unfold createElement, createVNode. simpl. f_equal.
  destruct children as [|c [|c' cs]]; try done.
  by rewrite app_nil_r, normalizeChildren_filter.
Qed.
End VNodeFacts.

(** ** Further properties of the renderer *)

Module RendererFacts.
Import Renderer.

(** *** Lifecycle callbacks *)

Lemma hook_calls_events context hooks :
  hook_calls (hook_events context hooks) = hook_id <$> hooks.
Proof.
  unfold hook_calls, hook_events. rewrite reverse_involutive.
  induction hooks as [|h hooks IH]; [done|]. cbn [flat_map fmap list_fmap].
  rewrite <- IH. by destruct (hook_throws h).
Qed.

Lemma hook_errors_events context hooks h :
  RHookError context h ∈ hook_events context hooks
  ↔ ∃ hk, hk ∈ hooks ∧ hook_id hk = h ∧ hook_throws hk = true.
Proof.
  unfold hook_events. rewrite elem_of_reverse.
  induction hooks as [|hk hooks IH]; cbn [flat_map].
  - split; [intros H; by apply not_elem_of_nil in H|].
    intros (? & H & _); by apply not_elem_of_nil in H.
  - rewrite elem_of_app, elem_of_cons, IH. split.
    + intros [[[=]|Hin]|(hk' & Hin & Hid & Ht)].
      * destruct (hook_throws hk) eqn:Hthrows; [|by apply not_elem_of_nil in Hin].
        apply list_elem_of_singleton in Hin. injection Hin as Hid.
        exists hk. split; [left|done].
      * exists hk'. split; [by right|done].
    + intros (hk' & [->|Hin]%elem_of_cons & Hid & Ht).
      * left. right. rewrite Ht, Hid. left.
      * right. by exists hk'.
Qed.

(** X17: [invokeLifecycleHooks] calls every callback of the list, once each
    and in registration order, whether or not earlier ones throw; exactly
    the throwing ones are reported; nothing else changes. *)
Theorem lifecycle_hooks_all_called hooks context st :
  ∃ evs,
    trace (invokeLifecycleHooks hooks context st) = evs ++ trace st
    ∧ hook_calls evs = hook_id <$> hooks
    ∧ (∀ h, RHookError context h ∈ evs
            ↔ ∃ hk, hk ∈ hooks ∧ hook_id hk = h ∧ hook_throws hk = true)
    ∧ core (invokeLifecycleHooks hooks context st) = core st
    ∧ committed (invokeLifecycleHooks hooks context st) = committed st
    ∧ nextNode (invokeLifecycleHooks hooks context st) = nextNode st.
Proof.
  destruct (UnmountFacts.invokeLifecycleHooks_trace hooks context st) as [Ht Hc].
  exists (hook_events context hooks). split; [done|].
  split; [apply hook_calls_events|]. split; [apply hook_errors_events|].
  split; [done|]. unfold invokeLifecycleHooks. clear. revert st.
  induction hooks as [|h hooks IH]; intros st; [done|]. cbn [foldl].
  destruct (IH (if hook_throws h
                then record (RHookError context (hook_id h))
                            (record (RHook context (hook_id h)) st)
                else record (RHook context (hook_id h)) st)) as [-> ->].
  by destruct (hook_throws h).
Qed.

(** *** Unmounting only tears down *)

Lemma teardown_step_refl st : teardown_step st st.
Proof. split; [by exists []|done]. Qed.

Lemma teardown_step_trans st1 st2 st3 :
  teardown_step st1 st2 → teardown_step st2 st3 → teardown_step st1 st3.
Proof.
  intros [(e1 & T1 & F1) (N1 & C1 & D1 & O1)] [(e2 & T2 & F2) (N2 & C2 & D2 & O2)].
  split; [|repeat split; congruence].
  exists (e2 ++ e1). split; [by rewrite T2, T1, app_assoc|by apply Forall_app].
Qed.

Lemma teardown_step_record ev st : teardown_event ev → teardown_step st (record ev st).
Proof. intros H. split; [|done]. exists [ev]. split; [done|by constructor]. Qed.

Lemma teardown_step_hooks hooks st :
  teardown_step st (invokeLifecycleHooks hooks "onUnmounted" st).
Proof.
  unfold invokeLifecycleHooks. revert st.
  induction hooks as [|h hooks IH]; intros st; [apply teardown_step_refl|]. cbn [foldl].
  eapply teardown_step_trans; [|apply IH].
  destruct (hook_throws h).
  - eapply teardown_step_trans; apply teardown_step_record; done.
  - by apply teardown_step_record.
Qed.

Lemma unmount_teardown_step : ∀ v st, teardown_step st (unmount v st).
Proof.
  fix IH 1. intros [type props children key el component vanchor] st.
  assert (Hchildren : ∀ s, teardown_step s (each_vnode unmount children s)).
  { clear -IH. induction children as [|c cs IHcs]; intros s; [apply teardown_step_refl|].
    destruct c as [v| | | | |]; simpl; try apply IHcs.
    eapply teardown_step_trans; [apply IH|apply IHcs]. }
  assert (Hplain : teardown_step st
            (let st1 := each_vnode unmount children st in
             match el with Some n => dom (RemoveFromParent n) st1 | None => st1 end)).
  { simpl. eapply teardown_step_trans; [apply Hchildren|].
    destruct el; [by apply teardown_step_record|apply teardown_step_refl]. }
  destruct type as [tag| | |f].
  - rewrite UnmountFacts.unmount_plain by done. exact Hplain.
  - rewrite UnmountFacts.unmount_fragment. eapply teardown_step_trans; [apply Hchildren|].
    destruct vanchor; [by apply teardown_step_record|apply teardown_step_refl].
  - rewrite UnmountFacts.unmount_plain by done. exact Hplain.
  - destruct component as [[subTree isMounted update mounted unmounted updated c a svg]|].
    2:{ rewrite UnmountFacts.unmount_plain by done. exact Hplain. }
    rewrite UnmountFacts.unmount_component. cbv zeta.
    eapply teardown_step_trans; [apply teardown_step_hooks|].
    apply (teardown_step_trans _
             (match subTree with
              | Some sub => unmount sub (invokeLifecycleHooks unmounted "onUnmounted" st)
              | None => invokeLifecycleHooks unmounted "onUnmounted" st
              end)).
    { destruct subTree as [sub|]; [apply IH|apply teardown_step_refl]. }
    destruct update as [e|]; [|apply teardown_step_refl].
    split; [|done]. exists [RCleanup e]. split; [done|by constructor].
Qed.

(** X18: unmounting only tears down: it calls unmount callbacks, detaches
    nodes and cleans up update effects; it creates no node, commits nothing
    and defers nothing. *)
Theorem unmount_only_tears_down v st :
  (∃ evs, trace (unmount v st) = evs ++ trace st ∧ Forall teardown_event evs)
  ∧ nextNode (unmount v st) = nextNode st
  ∧ committed (unmount v st) = committed st
  ∧ deferred (unmount v st) = deferred st
  ∧ document (unmount v st) = document st.
Proof. apply unmount_teardown_step. Qed.

(** *** Induction over a tree of vnodes *)

Lemma VNode_tree_ind_aux (P : VNode → Prop) :
  (∀ type props children key el component anchor,
     Forall (λ ch, match ch with CNode c => P c | _ => True end) children →
     match type with
     | TComponent (mkComponent _ _ _ _ _ (Some sub)) => P sub
     | _ => True
     end →
     match component with
     | Some (mkInstance (Some sub) _ _ _ _ _ _ _ _) => P sub
     | _ => True
     end →
     P (mkVNode type props children key el component anchor)) →
  ∀ v, P v.
Proof.
  intros H. fix IH 1. intros [type props children key el component anchor]. apply H.
  - induction children as [|c cs IHcs]; constructor; [|exact IHcs].
    destruct c as [v| | | | |]; [apply IH|exact I..].
  - destruct type as [| | |[cid reads hm hu hup [sub|]]]; [exact I..|apply IH|exact I].
  - destruct component as [[[sub|] im up m u upd c a svg]|]; [apply IH|exact I..].
Qed.

Lemma VNode_tree_ind (P : VNode → Prop) :
  (∀ type props children key el component anchor,
     (∀ c, CNode c ∈ children → P c) →
     (∀ cid reads hm hu hup sub,
        type = TComponent (mkComponent cid reads hm hu hup (Some sub)) → P sub) →
     (∀ sub im up m u upd c a svg,
        component = Some (mkInstance (Some sub) im up m u upd c a svg) → P sub) →
     P (mkVNode type props children key el component anchor)) →
  ∀ v, P v.
Proof.
  intros H. apply VNode_tree_ind_aux.
  intros type props children key el component anchor Hc Ht Hi. apply H.
  - intros c Hin. rewrite Forall_forall in Hc. by apply (Hc (CNode c)).
  - intros cid reads hm hu hup sub ->. exact Ht.
  - intros sub im up m u upd c a svg ->. exact Hi.
Qed.

(** *** Mounting realizes the tree *)

Lemma realized_children_each on_node on_text cs st :
  (∀ c s, CNode c ∈ cs → realized (on_node c s).1 = true) →
  (fix all (cs : list VChild) : bool :=
     match cs with
     | [] => true
     | CNode c :: cs' => realized c && all cs'
     | _ :: cs' => all cs'
     end) (each_child on_node on_text cs st).1 = true.
Proof.
  revert st. induction cs as [|c cs IH]; intros st Hall; [done|].
  assert (∀ s, (fix all (cs : list VChild) : bool :=
                  match cs with
                  | [] => true
                  | CNode c :: cs' => realized c && all cs'
                  | _ :: cs' => all cs'
                  end) (each_child on_node on_text cs s).1 = true) as IH'.
  { intros s. apply IH. intros c' s' Hin. apply Hall. by right. }
  destruct c as [v| | | | |]; cbn [each_child].
  - destruct (on_node v st) as [v' st1] eqn:Hv.
    specialize (IH' st1). destruct (each_child on_node on_text cs st1) as [r st2].
    cbn [fst]. simpl in IH'. rewrite IH'.
    assert (realized v' = true) as ->; [|done].
    specialize (Hall v st ltac:(left)). by rewrite Hv in Hall.
  - specialize (IH' (on_text (CStr s) st)).
    by destruct (each_child on_node on_text cs (on_text (CStr s) st)).
  - specialize (IH' (on_text (CNum z) st)).
    by destruct (each_child on_node on_text cs (on_text (CNum z) st)).
  - specialize (IH' (on_text (CBool b) st)).
    by destruct (each_child on_node on_text cs (on_text (CBool b) st)).
  - specialize (IH' st). by destruct (each_child on_node on_text cs st).
  - specialize (IH' st). by destruct (each_child on_node on_text cs st).
Qed.

Lemma mount_realized v container anchor isSVG st :
  realized (mount v container anchor isSVG st).1 = true.
Proof.
  revert container anchor isSVG st. induction v as
    [type props children key el component vanchor IHc IHo _] using VNode_tree_ind.
  intros container anchor isSVG st.
  destruct type as [tag| | |[cid reads hm hu hup output]].
  - cbn [mount].
    destruct (fresh_node st) as [n st1].
    match goal with |- context [each_child ?f ?g children ?s] =>
      pose proof (realized_children_each f g children s) as Hc;
      destruct (each_child f g children s) as [children' st3] end.
    cbn [fst realized]. rewrite bool_decide_true by (by eexists).
    apply Hc. intros c s Hin. by apply IHc.
  - cbn [mount].
    destruct (fresh_node st) as [n st1].
    match goal with |- context [each_child ?f ?g children ?s] =>
      pose proof (realized_children_each f g children s) as Hc;
      destruct (each_child f g children s) as [children' st3] end.
    cbn [fst realized]. rewrite bool_decide_true by (by eexists).
    apply Hc. intros c s Hin. by apply IHc.
  - cbn [mount]. destruct (fresh_node st) as [n st1]. cbn [fst realized].
    apply bool_decide_true. by eexists.
  - cbn [mount]. destruct output as [sub|].
    + match goal with |- context [mount sub ?c ?a ?v ?s] =>
        pose proof (IHo _ _ _ _ _ sub eq_refl c a v s) as Hs;
        destruct (mount sub c a v s) as [sub' s2] end.
      cbn [fst realized]. rewrite bool_decide_true by (by eexists). simpl in Hs. by rewrite Hs.
    + cbn [fst realized]. by rewrite bool_decide_true by (by eexists).
Qed.

(** X19: [mount] realizes the whole tree: in the vnode it leaves behind every
    element and text vnode has its node, every fragment its anchor, and
    every component vnode a mounted instance with its update effect. *)
Theorem mount_realizes v container anchor isSVG st :
  realized (mount v container anchor isSVG st).1 = true.
Proof. apply mount_realized. Qed.

(** *** Patching props *)

Lemma prop_get_NoDup ps k v : NoDup ps.*1 → (k, v) ∈ ps → prop_get ps k = v.
Proof.
  induction ps as [|[k' v'] ps IH]; intros Hnd Hin; [by apply not_elem_of_nil in Hin|].
  rewrite fmap_cons in Hnd. apply NoDup_cons in Hnd as [Hk Hnd]. simpl.
  apply elem_of_cons in Hin as [[= -> ->]|Hin].
  - by rewrite decide_True.
  - rewrite decide_False; [by apply IH|]. intros ->. apply Hk.
    apply list_elem_of_fmap. by exists (k, v).
Qed.

(** A loop that records at most one operation per entry. *)
Lemma foldl_dom {A} (f : RState → A → RState) (pick : A → option DomOp) l st :
  (∀ s x, f s x = match pick x with Some op => dom op s | None => s end) →
  foldl f st l
  = mkRState (core st) ((RDom <$> reverse (omap pick l)) ++ trace st) (nextNode st)
             (committed st) (deferred st) (document st).
Proof.
  intros Hf. revert st. induction l as [|x l IH]; intros st; [by destruct st|].
  cbn [foldl omap list_omap]. rewrite IH, Hf. destruct (pick x) as [op|]; simpl; [|done].
  rewrite reverse_cons, fmap_app, <- app_assoc. done.
Qed.

Lemma patch_props_shape el oldProps newProps isSVG st :
  patch_props el oldProps newProps isSVG st
  = mkRState (core st)
      ((RDom <$> (reverse (omap (λ kv : string * PropVal,
                                   if prop_in newProps kv.1 then None
                                   else Some (SetProp el kv.1 PNull kv.2 isSVG)) oldProps)
                  ++ reverse (omap (λ kv : string * PropVal,
                                      if bool_decide (kv.1 = "key" ∨ kv.1 = "ref") then None
                                      else if decide (prop_get oldProps kv.1 = kv.2) then None
                                      else Some (SetProp el kv.1 kv.2
                                                         (prop_get oldProps kv.1) isSVG))
                                   newProps)))
       ++ trace st)
      (nextNode st) (committed st) (deferred st) (document st).
Proof.
  unfold patch_props.
  rewrite (foldl_dom _ (λ kv : string * PropVal,
                          if bool_decide (kv.1 = "key" ∨ kv.1 = "ref") then None
                          else if decide (prop_get oldProps kv.1 = kv.2) then None
                          else Some (SetProp el kv.1 kv.2 (prop_get oldProps kv.1) isSVG))
                       newProps st).
  2:{ intros s' kv. destruct (bool_decide _); [done|]. by destruct (decide _). }
  rewrite (foldl_dom _ (λ kv : string * PropVal,
                          if prop_in newProps kv.1 then None
                          else Some (SetProp el kv.1 PNull kv.2 isSVG)) oldProps).
  2:{ intros s' kv. by destruct (prop_in newProps kv.1). }
  simpl. by rewrite fmap_app, <- app_assoc.
Qed.

Lemma patch_props_same el ps isSVG st :
  NoDup ps.*1 → patch_props el ps ps isSVG st = st.
Proof.
  intros Hnd. rewrite patch_props_shape.
  assert (∀ (p : string * PropVal → option DomOp) (l : list (string * PropVal)),
            (∀ kv, kv ∈ l → p kv = None) → omap p l = []) as Hnone.
  { intros p l. induction l as [|kv l IH]; intros Hall; [done|]. cbn [omap list_omap].
    rewrite (Hall kv) by left. apply IH. intros kv' H'. apply Hall. by right. }
  rewrite !Hnone; [by destruct st| |].
  + intros [k v] Hin. simpl. destruct (bool_decide (k = "key" ∨ k = "ref")); [done|].
    rewrite decide_True; [done|]. by apply prop_get_NoDup.
  + intros [k v] Hin. simpl. unfold prop_in. rewrite bool_decide_true; [done|].
    apply list_elem_of_fmap. by exists (k, v).
Qed.



(** *** The application object *)

Lemma render_None_committed c st : committed (render None c st) !! c = None.
Proof.
  unfold render. destruct (committed st !! c); cbn [committed with_committed];
    apply lookup_delete_eq.
Qed.

Lemma app_mount_fresh selector app st c :
  resolve selector st = Some c → app_isMounted app = false →
  app_mount selector app st
  = Mounted (mkApp (rootComponent app) true
                   (committed (render (Some (root_vnode app)) c st) !! c) (Some c))
            (render (Some (root_vnode app)) c st).
Proof.
  intros Hres Hm. unfold app_mount. rewrite Hres. cbn [app_isMounted]. by rewrite Hm.
Qed.

(** X21: an application that is not mounted ignores [unmount]; after a
    successful [mount], [unmount] renders nothing into the container, which
    clears its committed tree, and leaves the application ready to be
    mounted again: the next [mount] renders the root component anew. *)
Theorem app_unmount_then_remount selector app st c :
  resolve selector st = Some c → app_isMounted app = false →
  app_unmount app st = (app, st)
  ∧ ∃ app1,
      app_mount selector app st = Mounted app1 (render (Some (root_vnode app)) c st)
      ∧ ∃ app2,
          app_unmount app1 (render (Some (root_vnode app)) c st)
            = (app2, render None c (render (Some (root_vnode app)) c st))
          ∧ app_isMounted app2 = false
          ∧ rootVNode app2 = None
          ∧ committed (render None c (render (Some (root_vnode app)) c st)) !! c = None
          ∧ ∀ st2, resolve selector st2 = Some c →
              ∃ app3, app_mount selector app2 st2
                        = Mounted app3 (render (Some (root_vnode app)) c st2)
                      ∧ app_isMounted app3 = true.
Proof.
  intros Hres Hm. split.
  { unfold app_unmount. by rewrite Hm. }
  rewrite (app_mount_fresh selector app st c Hres Hm).
  eexists. split; [done|]. unfold app_unmount. cbn [app_isMounted app_container].
  eexists. split; [done|]. split; [done|]. split; [done|]. split.
  - apply render_None_committed.
  - intros st2 Hres2.
    match goal with |- ∃ app3, app_mount selector ?a st2 = _ ∧ _ =>
      rewrite (app_mount_fresh selector a st2 c Hres2 eq_refl) end.
    eexists. split; [reflexivity|done].
Qed.

Lemma app_unmount_then_remount_witness :
  app_unmount (createApp widget) page = (createApp widget, page)
  ∧ ∃ app1,
      app_mount (BySelector "#app") (createApp widget) page = Mounted app1 mounted_widget
      ∧ ∃ app2,
          app_unmount app1 mounted_widget = (app2, render None 1 mounted_widget)
          ∧ app_isMounted app2 = false
          ∧ rootVNode app2 = None
          ∧ committed (render None 1 mounted_widget) !! 1 = None
          ∧ ∀ st2, resolve (BySelector "#app") st2 = Some 1 →
              ∃ app3, app_mount (BySelector "#app") app2 st2
                        = Mounted app3 (render (Some (root_vnode (createApp widget))) 1 st2)
                      ∧ app_isMounted app3 = true.
Proof.
  apply (app_unmount_then_remount (BySelector "#app") (createApp widget) page 1);
    reflexivity.
Defined.

(** X22: a [mount] call whose target is not found leaves the application
    without a container; if the application was mounted, [unmount] does
    nothing from then on, and the committed tree stays. *)
Theorem failed_mount_disables_unmount selector app st :
  resolve selector st = None → app_isMounted app = true →
  ∃ app', app_mount selector app st = Threw (not_found selector) app' st
          ∧ app_isMounted app' = true
          ∧ ∀ st', app_unmount app' st' = (app', st').
Proof.
  intros Hres Hm. unfold app_mount. rewrite Hres. eexists. split; [done|].
  split; [done|]. intros st'. unfold app_unmount. simpl. by rewrite Hm.
Qed.

Lemma failed_mount_disables_unmount_witness :
  ∃ app', app_mount (BySelector "#nope") (mkApp widget true (Some widget_vnode) (Some 1))
                    mounted_widget
            = Threw (not_found (BySelector "#nope")) app' mounted_widget
          ∧ app_isMounted app' = true
          ∧ ∀ st', app_unmount app' st' = (app', st').
Proof.
  apply (failed_mount_disables_unmount (BySelector "#nope")
           (mkApp widget true (Some widget_vnode) (Some 1)) mounted_widget);
    reflexivity.
Defined.
(** *** Rendering the same tree again *)

Lemma keyed_pairs_keys cs : (keyed_pairs cs).*1 = omap child_key cs.
Proof.
  unfold keyed_pairs. induction cs as [|c cs IH]; [done|]. cbn [omap list_omap].
  destruct c as [v| | | | |]; cbn [child_key]; try exact IH.
  destruct (v_key v); cbn [fmap option_fmap option_map]; [|exact IH].
  rewrite fmap_cons. by rewrite IH.
Qed.

Lemma collect_keyed_pairs cs :
  NoDup (omap child_key cs) → collect_keyed cs = keyed_pairs cs.
Proof.
  unfold collect_keyed.
  enough (∀ acc, NoDup (acc.*1 ++ omap child_key cs) →
            foldl (λ m child,
                     match child with
                     | CNode v => match v_key v with Some k => jmap_set k v m | None => m end
                     | _ => m
                     end) acc cs = acc ++ keyed_pairs cs) as Hgen by (intros; by apply (Hgen [])).
  induction cs as [|c cs IH]; intros acc Hnd; cbn [foldl].
  { by rewrite app_nil_r. }
  unfold keyed_pairs. cbn [omap list_omap]. fold (keyed_pairs cs).
  destruct c as [v| | | | |]; try (by apply IH).
  simpl in *. destruct (v_key v) as [k|] eqn:Hk; simpl in *; [|by apply IH].
  rewrite PatchFacts.jmap_set_fresh.
  - rewrite IH; [by rewrite <- app_assoc|]. rewrite fmap_app. simpl. by rewrite <- app_assoc.
  - apply NoDup_app in Hnd as (_ & Hd & _). intros Hin. apply (Hd k Hin). left.
Qed.

Lemma collect_unkeyed_list cs : collect_unkeyed cs = unkeyed_list cs.
Proof.
  unfold collect_unkeyed.
  enough (∀ acc,
            foldl (λ l child,
                     match child with
                     | CNode v => match v_key v with Some _ => l | None => l ++ [v] end
                     | _ => l
                     end) acc cs = acc ++ unkeyed_list cs) as Hgen by apply (Hgen []).
  induction cs as [|c cs IH]; intros acc; cbn [foldl].
  { by rewrite app_nil_r. }
  unfold unkeyed_list. cbn [omap list_omap]. fold (unkeyed_list cs).
  destruct c as [v| | | | |]; try apply IH.
  destruct (v_key v); [apply IH|]. rewrite IH. by rewrite <- app_assoc.
Qed.

Lemma jmap_get_app_notin {V} k (m1 m2 : list (VKey * V)) :
  k ∉ m1.*1 → jmap_get k (m1 ++ m2) = jmap_get k m2.
Proof.
  induction m1 as [|[k' v'] m1 IH]; intros Hk; [done|]. simpl.
  rewrite fmap_cons, not_elem_of_cons in Hk. destruct Hk as [Hne Hk].
  rewrite decide_False by (simpl in Hne; congruence). by apply IH.
Qed.

Lemma jmap_get_delete_all_ne {V} k ks (m : list (VKey * V)) :
  k ∉ ks → jmap_get k (foldl (λ m k, jmap_delete k m) m ks) = jmap_get k m.
Proof.
  revert m. induction ks as [|k' ks IH]; intros m Hk; [done|]. cbn [foldl].
  rewrite not_elem_of_cons in Hk. destruct Hk as [Hne Hk].
  rewrite IH by done. by apply PatchFacts.jmap_get_delete_ne.
Qed.

(** In a list with distinct keys the pool finds each keyed child itself. *)
Lemma jmap_get_keyed_pairs done c rest k :
  NoDup (omap child_key (done ++ CNode c :: rest)) → v_key c = Some k →
  jmap_get k (keyed_pairs (done ++ CNode c :: rest)) = Some c.
Proof.
  intros Hnd Hk. unfold keyed_pairs. rewrite omap_app. fold (keyed_pairs done).
  rewrite omap_app in Hnd. cbn [omap list_omap child_key] in *. rewrite Hk in *. simpl in *.
  rewrite jmap_get_app_notin.
  - simpl. by rewrite decide_True.
  - rewrite keyed_pairs_keys. apply NoDup_app in Hnd as (_ & Hd & _).
    intros Hin. apply (Hd k Hin). left.
Qed.

Lemma reconcile_node (patch : VNode → VNode → NodeId → option NodeId → bool → RState →
                              VNode * RState)
    unk container anchor isSVG n news cur idx st :
  reconcile patch unk container anchor isSVG (CNode n :: news) cur idx st =
    let '(oldChild, oldKeyed', unkeyedIndex') :=
      match v_key n with
      | Some k =>
          match jmap_get k cur with
          | Some o => (Some o, jmap_delete k cur, idx)
          | None => (None, cur, idx)
          end
      | None => (unk !! idx, cur, S idx)
      end in
    let '(newChild', st1) :=
      match oldChild with
      | Some o => patch o n container anchor isSVG st
      | None => mount n container anchor isSVG st
      end in
    let '(r, fin) := reconcile patch unk container anchor isSVG news
                       oldKeyed' unkeyedIndex' st1 in
    (CNode newChild' :: r, fin).
Proof. reflexivity. Qed.

Lemma blueprint_key v : v_key (blueprint v) = v_key v.
Proof. by destruct v. Qed.

Lemma blueprint_type v : v_type (blueprint v) = v_type v.
Proof. by destruct v. Qed.

Lemma same_type_refl t : same_type t t = true.
Proof.
  destruct t as [s| | |[c r hm hu hup o]]; simpl; try done; by apply bool_decide_true.
Qed.

Lemma reconcile_skip (patch : VNode → VNode → NodeId → option NodeId → bool → RState →
                              VNode * RState)
    unk container anchor isSVG child news cur idx st :
  match child with CNode _ => False | _ => True end →
  reconcile patch unk container anchor isSVG (child :: news) cur idx st =
    let '(r, fin) := reconcile patch unk container anchor isSVG news cur idx st in
    (child :: r, fin).
Proof. by destruct child. Qed.

(** Reconciling a list of children against its own blueprint: every child
    meets itself, and nothing is left over. *)
Lemma reconcile_self cs container anchor isSVG st :
  Forall (λ ch, is_nullish ch || is_object ch = true) cs →
  NoDup (omap child_key cs) →
  (∀ c, CNode c ∈ cs → ∀ c' a' svg' s, (patch c (blueprint c) c' a' svg' s).2 = s) →
  ∀ done rest, cs = done ++ rest →
    (reconcile patch (unkeyed_list cs) container anchor isSVG (map_vnodes blueprint rest)
       (foldl (λ m k, jmap_delete k m) (keyed_pairs cs) (omap child_key done))
       (length (unkeyed_list done)) st).2
    = (foldl (λ m k, jmap_delete k m) (keyed_pairs cs) (omap child_key cs),
       length (unkeyed_list cs), st).
Proof.
  intros Hok Hnd Hsilent done rest. revert done.
  induction rest as [|ch rest IH]; intros done Hcs.
  { rewrite app_nil_r in Hcs. by subst. }
  specialize (IH (done ++ [ch])). rewrite <- app_assoc in IH. specialize (IH Hcs).
  assert (ch ∈ cs) as Hin by (rewrite Hcs, elem_of_app; right; left).
  destruct ch as [c| | | | |].
  - cbn [map_vnodes]. rewrite reconcile_node, blueprint_key.
    assert ((patch c (blueprint c) container anchor isSVG st).2 = st) as Hp
      by (by apply Hsilent).
    destruct (v_key c) as [k|] eqn:Hk.
    + rewrite jmap_get_delete_all_ne.
      2:{ rewrite Hcs, omap_app in Hnd. cbn [omap list_omap child_key] in Hnd.
          rewrite Hk in Hnd. apply NoDup_app in Hnd as (_ & Hd & _).
          intros Hin'. apply (Hd k Hin'). left. }
      rewrite Hcs at 1. rewrite jmap_get_keyed_pairs; [|by rewrite <- Hcs|done].
      destruct (patch c (blueprint c) container anchor isSVG st) as [n' st1].
      simpl in Hp. subst st1.
      rewrite omap_app, foldl_app in IH. cbn [omap list_omap child_key] in IH.
      rewrite Hk in IH. cbn [foldl] in IH.
      unfold unkeyed_list in IH at 2. rewrite omap_app in IH.
      cbn [omap list_omap] in IH. rewrite Hk in IH. rewrite app_nil_r in IH.
      fold (unkeyed_list done) in IH.
      match goal with |- context [reconcile ?p ?u ?c ?a ?v ?n ?m ?i ?s] =>
        destruct (reconcile p u c a v n m i s) as [r fin] end.
      exact IH.
    + assert (unkeyed_list cs !! length (unkeyed_list done) = Some c) as ->.
      { rewrite Hcs. unfold unkeyed_list. rewrite omap_app. cbn [omap list_omap].
        rewrite Hk. apply list_lookup_middle. done. }
      destruct (patch c (blueprint c) container anchor isSVG st) as [n' st1].
      simpl in Hp. subst st1.
      rewrite omap_app in IH. cbn [omap list_omap child_key] in IH.
      rewrite Hk, app_nil_r in IH.
      unfold unkeyed_list in IH at 2. rewrite omap_app in IH.
      cbn [omap list_omap] in IH. rewrite Hk in IH. rewrite length_app in IH.
      fold (unkeyed_list done) in IH. simpl in IH. rewrite Nat.add_1_r in IH.
      match goal with |- context [reconcile ?p ?u ?c ?a ?v ?n ?m ?i ?s] =>
        destruct (reconcile p u c a v n m i s) as [r fin] end.
      exact IH.
  - rewrite Forall_forall in Hok. by specialize (Hok _ Hin).
  - rewrite Forall_forall in Hok. by specialize (Hok _ Hin).
  - rewrite Forall_forall in Hok. by specialize (Hok _ Hin).
  - cbn [map_vnodes]. rewrite reconcile_skip by done.
    rewrite omap_app in IH. cbn [omap list_omap child_key] in IH. rewrite app_nil_r in IH.
    unfold unkeyed_list in IH at 2. rewrite omap_app in IH.
    cbn [omap list_omap] in IH. rewrite app_nil_r in IH. fold (unkeyed_list done) in IH.
    match goal with |- context [reconcile ?p ?u ?c ?a ?v ?n ?m ?i ?s] =>
      destruct (reconcile p u c a v n m i s) as [r fin] end.
    exact IH.
  - cbn [map_vnodes]. rewrite reconcile_skip by done.
    rewrite omap_app in IH. cbn [omap list_omap child_key] in IH. rewrite app_nil_r in IH.
    unfold unkeyed_list in IH at 2. rewrite omap_app in IH.
    cbn [omap list_omap] in IH. rewrite app_nil_r in IH. fold (unkeyed_list done) in IH.
    match goal with |- context [reconcile ?p ?u ?c ?a ?v ?n ?m ?i ?s] =>
      destruct (reconcile p u c a v n m i s) as [r fin] end.
    exact IH.
Qed.

Lemma single_text_map f cs : single_text (map_vnodes f cs) = single_text cs.
Proof.
  destruct cs as [|c1 [|c2 cs]]; [done| |].
  - by destruct c1.
  - destruct c1, c2; done.
Qed.

Lemma map_vnodes_ok f cs :
  Forall (λ ch, is_nullish ch || is_object ch = true) cs →
  Forall (λ ch, is_nullish ch || is_object ch = true) (map_vnodes f cs).
Proof.
  induction 1 as [|c cs Hc _ IH]; [constructor|].
  destruct c; cbn [map_vnodes]; constructor; done.
Qed.

Lemma forallb_ok cs :
  Forall (λ ch, is_nullish ch || is_object ch = true) cs →
  forallb (λ c, is_nullish c || is_object c) cs = true.
Proof. induction 1 as [|c cs Hc _ IH]; [done|]. simpl. by rewrite Hc, IH. Qed.

(** Patching a list of children against its own blueprint changes nothing. *)
Lemma patchChildren_self cs anchor container isSVG st :
  is_Some (single_text cs)
  ∨ (Forall (λ ch, is_nullish ch || is_object ch = true) cs
     ∧ NoDup (omap child_key cs)
     ∧ ∀ c, CNode c ∈ cs → ∀ c' a' svg' s, (patch c (blueprint c) c' a' svg' s).2 = s) →
  (patchChildren patch cs (map_vnodes blueprint cs) anchor container isSVG st).2 = st.
Proof.
  intros H. unfold patchChildren. rewrite single_text_map.
  destruct (single_text cs) as [o|] eqn:Hst.
  { by rewrite decide_True. }
  destruct H as [[? [=]]|(Hok & Hnd & Hsilent)].
  unfold hasOnlyVNodeChildren.
  rewrite (forallb_ok cs Hok), (forallb_ok _ (map_vnodes_ok blueprint cs Hok)).
  cbn [andb negb].
  rewrite (collect_keyed_pairs cs Hnd), collect_unkeyed_list.
  pose proof (reconcile_self cs container anchor isSVG st Hok Hnd Hsilent [] cs eq_refl) as Hr.
  cbn [omap list_omap foldl length] in Hr.
  change (unkeyed_list []) with (@nil VNode) in Hr. cbn [length] in Hr.
  destruct (reconcile patch (unkeyed_list cs) container anchor isSVG
              (map_vnodes blueprint cs) (keyed_pairs cs) 0 st) as [children' [[pool idx] st1]].
  simpl in Hr. injection Hr as -> -> ->.
  rewrite PatchFacts.jmap_delete_all.
  - cbn [foldl snd]. by rewrite drop_all.
  - intros kv Hin. rewrite <- keyed_pairs_keys. apply list_elem_of_fmap. by exists kv.
Qed.

Lemma tidy_children cs :
  (fix all (cs : list VChild) : bool :=
     match cs with
     | [] => true
     | CNode c :: cs' => tidy c && all cs'
     | CNull :: cs' | CUndef :: cs' => all cs'
     | _ => false
     end) cs = true →
  Forall (λ ch, is_nullish ch || is_object ch = true) cs
  ∧ ∀ c, CNode c ∈ cs → tidy c = true.
Proof.
  induction cs as [|ch cs IH]; intros H.
  { split; [constructor|]. intros c Hc. by apply not_elem_of_nil in Hc. }
  destruct ch as [v| | | | |]; try done.
  - apply andb_true_iff in H as [Hv H]. destruct (IH H) as [IH1 IH2].
    split; [by constructor|]. intros c [[= ->]|Hc]%elem_of_cons; [done|by apply IH2].
  - destruct (IH H) as [IH1 IH2].
    split; [by constructor|]. intros c [[=]|Hc]%elem_of_cons. by apply IH2.
  - destruct (IH H) as [IH1 IH2].
    split; [by constructor|]. intros c [[=]|Hc]%elem_of_cons. by apply IH2.
Qed.

Lemma first_text_map f cs : first_text (map_vnodes f cs) = first_text cs.
Proof. destruct cs as [|[]]; done. Qed.

Lemma props_changed_same ps :
  NoDup ps.*1 → props_changed ps ps [] [] = false.
Proof.
  intros Hnd. unfold props_changed.
  set (np := filter (λ kv : string * PropVal, kv.1 ≠ "children") ps).
  assert (NoDup np.*1) as Hnp.
  { unfold np. clear -Hnd. induction ps as [|[k v] ps IH]; [constructor|].
    rewrite fmap_cons in Hnd. apply NoDup_cons in Hnd as [Hk Hnd].
    rewrite filter_cons. case_decide; [|by apply IH].
    rewrite fmap_cons. apply NoDup_cons. split; [|by apply IH].
    intros Hin. apply Hk. apply list_elem_of_fmap in Hin as ([k' v'] & -> & Hin).
    apply list_elem_of_filter in Hin as [_ Hin]. apply list_elem_of_fmap. by exists (k', v'). }
  assert (existsb (λ kv, negb (bool_decide (prop_get np kv.1 = kv.2))) np = false) as ->.
  { apply not_true_is_false. intros Hex. apply existsb_exists in Hex as ([k v] & Hin & Hne).
    apply list_elem_of_In in Hin. simpl in Hne.
    rewrite (prop_get_NoDup np k v Hnp Hin) in Hne. by rewrite bool_decide_true in Hne. }
  assert (existsb (λ kv, negb (prop_in np kv.1)) np = false) as ->.
  { apply not_true_is_false. intros Hex. apply existsb_exists in Hex as ([k v] & Hin & Hne).
    apply list_elem_of_In in Hin. unfold prop_in in Hne. simpl in Hne.
    rewrite bool_decide_true in Hne; [done|]. apply list_elem_of_fmap. by exists (k, v). }
  by rewrite bool_decide_true.
Qed.

Lemma patch_blueprint_silent v :
  tidy v = true →
  ∀ container anchor isSVG st, (patch v (blueprint v) container anchor isSVG st).2 = st.
Proof.
  induction v as [type props children key el component vanchor IHc _ _] using VNode_tree_ind.
  intros Htidy container anchor isSVG st.
  cbn [tidy] in Htidy. apply andb_true_iff in Htidy as [Hprops Htype].
  apply bool_decide_eq_true in Hprops.
  cbn [blueprint patch v_type v_children v_props v_el v_anchor v_component].
  rewrite same_type_refl. cbn [negb].
  assert (∀ a c svg s,
            match type with TTag _ | TFragment => True | _ => False end →
            (patchChildren patch children (map_vnodes blueprint children) a c svg s).2 = s)
    as Hchildren.
  { intros a c svg s Hty. apply patchChildren_self.
    destruct (single_text children) as [o|] eqn:Hst; [left; by eexists|right].
    assert (bool_decide (NoDup (omap child_key children))
            && (fix all (cs : list VChild) : bool :=
                  match cs with
                  | [] => true
                  | CNode c :: cs' => tidy c && all cs'
                  | CNull :: cs' | CUndef :: cs' => all cs'
                  | _ => false
                  end) children = true) as Hboth by (by destruct type).
    apply andb_true_iff in Hboth as [Hnd Hall]. apply bool_decide_eq_true in Hnd.
    destruct (tidy_children children Hall) as [Hok Htc].
    split; [done|]. split; [done|]. intros c0 Hin c' a' svg' s'. apply IHc; [done|].
    by apply Htc. }
  destruct type as [tag| | |[cid reads hm hu hup output]].
  - destruct el as [n|]; [|done].
    rewrite (patch_props_same n props _ st Hprops).
    match goal with |- context [patchChildren ?p ?o ?n' ?a ?c ?v ?s] =>
      pose proof (Hchildren a c v s I) as Hc;
      destruct (patchChildren p o n' a c v s) as [children' st2] end.
    exact Hc.
  - match goal with |- context [patchChildren ?p ?o ?n' ?a ?c ?v ?s] =>
      pose proof (Hchildren a c v s I) as Hc;
      destruct (patchChildren p o n' a c v s) as [children' st2] end.
    exact Hc.
  - rewrite first_text_map. by rewrite decide_True.
  - destruct children as [|c0 cs]; [|done]. cbn [map_vnodes].
    destruct component as [[subTree isMounted update mounted unmounted updated
                            icontainer ianchor iSVG]|]; [|done].
    by rewrite (props_changed_same props Hprops).
Qed.

(** X23: rendering again the tree that is on the surface does nothing: when
    a mounted (realized) tidy tree is patched against its own description,
    no operation is issued, no callback or effect runs and no state changes;
    the new vnode takes over the node of the old one. *)
Theorem rerender_of_same_tree_is_silent v container anchor isSVG st :
  tidy v = true → realized v = true →
  (patch v (blueprint v) container anchor isSVG st).2 = st
  ∧ v_el (patch v (blueprint v) container anchor isSVG st).1 = v_el v.
Proof.
  intros Htidy _. split; [by apply patch_blueprint_silent|].
  apply PatchFacts.patch_in_place. rewrite blueprint_type. apply same_type_refl.
Qed.

Example abc_tree_is_committed : committed abc !! 1 = Some abc_tree.
Proof. vm_compute. reflexivity. Qed.

Lemma rerender_of_same_tree_is_silent_witness :
  (patch abc_tree (blueprint abc_tree) 1 None false abc).2 = abc
  ∧ v_el (patch abc_tree (blueprint abc_tree) 1 None false abc).1 = Some 100.
Proof.
  apply (rerender_of_same_tree_is_silent abc_tree 1 None false abc);
    vm_compute; reflexivity.
Defined.

Example mixed_children_are_rebuilt :
  tidy mixed_tree = false
  ∧ trace (render (Some (blueprint mixed_tree)) 1 mixed)
    = [RDom (InsertBefore 100 104 None); RDom (CreateElement 104 "b" false);
       RDom (InsertBefore 100 103 None); RDom (CreateTextNode 103 "hi");
       RDom (RemoveChildrenBefore 100 None); RDom (RemoveFromParent 102)]
      ++ trace mixed.
Proof. split; vm_compute; reflexivity. Qed.

(** *** Attribute names *)

Lemma to_lower_not_upper c : is_upper (to_lower c) = false.
Proof. destruct c as [[] [] [] [] [] [] [] []]; reflexivity. Qed.

Lemma lower_all_not_upper s : all_chars (λ c, negb (is_upper c)) (lower_all s) = true.
Proof.
  induction s as [|c s IH]; [done|]. simpl. by rewrite to_lower_not_upper, IH.
Qed.

Lemma lower_all_id s : all_chars (λ c, negb (is_upper c)) s = true → lower_all s = s.
Proof.
  induction s as [|c s IH]; [done|]. simpl. intros [Hc Hs]%andb_true_iff.
  rewrite IH by done. unfold to_lower. by destruct (is_upper c).
Qed.

Lemma hyphenate_cons c1 c2 rest :
  hyphenate (String c1 (String c2 rest))
  = if is_lower c1 && is_upper c2
    then String c1 (String hyphen (String c2 (hyphenate rest)))
    else String c1 (hyphenate (String c2 rest)).
Proof. reflexivity. Qed.

Lemma hyphenate_id s : all_chars (λ c, negb (is_upper c)) s = true → hyphenate s = s.
Proof.
  induction s as [|c1 s IH]; [done|]. intros [Hc Hs]%andb_true_iff.
  destruct s as [|c2 rest]; [done|]. rewrite hyphenate_cons.
  assert (is_upper c2 = false) as Hc2.
  { cbn [all_chars] in Hs. apply andb_true_iff in Hs as [H _]. by destruct (is_upper c2). }
  rewrite Hc2, andb_false_r. by rewrite IH.
Qed.

(** X24: on ASCII strings [camelToKebab] yields a string without capital
    letters, leaves a string without capital letters as it is, and is
    therefore idempotent. *)
Theorem camelToKebab_lower_and_idempotent s :
  ascii_only s = true →
  all_chars (λ c, negb (is_upper c)) (camelToKebab s) = true
  ∧ (all_chars (λ c, negb (is_upper c)) s = true → camelToKebab s = s)
  ∧ camelToKebab (camelToKebab s) = camelToKebab s.
Proof.
  intros _.
  assert (∀ s, all_chars (λ c, negb (is_upper c)) s = true → camelToKebab s = s) as Hid.
  { intros s' Hs. unfold camelToKebab. rewrite (hyphenate_id s' Hs). by apply lower_all_id. }
  split; [apply lower_all_not_upper|]. split; [apply Hid|].
  apply Hid. apply lower_all_not_upper.
Qed.

Lemma camelToKebab_lower_and_idempotent_witness :
  camelToKebab "stroke-width" = "stroke-width".
Proof.
  apply (proj1 (proj2 (camelToKebab_lower_and_idempotent "stroke-width" eq_refl))).
  reflexivity.
Defined.

Example camelToKebab_examples :
  camelToKebab "strokeWidth" = "stroke-width"
  ∧ camelToKebab "viewBox" = "view-box"
  ∧ camelToKebab "aBC" = "a-bc"
  ∧ camelToKebab "XMLHttp" = "xmlhttp".
Proof. repeat split. Qed.

(** *** The committed tree stays realized *)

Lemma all_realized_fix cs :
  (fix all (cs : list VChild) : bool :=
     match cs with
     | [] => true
     | CNode c :: cs' => realized c && all cs'
     | _ :: cs' => all cs'
     end) cs = all_realized cs.
Proof. induction cs as [|[] cs IH]; simpl; by rewrite ?IH. Qed.

Lemma realized_tag tag props children key el component anchor :
  realized (mkVNode (TTag tag) props children key el component anchor)
  = bool_decide (is_Some el) && all_realized children.
Proof. cbn [realized]. by rewrite all_realized_fix. Qed.

Lemma realized_fragment props children key el component anchor :
  realized (mkVNode TFragment props children key el component anchor)
  = bool_decide (is_Some anchor) && all_realized children.
Proof. cbn [realized]. by rewrite all_realized_fix. Qed.

Lemma all_realized_elem cs :
  all_realized cs = true ↔ ∀ c, CNode c ∈ cs → realized c = true.
Proof.
  unfold all_realized. rewrite forallb_forall. split.
  - intros H c Hin. apply (H (CNode c)). by apply list_elem_of_In.
  - intros H [c| | | | |] Hin; try done. apply H. by apply list_elem_of_In.
Qed.

Lemma all_realized_each on_node on_text cs st :
  (∀ c s, CNode c ∈ cs → realized (on_node c s).1 = true) →
  all_realized (each_child on_node on_text cs st).1 = true.
Proof.
  intros H. rewrite <- all_realized_fix. by apply realized_children_each.
Qed.

Lemma collect_keyed_elem cs k o :
  jmap_get k (collect_keyed cs) = Some o → CNode o ∈ cs.
Proof.
  unfold collect_keyed.
  enough (∀ acc,
            jmap_get k (foldl (λ m child,
                     match child with
                     | CNode v => match v_key v with Some k => jmap_set k v m | None => m end
                     | _ => m
                     end) acc cs) = Some o →
            jmap_get k acc = Some o ∨ CNode o ∈ cs) as Hgen.
  { intros H. by destruct (Hgen [] H). }
  induction cs as [|c cs IH]; intros acc H; cbn [foldl] in H; [by left|].
  destruct (IH _ H) as [Hacc|Hin]; [|right; by right].
  destruct c as [v| | | | |]; try (by left).
  destruct (v_key v) as [k'|]; [|by left].
  assert (∀ m : list (VKey * VNode),
            jmap_get k (jmap_set k' v m) = if decide (k' = k) then Some v else jmap_get k m)
    as Hset.
  { clear. induction m as [|[k0 v0] m IHm]; simpl.
    - by destruct (decide (k' = k)).
    - destruct (decide (k0 = k')) as [->|Hne]; simpl.
      + by destruct (decide (k' = k)).
      + destruct (decide (k0 = k)) as [->|Hne2]; [by rewrite decide_False by congruence|].
        exact IHm. }
  rewrite Hset in Hacc. destruct (decide (k' = k)); [|by left].
  injection Hacc as ->. right. left.
Qed.

Lemma collect_unkeyed_elem cs i o :
  collect_unkeyed cs !! i = Some o → CNode o ∈ cs.
Proof.
  rewrite collect_unkeyed_list. intros H. apply list_elem_of_lookup_2 in H.
  unfold unkeyed_list in H. apply list_elem_of_omap in H as (ch & Hin & Hch).
  destruct ch as [v| | | | |]; try done. destruct (v_key v); [done|]. by injection Hch as ->.
Qed.

Lemma jmap_get_delete_eq {V} k (m : list (VKey * V)) :
  jmap_get k (jmap_delete k m) = None.
Proof.
  unfold jmap_delete. induction m as [|[k0 v0] m IH]; [done|].
  rewrite filter_cons. simpl. destruct (decide (k0 = k)) as [->|Hk0].
  - by rewrite decide_False by (simpl; tauto).
  - rewrite decide_True by (simpl; congruence). simpl. by rewrite decide_False.
Qed.

Lemma jmap_get_delete_Some {V} k k' (m : list (VKey * V)) o :
  jmap_get k (jmap_delete k' m) = Some o → jmap_get k m = Some o.
Proof.
  destruct (decide (k = k')) as [->|Hne].
  - by rewrite jmap_get_delete_eq.
  - by rewrite PatchFacts.jmap_get_delete_ne.
Qed.

Lemma reconcile_realized unk container anchor isSVG news :
  (∀ n, CNode n ∈ news → ∀ o c a svg s,
     realized o = true → realized (patch o n c a svg s).1 = true) →
  (∀ i o, unk !! i = Some o → realized o = true) →
  ∀ cur idx st,
    (∀ k o, jmap_get k cur = Some o → realized o = true) →
    all_realized (reconcile patch unk container anchor isSVG news cur idx st).1 = true.
Proof.
  intros Hpatch Hunk. induction news as [|ch news IH]; intros cur idx st Hcur; [done|].
  assert (∀ cur' idx' st',
            (∀ k o, jmap_get k cur' = Some o → realized o = true) →
            all_realized (reconcile patch unk container anchor isSVG news cur' idx' st').1
            = true) as IH'.
  { apply IH. intros n Hin. apply Hpatch. by right. }
  destruct ch as [n| | | | |].
  2-6: rewrite reconcile_skip by done;
       specialize (IH' cur idx st Hcur);
       by destruct (reconcile patch unk container anchor isSVG news cur idx st).
  rewrite reconcile_node.
  assert (∀ o c a svg s, realized o = true → realized (patch o n c a svg s).1 = true)
    as Hn by (apply Hpatch; left).
  destruct (v_key n) as [k|].
  - destruct (jmap_get k cur) as [o|] eqn:Hget.
    + pose proof (Hn o container anchor isSVG st (Hcur k o Hget)) as Hr.
      destruct (patch o n container anchor isSVG st) as [n' st1].
      specialize (IH' (jmap_delete k cur) idx st1).
      destruct (reconcile patch unk container anchor isSVG news (jmap_delete k cur) idx st1)
        as [r fin].
      simpl in *. rewrite Hr. apply IH'. intros k' o' H'. apply (Hcur k').
      by apply jmap_get_delete_Some in H'.
    + pose proof (mount_realized n container anchor isSVG st) as Hr.
      destruct (mount n container anchor isSVG st) as [n' st1].
      specialize (IH' cur idx st1 Hcur).
      destruct (reconcile patch unk container anchor isSVG news cur idx st1) as [r fin].
      simpl in *. by rewrite Hr.
  - destruct (unk !! idx) as [o|] eqn:Hget.
    + pose proof (Hn o container anchor isSVG st (Hunk idx o Hget)) as Hr.
      destruct (patch o n container anchor isSVG st) as [n' st1].
      specialize (IH' cur (S idx) st1 Hcur).
      destruct (reconcile patch unk container anchor isSVG news cur (S idx) st1) as [r fin].
      simpl in *. by rewrite Hr.
    + pose proof (mount_realized n container anchor isSVG st) as Hr.
      destruct (mount n container anchor isSVG st) as [n' st1].
      specialize (IH' cur (S idx) st1 Hcur).
      destruct (reconcile patch unk container anchor isSVG news cur (S idx) st1) as [r fin].
      simpl in *. by rewrite Hr.
Qed.

Lemma patchChildren_realized olds news anchor container isSVG st :
  all_realized olds = true →
  (∀ n, CNode n ∈ news → ∀ o c a svg s,
     realized o = true → realized (patch o n c a svg s).1 = true) →
  all_realized (patchChildren patch olds news anchor container isSVG st).1 = true.
Proof.
  intros Holds Hpatch. rewrite all_realized_elem in Holds. unfold patchChildren.
  assert (∀ c, single_text news = Some c → all_realized news = true) as Hsingle.
  { intros c. destruct news as [|c1 [|c2 cs]]; try done. by destruct c1. }
  destruct (single_text olds) as [o|] eqn:Ho; [destruct (single_text news) as [n|] eqn:Hn|].
  { cbn [fst]. by apply (Hsingle n). }
  all: destruct (negb (hasOnlyVNodeChildren olds news)).
  1,3: apply all_realized_each; intros; apply mount_realized.
  all: match goal with |- context [reconcile ?p ?u ?c ?a ?v ?n ?m ?ix ?s] =>
         pose proof (reconcile_realized u c a v n Hpatch) as Hr;
         specialize (Hr (λ j o H, Holds o (collect_unkeyed_elem olds j o H)) m ix s
                        (λ k o H, Holds o (collect_keyed_elem olds k o H)));
         destruct (reconcile p u c a v n m ix s) as [children' [[pool idx] st1]] end;
       exact Hr.
Qed.

Lemma same_type_inv a b :
  same_type a b = true →
  match b with
  | TTag s => a = TTag s
  | TFragment => a = TFragment
  | TText => a = TText
  | TComponent (mkComponent c _ _ _ _ _) => ∃ r hm hu hup o, a = TComponent (mkComponent c r hm hu hup o)
  end.
Proof.
  destruct a as [s| | |[c r hm hu hup o]], b as [s'| | |[c' r' hm' hu' hup' o']];
    simpl; try done.
  - by intros ->%bool_decide_eq_true.
  - intros ->%bool_decide_eq_true. by eexists _, _, _, _, _.
Qed.

Lemma patch_realized n :
  ∀ o container anchor isSVG st,
    realized o = true → realized (patch o n container anchor isSVG st).1 = true.
Proof.
  induction n as [type props children key el component vanchor IHc IHo _] using VNode_tree_ind.
  intros o container anchor isSVG st Ho.
  cbn [patch]. destruct (same_type (v_type o) type) eqn:Hty; cbn [negb].
  2:{ apply mount_realized. }
  apply same_type_inv in Hty.
  destruct o as [otype oprops ochildren okey oel ocomp oanchor].
  cbn [v_type v_el v_children v_props v_anchor v_component] in *.
  destruct type as [tag| | |[cid reads hm hu hup output]].
  - subst otype. rewrite realized_tag in Ho. apply andb_true_iff in Ho as [Hel Hch].
    apply bool_decide_eq_true in Hel as [n Hel]. subst oel.
    match goal with |- context [patchChildren ?p ?os ?ns ?a ?c ?v ?s] =>
      pose proof (patchChildren_realized os ns a c v s Hch IHc) as Hr;
      destruct (patchChildren p os ns a c v s) as [children' st2] end.
    cbn [fst] in *. rewrite realized_tag, Hr. by rewrite bool_decide_true by (by eexists).
  - subst otype. rewrite realized_fragment in Ho. apply andb_true_iff in Ho as [Han Hch].
    match goal with |- context [patchChildren ?p ?os ?ns ?a ?c ?v ?s] =>
      pose proof (patchChildren_realized os ns a c v s Hch IHc) as Hr;
      destruct (patchChildren p os ns a c v s) as [children' st2] end.
    cbn [fst] in *. rewrite realized_fragment, Hr. by rewrite Han.
  - subst otype. exact Ho.
  - destruct Hty as (r & hm' & hu' & hup' & out' & ->). cbn [realized] in Ho.
    destruct ocomp as [[subTree isMounted update mounted unmounted updated
                        icontainer ianchor iSVG]|]; [|done].
    apply andb_true_iff in Ho as [Ho Hsub]. apply andb_true_iff in Ho as [Him Hup].
    apply bool_decide_eq_true in Hup as [e ->]. subst isMounted.
    destruct (negb (props_changed oprops props ochildren children)).
    { cbn [fst realized]. rewrite bool_decide_true by (by eexists). by rewrite Hsub. }
    assert (∀ subTree' : option VNode,
              match subTree' with Some sub => realized sub | None => true end = true →
              realized (mkVNode (TComponent (mkComponent cid reads hm hu hup output)) props
                          children key oel
                          (Some (mkInstance subTree' true (Some e) (mounted ++ hm)
                                   (unmounted ++ hu) (updated ++ hup)
                                   icontainer ianchor iSVG)) vanchor) = true) as Hfin.
    { intros subTree' Hs. cbn [realized]. rewrite bool_decide_true by (by eexists).
      by rewrite Hs. }
    destruct subTree as [oldSub|], output as [newSub|].
    + match goal with |- context [patch oldSub newSub ?c ?a ?v ?s] =>
        pose proof (IHo _ _ _ _ _ newSub eq_refl oldSub c a v s Hsub) as Hr;
        destruct (patch oldSub newSub c a v s) as [s' s2] end.
      cbn [fst]. by apply Hfin.
    + cbn [fst]. by apply Hfin.
    + match goal with |- context [mount newSub ?c ?a ?v ?s] =>
        pose proof (mount_realized newSub c a v s) as Hr;
        destruct (mount newSub c a v s) as [s' s2] end.
      cbn [fst]. by apply Hfin.
    + cbn [fst]. by apply Hfin.
Qed.

(** X25: rendering keeps the committed tree realized: if the tree committed
    in a container (if any) has its nodes, anchors and instances, so has
    the tree committed there after [render], whether it was mounted afresh or
    patched against the old one. *)
Theorem render_keeps_tree_realized v container st :
  (∀ old, committed st !! container = Some old → realized old = true) →
  ∃ v', committed (render (Some v) container st) !! container = Some v'
        ∧ realized v' = true.
Proof.
  intros Hold. unfold render. destruct (committed st !! container) as [old|] eqn:Hc.
  - pose proof (patch_realized v old container None false st (Hold old eq_refl)) as Hr.
    destruct (patch old v container None false st) as [v' st1].
    exists v'. split; [|done]. cbn [committed with_committed]. apply lookup_insert_eq.
  - pose proof (mount_realized v container None false st) as Hr.
    destruct (mount v container None false st) as [v' st1].
    exists v'. split; [|done]. cbn [committed with_committed]. apply lookup_insert_eq.
Qed.

Lemma render_keeps_tree_realized_witness :
  ∃ v', committed (render (Some (ul [li "c" "C"; li "a" "A"])) 1 abc) !! 1 = Some v'
        ∧ realized v' = true.
Proof.
  apply (render_keeps_tree_realized (ul [li "c" "C"; li "a" "A"]) 1 abc).
  intros old Hold. pose proof (eq_trans (eq_sym Hold) abc_tree_is_committed) as H.
  injection H as ->. vm_compute. reflexivity.
Defined.
End RendererFacts.
